(** * ichnaea/data/export.py: the export pipeline

    A shallow embedding of the incoming dispatcher, the export queue
    configuration, the uploader retry loop, the internal transform and the
    internal uploader (report processing, deduplication, scores), with the
    properties of the pipeline stated and proved over it.

    Python values are modelled by [value]; a raised exception is [None] in
    the option monad (the exceptions of the uploader's sink, which the code
    tells apart, have their own type further down). *)

From Stdlib Require Import ZArith QArith.
From stdpp Require Import gmap strings list fin_maps.

Local Open Scope Z_scope.
#[local] Set Warnings "-clear-no-such-hyp".

(** ** Python values *)

(** What [simplejson.loads] produces (None, bool, int, float, text, list,
    dict with text keys), and the [datetime] the uploader stores under
    [time].  A finite float is carried as the rational it denotes. *)
#[warnings="-register-all"]
Inductive value : Type :=
  | PNone
  | PBool (b : bool)
  | PInt (z : Z)
  | PFloat (q : Q)
  | PStr (s : string)
  | PList (l : list value)
  | PDict (m : gmap string value)
  | PDatetime (seconds : Z).

Abbreviation dict := (gmap string value).

(** [bool(v)]: the truth value Python gives [v] in [if v:]. *)
Definition truthy (v : value) : bool :=
  match v with
  | PNone => false
  | PBool b => b
  | PInt z => negb (z =? 0)
  | PFloat q => negb (Qnum q =? 0)
  | PStr s => negb (String.eqb s "")
  | PList l => match l with [] => false | _ => true end
  | PDict m => negb (bool_decide (size m = 0%nat))
  | PDatetime _ => true
  end.

(** [bool(d)] for a dict held as a map. *)
Definition dict_truthy (d : dict) : bool := negb (bool_decide (size d = 0%nat)).

(** [v is not None]. *)
Definition is_not_None (v : value) : bool :=
  match v with PNone => false | _ => true end.

(** [d.get(k)]: the value under [k], [None] (the Python one) when absent. *)
Definition dict_get (d : dict) (k : string) : value := default PNone (d !! k).

(** [v.get(k)] on an arbitrary value: only a dict has the method. *)
Definition value_get (v : value) (k : string) : option value :=
  match v with
  | PDict d => Some (dict_get d k)
  | _ => None
  end.

(** [for x in v]: the elements a [for] loop visits; a dict yields its keys,
    text its characters, and the other values are not iterable. *)
Definition py_iter (v : value) : option (list value) :=
  match v with
  | PList l => Some l
  | PDict d => Some (PStr <$> (map_to_list d).*1)
  | PStr s => Some ((λ c, PStr (String c EmptyString)) <$> String.list_ascii_of_string s)
  | _ => None
  end.

(** ** InternalTransform *)

Module InternalTransform.

(** An entry of a field map: a two-tuple (source, target) or one name. *)
Inductive spec : Type :=
  | Tuple (source target : string)
  | Name (name : string).

Definition spec_source (s : spec) : string :=
  match s with Tuple source _ => source | Name n => n end.
Definition spec_target (s : spec) : string :=
  match s with Tuple _ target => target | Name n => n end.

Definition position_id : string * option string := ("position", None).
Definition position_map : list spec :=
  [ Tuple "latitude" "lat"; Tuple "longitude" "lon"; Name "accuracy";
    Name "altitude"; Tuple "altitudeAccuracy" "altitude_accuracy";
    Name "age"; Name "heading"; Name "pressure"; Name "speed";
    Name "source" ].

Definition blue_id : string * string := ("bluetoothBeacons", "blue").
Definition blue_map : list spec :=
  [ Tuple "macAddress" "mac"; Name "age"; Tuple "signalStrength" "signal" ].

Definition cell_id : string * string := ("cellTowers", "cell").
Definition cell_map : list spec :=
  [ Tuple "radioType" "radio"; Tuple "mobileCountryCode" "mcc";
    Tuple "mobileNetworkCode" "mnc"; Tuple "locationAreaCode" "lac";
    Tuple "cellId" "cid"; Name "age"; Name "asu";
    Tuple "primaryScramblingCode" "psc"; Name "serving";
    Tuple "signalStrength" "signal"; Tuple "timingAdvance" "ta" ].

Definition wifi_id : string * string := ("wifiAccessPoints", "wifi").
Definition wifi_map : list spec :=
  [ Tuple "macAddress" "mac"; Tuple "radioType" "radio"; Name "age";
    Name "channel"; Name "frequency"; Name "signalToNoiseRatio";
    Tuple "signalStrength" "signal" ].

(** The loop of [_map_dict], [value] being the dict built so far. *)
Fixpoint _map_dict_from (item_source : value) (field_map : list spec)
    (value : dict) : option dict :=
  match field_map with
  | [] => Some value
  | s :: field_map' =>
      source_value ← value_get item_source (spec_source s);
      _map_dict_from item_source field_map'
        (if is_not_None source_value
         then <[spec_target s := source_value]> value
         else value)
  end.

Definition _map_dict (item_source : value) (field_map : list spec)
    : option dict :=
  _map_dict_from item_source field_map ∅.

(** [_parse_dict] returns the report as updated; the code's own return
    value is not used by its caller. *)
Definition _parse_dict (item report : dict)
    (key_map : string * option string) (field_map : list spec)
    : option dict :=
  let item_source := dict_get item key_map.1 in
  value ← (if truthy item_source then _map_dict item_source field_map
           else Some ∅);
  Some (if dict_truthy value
        then match key_map.2 with
             | None => value ∪ report
             | Some target => <[target := PDict value]> report
             end
        else report).

(** The loop of [_parse_list] over the elements of the source list. *)
Fixpoint _parse_list_from (value_items : list value) (field_map : list spec)
    (values : list dict) : option (list dict) :=
  match value_items with
  | [] => Some values
  | value_item :: rest =>
      value ← _map_dict value_item field_map;
      _parse_list_from rest field_map
        (if dict_truthy value then values ++ [value] else values)
  end.

(** [_parse_list] returns the report as updated and the list of values. *)
Definition _parse_list (item report : dict)
    (key_map : string * string) (field_map : list spec)
    : option (dict * list dict) :=
  value_items ← match item !! key_map.1 with
                | Some v => py_iter v
                | None => Some []
                end;
  values ← _parse_list_from value_items field_map [];
  Some (match values with
        | [] => report
        | _ => <[key_map.2 := PList (PDict <$> values)]> report
        end,
        values).

Definition __call__ (item : dict) : option dict :=
  let report : dict := ∅ in
  report ← _parse_dict item report position_id position_map;
  let timestamp := dict_get item "timestamp" in
  let report := if truthy timestamp
                then <["timestamp" := timestamp]> report else report in
  '(report, blues) ← _parse_list item report blue_id blue_map;
  '(report, cells) ← _parse_list item report cell_id cell_map;
  '(report, wifis) ← _parse_list item report wifi_id wifi_map;
  match blues, cells, wifis with
  | [], [], [] => Some ∅
  | _, _, _ => Some report
  end.

End InternalTransform.

(** ** Hashable values

    The scalar a value stands for when it is used as a dict key, a set
    element or the left operand of [in]: Python compares such values with
    [==], under which [1], [1.0] and [True] are one key.  Lists and dicts
    are unhashable. *)

Inductive key : Type :=
  | KNone
  | KNum (num : Z) (den : positive)
  | KStr (s : string)
  | KDatetime (seconds : Z).

#[global] Instance key_eq_dec : EqDecision key.
Proof. solve_decision. Defined.

#[global] Instance key_countable : Countable key.
Proof.
  refine (inj_countable'
    (λ k, match k with
          | KNone => inl ()
          | KNum n d => inr (inl (n, d))
          | KStr s => inr (inr (inl s))
          | KDatetime t => inr (inr (inr t))
          end)
    (λ x, match x with
          | inl () => KNone
          | inr (inl (n, d)) => KNum n d
          | inr (inr (inl s)) => KStr s
          | inr (inr (inr t)) => KDatetime t
          end) _).
  by intros [].
Defined.

Definition hashable (v : value) : option key :=
  match v with
  | PNone => Some KNone
  | PBool b => Some (KNum (Z.b2z b) 1)
  | PInt z => Some (KNum z 1)
  | PFloat q => Some (KNum (Qnum (Qred q)) (Qden (Qred q)))
  | PStr s => Some (KStr s)
  | PList _ | PDict _ => None
  | PDatetime t => Some (KDatetime t)
  end.

(** [bool(k)] of the value behind a key. *)
Definition key_truthy (k : key) : bool :=
  match k with
  | KNone => false
  | KNum n _ => negb (n =? 0)
  | KStr s => negb (String.eqb s "")
  | KDatetime _ => true
  end.

(** ** Text

    A Python text is held as the bytes of its UTF-8 encoding.  A character
    of the text is a byte that is not a continuation byte, together with
    the continuation bytes that follow it. *)

(** The byte is a continuation byte of UTF-8, [10xxxxxx]. *)
Definition continuation (c : Ascii.ascii) : bool :=
  let n := Ascii.nat_of_ascii c in
  ((128 <=? n) && (n <? 192))%nat.

(** The text starts inside a character. *)
Definition continues (s : string) : bool :=
  match s with
  | EmptyString => false
  | String c _ => continuation c
  end.

(** The characters of a text, each as the text of its bytes. *)
Fixpoint characters (s : string) : list string :=
  match s with
  | EmptyString => []
  | String c s' =>
      match characters s' with
      | [] => [String c ""]
      | character :: rest =>
          if continues character then String c character :: rest
          else String c "" :: character :: rest
      end
  end.

(** [len(s)] for a text: the number of its characters. *)
Definition len (s : string) : nat := length (characters s).

(** The text made of pieces of text, one after the other. *)
Definition joined (pieces : list string) : string :=
  foldr String.append "" pieces.

(** ** Export queues *)

(** The queue classes and the uploader classes of the module. *)
Inductive queue_class : Type :=
  | ExportQueue
  | DummyExportQueue
  | HTTPSExportQueue
  | InternalExportQueue
  | S3ExportQueue.

Inductive uploader_class : Type :=
  | DummyUploader
  | GeosubmitUploader
  | InternalUploader
  | S3Uploader.

#[global] Instance queue_class_eq_dec : EqDecision queue_class.
Proof. solve_decision. Defined.
#[global] Instance uploader_class_eq_dec : EqDecision uploader_class.
Proof. solve_decision. Defined.

(** An instance of a queue class: its class and the attributes [__init__]
    stores (the redis client is the store the calls below act on). *)
Record export_queue : Type := {
  klass : queue_class;
  name : string;
  url : string;
  batch : Z;
  skip_keys : list key;
  uploader_type : option uploader_class;
  compress : bool
}.

(** What the module needs of the Python library and is not defined in it:
    [urlparse(url).scheme], [int(text)], the characters that [\s] matches
    under [re.UNICODE], and [datetime.utcfromtimestamp(timestamp / 1000.0)],
    given by the whole seconds of the [datetime] since the epoch ([None]
    when the division or the call raises).

    Which characters beyond ASCII are white space, and how the double
    [timestamp / 1000.0] is rounded into a [datetime], differ between the
    versions of the library.  What does not differ is kept as the two
    laws: among the ASCII characters the white space is tab to carriage
    return, the separators 28 to 31 and the space; and a whole number of
    milliseconds from the epoch to the end of the year 9999 falls into the
    second it belongs to. *)
Class Library : Type := {
  urlparse_scheme : string → string;
  int_of_text : string → option Z;
  isspace : string → bool;
  isspace_ascii (c : Ascii.ascii) :
    (Ascii.nat_of_ascii c < 128)%nat →
    isspace (String c "")
    = ((9 <=? Ascii.nat_of_ascii c) && (Ascii.nat_of_ascii c <=? 13)
       || (28 <=? Ascii.nat_of_ascii c) && (Ascii.nat_of_ascii c <=? 31)
       || (Ascii.nat_of_ascii c =? 32))%nat;
  datetime_utcfromtimestamp : value → option Z;
  datetime_utcfromtimestamp_whole (n : Z) :
    0 ≤ n < 253402300800000 →
    datetime_utcfromtimestamp (PInt n) = Some (n `div` 1000)
}.

(** [int(v)]. *)
Definition int `{Library} (v : value) : option Z :=
  match v with
  | PInt z => Some z
  | PBool b => Some (Z.b2z b)
  | PFloat q => Some (Z.quot (Qnum q) (Zpos (Qden q)))
  | PStr s => int_of_text s
  | _ => None
  end.

(** [WHITESPACE = re.compile('\s', flags=re.UNICODE)]: whether the
    pattern matches a character. *)
Definition WHITESPACE `{Library} (character : string) : bool :=
  isspace character.

(** [WHITESPACE.split(s)] over the characters of [s], [piece] being the
    text since the last match. *)
Fixpoint WHITESPACE_split_from `{Library} (text : list string)
    (piece : string) : list string :=
  match text with
  | [] => [piece]
  | character :: text' =>
      if WHITESPACE character then piece :: WHITESPACE_split_from text' ""
      else WHITESPACE_split_from text' (piece +:+ character)
  end.

Definition WHITESPACE_split `{Library} (s : string) : list string :=
  WHITESPACE_split_from (characters s) "".

(** [queue_types.get(scheme, (cls, None))]. *)
Definition queue_types (scheme : string)
    : option (queue_class * uploader_class) :=
  if String.eqb scheme "dummy" then Some (DummyExportQueue, DummyUploader)
  else if String.eqb scheme "http" then Some (HTTPSExportQueue, GeosubmitUploader)
  else if String.eqb scheme "https" then Some (HTTPSExportQueue, GeosubmitUploader)
  else if String.eqb scheme "internal" then Some (InternalExportQueue, InternalUploader)
  else if String.eqb scheme "s3" then Some (S3ExportQueue, S3Uploader)
  else None.

Definition text_of (v : value) : option string :=
  match v with PStr s => Some s | _ => None end.

(** [ExportQueue.configure_queue], a class method: [cls] is the class it is
    called on, [key] the queue's name. *)
Definition configure_queue `{Library} (cls : queue_class) (key : string)
    (settings : dict) (compress : bool) : option export_queue :=
  let url := default (PStr "") (settings !! "url") in
  let url := if truthy url then url else PStr "" in
  url ← text_of url;
  let scheme := urlparse_scheme url in
  batch ← int (default (PInt 0) (settings !! "batch"));
  skip_keys ← text_of (default (PStr "") (settings !! "skip_keys"));
  let skip_keys := WHITESPACE_split skip_keys in
  let skip_keys :=
    filter (λ skip_key, negb (String.eqb skip_key "") = true) skip_keys in
  let '(klass, uploader_type) :=
    match queue_types scheme with
    | Some (klass, uploader) => (klass, Some uploader)
    | None => (cls, None)
    end in
  Some {| klass := klass; name := key; url := url; batch := batch;
          skip_keys := KStr <$> skip_keys;
          uploader_type := uploader_type; compress := compress |}.

(** The class attribute [metadata]. *)
Definition metadata (queue : export_queue) : bool :=
  match klass queue with InternalExportQueue => true | _ => false end.

Definition export_allowed (queue : export_queue) (api_key : key) : bool :=
  bool_decide (api_key ∉ skip_keys queue).

(** [self.name[13:]]. *)
Definition metric_tag (queue : export_queue) : string :=
  String.substring 13 (String.length (name queue) - 13) (name queue).

(** [queue_key]: the name for every class but [S3ExportQueue], which
    appends the api key to it; text plus a truthy value that is not text
    raises. *)
Definition queue_key (queue : export_queue) (api_key : key) : option string :=
  match klass queue with
  | S3ExportQueue =>
      let api_key := if key_truthy api_key then api_key else KStr "no_key" in
      match api_key with
      | KStr s => Some (name queue +:+ ":" +:+ s)
      | _ => None
      end
  | _ => Some (name queue)
  end.

(** ** IncomingQueue *)

(** A call [queue.enqueue(items, queue_key, pipe=pipe)]. *)
Record enqueue_call : Type := Enqueue {
  call_queue : export_queue;
  call_key : string;
  call_items : list dict
}.

Module IncomingQueue.

(** The dict literal built for one item; a missing key raises. *)
Definition envelope (item : dict) : option dict :=
  api_key ← item !! "api_key";
  nickname ← item !! "nickname";
  report ← item !! "report";
  Some {[ "api_key" := api_key; "nickname" := nickname; "report" := report ]}.

(** The first loop, over the dequeued data; [grouped] is the
    [defaultdict(list)]. *)
Fixpoint group (data : list dict) (grouped : gmap key (list dict))
    : option (gmap key (list dict)) :=
  match data with
  | [] => Some grouped
  | item :: data' =>
      api_key ← item !! "api_key";
      api_key ← hashable api_key;
      entry ← envelope item;
      group data'
        (<[api_key := default [] (grouped !! api_key) ++ [entry]]> grouped)
  end.

(** The inner loop, over the export queues, for one group: the enqueue
    calls made on the pipeline, in order, and whether the loop ended
    without an exception. *)
Fixpoint distribute (api_key : key) (items : list dict)
    (export_queues : list export_queue) : list enqueue_call * bool :=
  match export_queues with
  | [] => ([], true)
  | queue :: export_queues' =>
      if export_allowed queue api_key
      then match queue_key queue api_key with
           | Some queue_key =>
               let '(calls, ended) := distribute api_key items export_queues' in
               (Enqueue queue queue_key items :: calls, ended)
           | None => ([], false)
           end
      else distribute api_key items export_queues'
  end.

(** The outer loop, over the groups. *)
Fixpoint distribute_all (groups : list (key * list dict))
    (export_queues : list export_queue) : list enqueue_call * bool :=
  match groups with
  | [] => ([], true)
  | (api_key, items) :: groups' =>
      let '(calls, ended) := distribute api_key items export_queues in
      if ended
      then let '(calls', ended') := distribute_all groups' export_queues in
           (calls ++ calls', ended')
      else (calls, false)
  end.

(** [__call__] on the data dequeued from [update_incoming] and the values
    of [export_queues]: the enqueue calls made on the pipeline, and
    whether the call returned rather than raised (the pipeline is executed
    when its block ends without an exception).  The re-arming of the task
    that ends the method is not part of the model. *)
Definition __call__ (data : list dict) (export_queues : list export_queue)
    : list enqueue_call * bool :=
  match group data ∅ with
  | Some grouped => distribute_all (map_to_list grouped) export_queues
  | None => ([], false)
  end.

End IncomingQueue.

(** ** BaseReportUploader *)

(** The exception classes the uploaders name, [KeyError], and any other. *)
Inductive exception : Type :=
  | IOError
  | RequestException
  | BotoClientError
  | BotoServerError
  | RedisError
  | InternalError
  | KeyError
  | OtherError (class_name : string).

#[global] Instance exception_eq_dec : EqDecision exception.
Proof. solve_decision. Defined.

(** What the job does besides calling the sink. *)
Inductive event : Type :=
  | Sleep (seconds : Q)
  | Incr (stat : string) (tags : list string)
  | Countdown (export_queue_name queue_key : string).

(** How a call ended: it returned, or it raised to its caller. *)
Inductive completion : Type :=
  | Returned
  | Raised (e : exception).

Module BaseReportUploader.

(** The class attribute [_retriable] of each uploader class. *)
Definition _retriable (uploader : uploader_class) : list exception :=
  match uploader with
  | DummyUploader => [IOError]
  | GeosubmitUploader => [IOError; RequestException]
  | S3Uploader => [IOError; BotoClientError; BotoServerError]
  | InternalUploader => [IOError; RedisError; InternalError]
  end.

Definition _retries : nat := 3.
Definition _retry_wait : Q := 1.

(** [issubclass]: of the classes above, requests' [RequestException] alone
    derives from another one, [IOError]. *)
Definition issubclass (e c : exception) : bool :=
  bool_decide (e = c) || bool_decide (e = RequestException ∧ c = IOError).

(** Whether [except self._retriable] catches [e]. *)
Definition retriable (uploader : uploader_class) (e : exception) : bool :=
  existsb (issubclass e) (_retriable uploader).

(** A sink: what the [i]-th call of [send(url, data)] in a job does, [None]
    when it returns and [Some e] when it raises [e]. *)
Definition sink : Type := nat → string → value → option exception.

(** The duration slept after attempt [i] failed. *)
Definition retry_sleep (i : nat) : Q := _retry_wait * inject_Z (Z.of_nat i ^ 2 + 1).

(** The [for i in range(self._retries)] loop over the remaining indices:
    the events, and the final value of [success] or the exception that
    left the loop. *)
Fixpoint attempts (uploader : uploader_class) (send : sink)
    (url : string) (data : value) (stats_tags : list string)
    (range : list nat) : list event * (bool + exception) :=
  match range with
  | [] => ([], inl false)
  | i :: range' =>
      match send i url data with
      | None => ([Incr "data.export.batch" stats_tags], inl true)
      | Some e =>
          if retriable uploader e
          then let '(events, final) :=
                 attempts uploader send url data stats_tags range' in
               (Sleep (retry_sleep i) :: events, final)
          else ([], inr e)
      end
  end.

(** [[item['report'] for item in items]]. *)
Definition item_reports (items : list dict) : option (list value) :=
  mapM (λ item : dict, item !! "report") items.

(** The object handed to [simplejson.dumps]: the envelopes for a queue
    with metadata, their reports under [items] otherwise. *)
Definition payload (export_queue : export_queue) (items : list dict)
    : option value :=
  if metadata export_queue then Some (PList (PDict <$> items))
  else reports ← item_reports items;
       Some (PDict {[ "items" := PList reports ]}).

(** [__call__]: [items] is what [dequeue] returned for the partition,
    [ready] what [ready] answers once the upload is over.  The text
    [simplejson.dumps] writes is identified with the value it encodes. *)
Definition __call__ (uploader : uploader_class) (export_queue : export_queue)
    (queue_key : string) (send : sink) (items : list dict) (ready : bool)
    : completion * list event :=
  match items with
  | [] => (Returned, [])
  | _ =>
      match payload export_queue items with
      | None => (Raised KeyError, [])
      | Some data =>
          let stats_tags := ["key:" +:+ metric_tag export_queue] in
          match attempts uploader send (url export_queue) data stats_tags
                  (seq 0 _retries) with
          | (events, inl success) =>
              (Returned,
               if success && ready
               then events ++ [Countdown (name export_queue) queue_key]
               else events)
          | (events, inr e) => (Raised e, events)
          end
      end
  end.

End BaseReportUploader.

(** ** InternalUploader *)

(** The three transmitter types, in the order of [('blue', 'cell', 'wifi')]. *)
Inductive datatype : Type := blue | cell | wifi.

#[global] Instance datatype_eq_dec : EqDecision datatype.
Proof. solve_decision. Defined.

Definition datatype_name (t : datatype) : string :=
  match t with blue => "blue" | cell => "cell" | wifi => "wifi" end.

Definition queue_prefix (t : datatype) : string :=
  match t with
  | blue => "update_blue_"
  | cell => "update_cell_"
  | wifi => "update_wifi_"
  end.

(** What the uploader imports from [ichnaea.models] and from the database
    session, none of it defined in this module: the report and observation
    models ([create] answers [None] for data that fails validation) and the
    [User] table. *)
Class Models : Type := {
  Report : Type;
  ItemReport : Type;
  Observation : Type;
  unique : Type;
  unique_eq_dec :: EqDecision unique;
  unique_countable :: Countable unique;
  (** [Report.create( **data )] *)
  Report_create : dict → option Report;
  (** [report_cls.create( **item )] for the type's report class *)
  ItemReport_create : datatype → dict → option ItemReport;
  (** [obs_cls.combine(report, item_report)] *)
  combine : datatype → Report → ItemReport → Observation;
  unique_key : Observation → unique;
  (** [existing.better(item_obs)] *)
  better : Observation → Observation → bool;
  (** [shard_model.shard_id(getattr(ob, shard_key))] *)
  shard_id : datatype → Observation → string;
  to_json : Observation → value;
  Session : Type;
  (** [session.query(User).filter(User.nickname == nickname).first()],
      as the id of the row found *)
  User_first : Session → string → option Z;
  (** [session.add(User(nickname=nickname)); session.flush()] and the id
      of the new row *)
  User_add : Session → string → Session * Z
}.

(** [v[k]] for a text key: only a dict takes one, and it must hold it. *)
Definition getitem (v : value) (k : string) : option value :=
  match v with
  | PDict d => d !! k
  | _ => None
  end.

Definition as_dict (v : value) : option dict :=
  match v with PDict d => Some d | _ => None end.

Module InternalUploader.

Section with_models.
Context `{Library} `{Models}.

(** [datetime.utcfromtimestamp(timestamp / 1000.0)] once
    [replace(microsecond=0, tzinfo=pytz.UTC)] has cleared its
    microseconds: the whole seconds of the [datetime] the library gives. *)
Definition utcfromtimestamp_ms (timestamp : value) : option Z :=
  datetime_utcfromtimestamp timestamp.

Definition _format_report (item : dict) : option dict :=
  report ← InternalTransform.__call__ item;
  let timestamp := dict_get report "timestamp" in
  let report := delete "timestamp" report in
  if truthy timestamp
  then dt ← utcfromtimestamp_ms timestamp;
       Some (<["time" := PDatetime dt]> report)
  else Some report.

(** The body of the loop over the items of one type: [malformed] and
    [observations] are the counter and the dict of that type. *)
Definition observe (name : datatype) (report : Report)
    (state : nat * gmap unique Observation) (item : value)
    : option (nat * gmap unique Observation) :=
  let '(malformed, observations) := state in
  item ← as_dict item;
  match ItemReport_create name item with
  | None => Some (S malformed, observations)
  | Some item_report =>
      let item_obs := combine name report item_report in
      let item_key := unique_key item_obs in
      match observations !! item_key with
      | Some existing =>
          if better existing item_obs
          then Some (malformed, observations)
          else Some (malformed, <[item_key := item_obs]> observations)
      | None => Some (malformed, <[item_key := item_obs]> observations)
      end
  end.

(** The loop over [data[name]]. *)
Fixpoint observe_all (name : datatype) (report : Report)
    (items : list value) (state : nat * gmap unique Observation)
    : option (nat * gmap unique Observation) :=
  match items with
  | [] => Some state
  | item :: items' =>
      state ← observe name report state item;
      observe_all name report items' state
  end.

(** One round of the loop over the three types of [process_report]. *)
Definition observe_type (name : datatype) (report : Report) (data : dict)
    : option (nat * gmap unique Observation) :=
  if truthy (dict_get data (datatype_name name))
  then items ← py_iter (dict_get data (datatype_name name));
       observe_all name report items (0%nat, ∅)
  else Some (0%nat, ∅).

(** [process_report]: the observations kept and the malformed counts, per
    type.  The pair of empty dicts of the early return answers [.get(name)]
    with nothing for every type, as the constant functions do. *)
Definition process_report (data : dict)
    : option ((datatype → list Observation) * (datatype → nat)) :=
  match Report_create data with
  | None => Some (λ _, [], λ _, 0%nat)
  | Some report =>
      b ← observe_type blue report data;
      c ← observe_type cell report data;
      w ← observe_type wifi report data;
      let of_type name := match name with blue => b | cell => c | wifi => w end in
      Some (λ name, (map_to_list (of_type name).2).*2,
            λ name, (of_type name).1)
  end.

(** The state of the loop over the reports in [process_reports]. *)
Record reports_state : Type := {
  malformed_reports : nat;
  positions : gset (key * key);
  observations : datatype → list Observation;
  (** [obs_count[name]['upload']] and [obs_count[name]['drop']] *)
  obs_count : datatype → nat * nat
}.

Definition reports_state_init : reports_state :=
  {| malformed_reports := 0; positions := ∅;
     observations := λ _, []; obs_count := λ _, (0, 0)%nat |}.

(** [(report['lat'], report['lon'])] as a set element. *)
Definition position_of (report : dict) : option (key * key) :=
  lat ← report !! "lat";
  lon ← report !! "lon";
  lat ← hashable lat;
  lon ← hashable lon;
  Some (lat, lon).

Definition nonempty {A} (l : list A) : bool :=
  match l with [] => false | _ => true end.

(** The body of the loop over the reports. *)
Definition count_report (state : reports_state) (report : dict)
    : option reports_state :=
  '(obs, malformed_obs) ← process_report report;
  let any_data := existsb (λ name, nonempty (obs name)) [blue; cell; wifi] in
  let observations' name := observations state name ++ obs name in
  let obs_count' name :=
    ((obs_count state name).1 + length (obs name),
     (obs_count state name).2 + malformed_obs name)%nat in
  if any_data
  then position ← position_of report;
       Some {| malformed_reports := malformed_reports state;
               positions := positions state ∪ {[ position ]};
               observations := observations';
               obs_count := obs_count' |}
  else Some {| malformed_reports := S (malformed_reports state);
               positions := positions state;
               observations := observations';
               obs_count := obs_count' |}.

Fixpoint count_reports (reports : list dict) (state : reports_state)
    : option reports_state :=
  match reports with
  | [] => Some state
  | report :: reports' =>
      state ← count_report state report;
      count_reports reports' state
  end.

(** [sharded_obs] for the observations of one type. *)
Definition shard (name : datatype) (obs : list Observation)
    : gmap string (list Observation) :=
  foldl (λ sharded_obs ob,
           <[shard_id name ob :=
               default [] (sharded_obs !! shard_id name ob) ++ [ob]]>
             sharded_obs)
        ∅ obs.

(** [obs_queue[name]] once the shards of the type are queued. *)
Definition queue_shards (name : datatype)
    (sharded_obs : gmap string (list Observation))
    : gmap string (list value) :=
  foldl (λ (obs_queue : gmap string (list value)) '(shard_id, values),
           <[queue_prefix name +:+ shard_id :=
               default [] (obs_queue !! (queue_prefix name +:+ shard_id))
               ++ (to_json <$> values)]> obs_queue)
        ∅ (map_to_list sharded_obs).

(** What [process_reports] returns; [userid] is not used by it. *)
Record reports_result : Type := {
  obs_queue : datatype → gmap string (list value);
  result_malformed_reports : nat;
  result_obs_count : datatype → nat * nat;
  result_positions : gset (key * key)
}.

Definition process_reports (reports : list dict) (userid : option Z)
    : option reports_result :=
  state ← count_reports reports reports_state_init;
  Some {| obs_queue := λ name,
            if nonempty (observations state name)
            then queue_shards name (shard name (observations state name))
            else ∅;
          result_malformed_reports := malformed_reports state;
          result_obs_count := obs_count state;
          result_positions := positions state |}.


(** [process_user]: the session as it is left, and the userid.  [len] of
    a nickname that is not text raises. *)
Definition process_user (session : Session) (nickname : key)
    : option (Session * option Z) :=
  if key_truthy nickname
  then match nickname with
       | KStr text =>
           if ((2 <=? len text) && (len text <=? 128))%nat
           then match User_first session text with
                | None => let '(session, userid) := User_add session text in
                          Some (session, Some userid)
                | Some userid => Some (session, Some userid)
                end
           else Some (session, None)
       | _ => None
       end
  else Some (session, None).

(** The dicts and sets the first loop of [_send] fills. *)
Record collected : Type := {
  groups : gmap (key * key) (list dict);
  api_keys : gset key;
  nicknames : gset key
}.

(** The body of the loop over the items of the decoded data. *)
Definition collect_item (state : collected) (item : value) : option collected :=
  report ← getitem item "report";
  report ← as_dict report;
  report ← _format_report report;
  if dict_truthy report
  then api_key ← getitem item "api_key";
       nickname ← getitem item "nickname";
       api_key ← hashable api_key;
       nickname ← hashable nickname;
       Some {| groups :=
                 <[(api_key, nickname) :=
                     default [] (groups state !! (api_key, nickname)) ++ [report]]>
                   (groups state);
               api_keys := api_keys state ∪ {[ api_key ]};
               nicknames := nicknames state ∪ {[ nickname ]} |}
  else Some state.

Fixpoint collect (items : list value) (state : collected) : option collected :=
  match items with
  | [] => Some state
  | item :: items' =>
      state ← collect_item state item;
      collect items' state
  end.

(** The loop over the nicknames: [users] and [scores] as they are filled. *)
Fixpoint resolve_users (nicknames : list key) (session : Session)
    (users : gmap key (option Z)) (scores : gmap (option Z) nat)
    : option (Session * gmap key (option Z) * gmap (option Z) nat) :=
  match nicknames with
  | [] => Some (session, users, scores)
  | nickname :: nicknames' =>
      '(session, userid) ← process_user session nickname;
      resolve_users nicknames' session
        (<[nickname := userid]> users) (<[userid := 0%nat]> scores)
  end.

(** [all_queued_obs[datatype][queue_id].extend(values)] for the queues of
    one type. *)
Definition extend_queues (all_queued : gmap string (list value))
    (queued_obs : gmap string (list value)) : gmap string (list value) :=
  foldl (λ (all_queued : gmap string (list value)) '(queue_id, values),
           <[queue_id := default [] (all_queued !! queue_id) ++ values]>
             all_queued)
        all_queued (map_to_list queued_obs).

(** The state of the loop over the groups.  The metrics counters, which
    feed [emit_stats] alone, are not carried. *)
Record send_state : Type := {
  state_scores : gmap (option Z) nat;
  state_positions : list (key * key);
  state_queued_obs : datatype → gmap string (list value)
}.

(** [scores[userid] += value]; a userid that is not held raises. *)
Definition add_score (scores : gmap (option Z) nat) (userid : option Z)
    (value : nat) : option (gmap (option Z) nat) :=
  score ← scores !! userid;
  Some (<[userid := (score + value)%nat]> scores).

(** The body of the loop over [groups.items()]. *)
Definition process_group (users : gmap key (option Z)) (state : send_state)
    (group : key * key * list dict) : option send_state :=
  let '(api_key, nickname, reports) := group in
  let userid := default None (users !! nickname) in
  result ← process_reports reports userid;
  scores ← (if userid is Some _
            then add_score (state_scores state) userid (size (result_positions result))
            else Some (state_scores state));
  Some {| state_scores := scores;
          state_positions :=
            state_positions state ++ elements (result_positions result);
          state_queued_obs := λ datatype,
            extend_queues (state_queued_obs state datatype)
              (obs_queue result datatype) |}.

Fixpoint process_groups (users : gmap key (option Z))
    (groups : list (key * key * list dict)) (state : send_state)
    : option send_state :=
  match groups with
  | [] => Some state
  | group :: groups' =>
      state ← process_group users state group;
      process_groups users groups' state
  end.

(** [process_score]: the entry of userid and value enqueued to
    [update_score], if any. *)
Definition process_score (userid : option Z) (pos_count : nat)
    : list (Z * nat) :=
  match userid with
  | None => []
  | Some userid => if (pos_count <=? 0)%nat then [] else [(userid, pos_count)]
  end.

(** What a call of [_send] leaves: the session, the score entries
    enqueued, the lists enqueued to the shard queues, and the positions
    handed to [process_datamap]. *)
Record sent : Type := {
  sent_session : Session;
  sent_scores : gmap (option Z) nat;
  sent_score_entries : list (Z * nat);
  sent_queued : list (datatype * string * list value);
  sent_positions : list (key * key)
}.

(** [_send] on the decoded [data]. *)
Definition _send (session : Session) (data : value) : option sent :=
  items ← py_iter data;
  found ← collect items {| groups := ∅; api_keys := ∅; nicknames := ∅ |};
  '(session, users, scores) ← resolve_users (elements (nicknames found)) session ∅ ∅;
  state ← process_groups users (map_to_list (groups found))
            {| state_scores := scores; state_positions := [];
               state_queued_obs := λ _, ∅ |};
  Some {| sent_session := session;
          sent_scores := state_scores state;
          sent_score_entries :=
            map_to_list (state_scores state) ≫= (λ '(userid, score_value),
              process_score userid score_value);
          sent_queued :=
            [blue; cell; wifi] ≫= (λ datatype,
              (λ '(queue_id, values), (datatype, queue_id, values))
                <$> map_to_list (state_queued_obs state datatype));
          sent_positions := state_positions state |}.

End with_models.
End InternalUploader.

(** ** Notions the properties are stated with *)

(** An entry survives field mapping when one of its mapped source fields
    is present and not null. *)
Definition survives (field_map : list InternalTransform.spec) (entry : value)
    : bool :=
  match entry with
  | PDict d =>
      existsb (λ s, is_not_None (dict_get d (InternalTransform.spec_source s)))
        field_map
  | _ => false
  end.

(** The entries an external report lists under a key. *)
Definition entries (item : dict) (k : string) : list value :=
  match item !! k with
  | Some (PList l) => l
  | _ => []
  end.

(** Some blue, cell or wifi entry of the report survives. *)
Definition has_survivor (item : dict) : bool :=
  existsb (survives InternalTransform.blue_map) (entries item "bluetoothBeacons")
  || existsb (survives InternalTransform.cell_map) (entries item "cellTowers")
  || existsb (survives InternalTransform.wifi_map) (entries item "wifiAccessPoints").

(** No field of the dict is null. *)
Definition no_null (d : dict) : Prop :=
  ∀ k v, d !! k = Some v → v ≠ PNone.

(** No field of the report is null, nor any field of the entries of its
    lists. *)
Definition no_null_report (report : dict) : Prop :=
  no_null report ∧
  ∀ k v, k ∈ ["blue"; "cell"; "wifi"] → report !! k = Some v →
    ∃ entries : list dict,
      v = PList (PDict <$> entries) ∧
      Forall (λ d, d ≠ ∅ ∧ no_null d) entries.

(** [isinstance(v, dict)]. *)
Definition is_dict (v : value) : bool :=
  match v with PDict _ => true | _ => false end.

(** The key is absent, or holds an array of objects. *)
Definition array_of_objects (item : dict) (k : string) : Prop :=
  item !! k = None ∨ ∃ l, item !! k = Some (PList l) ∧ forallb is_dict l = true.

(** The external report schema: [position], when it is given and not
    empty, is an object; the three lists, when given, are arrays of
    objects. *)
Definition well_formed (item : dict) : Prop :=
  (truthy (dict_get item "position") = true →
   is_dict (dict_get item "position") = true) ∧
  array_of_objects item "bluetoothBeacons" ∧
  array_of_objects item "cellTowers" ∧
  array_of_objects item "wifiAccessPoints".

(** The api key of an ingress item or of an envelope, as a dict key. *)
Definition api_key_of (item : dict) : option key :=
  item !! "api_key" ≫= hashable.

(** The sum of the values of a score dict. *)
Definition total_score (scores : gmap (option Z) nat) : nat :=
  sum_list_with snd (map_to_list scores).

(** All the values held by the lists of a dict of lists. *)
Definition values_of {A} (queues : gmap string (list A)) : list A :=
  mjoin (map_to_list queues).*2.


(** A nickname resolves to a userid when it is text of 2 to 128
    characters. *)
Definition resolves (nickname : key) : bool :=
  match nickname with
  | KStr text =>
      ((2 <=? len text) && (len text <=? 128))%nat
  | _ => false
  end.

Section with_models.
Context `{Models}.



(** The report produces at least one valid observation. *)
Definition produces_observation (report : dict) : bool :=
  match InternalUploader.process_report report with
  | Some (obs, _) =>
      existsb (λ name, InternalUploader.nonempty (obs name)) [blue; cell; wifi]
  | None => false
  end.


(** The observations a report contributes for a type, as [process_report]
    returns them. *)
Definition report_observations (name : datatype) (report : dict)
    : list Observation :=
  match InternalUploader.process_report report with
  | Some (obs, _) => obs name
  | None => []
  end.







End with_models.

(** ** Concrete inputs *)

(** The second scenario of the transform: position, one wifi entry and a
    timestamp. *)
Definition scenario_report : dict :=
  {[ "position" := PDict {[ "latitude" := PFloat (3 # 2);
                            "longitude" := PFloat (5 # 2);
                            "accuracy" := PInt 10;
                            "altitudeAccuracy" := PInt 3 ]};
     "wifiAccessPoints" :=
       PList [PDict {[ "macAddress" := PStr "aa:bb";
                       "signalStrength" := PInt (-50) ]}];
     "timestamp" := PInt 1500000000000 ]}.

(** A wifi entry and reports around it. *)
Definition wifi_entry (mac : string) (signal : Z) : value :=
  PDict {[ "macAddress" := PStr mac; "signalStrength" := PInt signal ]}.

Definition report_at_epoch : dict :=
  {[ "timestamp" := PInt 0;
     "wifiAccessPoints" := PList [wifi_entry "aa:bb" (-50)] ]}.

(** The functions of a library for the examples: the scheme is the text
    before the first colon (as [urlparse] finds it for text that holds a
    scheme of lower case letters), and [int] reads decimal digits. *)
Definition scheme_before_colon (url : string) : string :=
  match String.index 0 ":" url with
  | Some n => String.substring 0 n url
  | None => ""
  end.

Fixpoint digits_from (s : string) (acc : Z) : option Z :=
  match s with
  | EmptyString => Some acc
  | String c s' =>
      let n := Ascii.nat_of_ascii c in
      if ((48 <=? n) && (n <=? 57))%nat
      then digits_from s' (10 * acc + Z.of_nat (n - 48))
      else None
  end.

Definition decimal (s : string) : option Z :=
  match s with
  | EmptyString => None
  | _ => digits_from s 0
  end.

(** The text of a list of bytes. *)
Definition bytes (l : list nat) : string :=
  String.string_of_list_ascii (Ascii.ascii_of_nat <$> l).

(** The characters that are white space for [str.isspace] and for [\s]
    under [re.UNICODE] in Python 3, as their UTF-8 bytes: the ASCII ones,
    U+0085, U+00A0, U+1680, U+2000 to U+200A, U+2028, U+2029, U+202F,
    U+205F and U+3000. *)
Definition example_spaces : list string :=
  bytes <$>
    [ [9]; [10]; [11]; [12]; [13]; [28]; [29]; [30]; [31]; [32];
      [194; 133]; [194; 160]; [225; 154; 128];
      [226; 128; 128]; [226; 128; 129]; [226; 128; 130]; [226; 128; 131];
      [226; 128; 132]; [226; 128; 133]; [226; 128; 134]; [226; 128; 135];
      [226; 128; 136]; [226; 128; 137]; [226; 128; 138];
      [226; 128; 168]; [226; 128; 169]; [226; 128; 175];
      [226; 129; 159]; [227; 128; 128] ]%nat.

(** The integer nearest to a rational, the even one of two. *)
Definition round_half_even (q : Q) : Z :=
  let floor := Qnum q `div` Zpos (Qden q) in
  let rest := Qnum q `mod` Zpos (Qden q) in
  match 2 * rest ?= Zpos (Qden q) with
  | Lt => floor
  | Gt => floor + 1
  | Eq => if Z.even floor then floor else floor + 1
  end.

(** The whole seconds of [datetime.utcfromtimestamp(timestamp / 1000.0)]
    in Python 3, the arithmetic being taken as exact: the milliseconds
    are rounded to the nearest microsecond, the even one of two, a
    [datetime] outside the years 1 to 9999 raises [ValueError], and what
    is not a number raises [TypeError]. *)
Definition example_utcfromtimestamp (timestamp : value) : option Z :=
  let in_range (seconds : Z) :=
    if (-62135596800 <=? seconds) && (seconds <? 253402300800)
    then Some seconds else None in
  match timestamp with
  | PInt n => in_range (n `div` 1000)
  | PBool b => Some 0
  | PFloat q => in_range (round_half_even (q * 1000) `div` 1000000)
  | _ => None
  end.

(** A text of one character, held in three bytes (U+4E2D). *)
Definition one_character : string := bytes [228; 184; 173]%nat.

(** The library of the examples, after Python 3: the scheme, [int], the
    white space and the seconds of a timestamp are the functions above,
    which keep the two laws. *)
Definition example_library : Library.
Proof.
  refine {| urlparse_scheme := scheme_before_colon; int_of_text := decimal;
            isspace := λ character, bool_decide (character ∈ example_spaces);
            datetime_utcfromtimestamp := example_utcfromtimestamp |}.
  - intros c _.
    destruct c as [[] [] [] [] [] [] [] []]; vm_compute; reflexivity.
  - intros n Hn. unfold example_utcfromtimestamp.
    assert (0 ≤ n `div` 1000 < 253402300800) as Hs.
    { split; [apply Z.div_pos; lia|].
      apply Z.div_lt_upper_bound; lia. }
    destruct (Z.leb_spec (-62135596800) (n `div` 1000)); [|lia].
    destruct (Z.ltb_spec (n `div` 1000) 253402300800); [|lia].
    reflexivity.
Defined.

(** An observation of the example models: the unique key of its
    transmitter, its signal, and the position of its report. *)
Record example_observation : Type := {
  ob_key : key;
  ob_signal : Z;
  ob_position : key * key
}.

(** The field of an entry that identifies its transmitter. *)
Definition example_key_field (name : datatype) : string :=
  match name with cell => "cid" | _ => "mac" end.

(** Modelled from the spec: the observation models and the User table of
    [ichnaea.models], which the module imports and which are not among
    the sources.  An observation carries the [unique_key] of its
    transmitter (the mac, or the cell id) and its signal; [better] prefers
    the stronger signal; a report is valid when it has a position; every
    observation goes to the shard 0; a nickname maps to a stable numeric
    userid. *)
Definition example_models : Models :=
  {| Report := key * key;
     ItemReport := key * Z;
     Observation := example_observation;
     unique := key;
     Report_create := λ data,
       lat ← data !! "lat"; lon ← data !! "lon";
       lat ← hashable lat; lon ← hashable lon;
       if is_not_None (dict_get data "lat") && is_not_None (dict_get data "lon")
       then Some (lat, lon) else None;
     ItemReport_create := λ name item,
       k ← item !! example_key_field name;
       k ← hashable k;
       match dict_get item "signal" with
       | PInt signal => Some (k, signal)
       | PNone => Some (k, -100)
       | _ => None
       end;
     combine := λ _ report item_report,
       {| ob_key := item_report.1; ob_signal := item_report.2;
          ob_position := report |};
     unique_key := ob_key;
     better := λ existing other, ob_signal other <? ob_signal existing;
     shard_id := λ _ _, "0";
     to_json := λ ob,
       PDict {[ "key" := match ob_key ob with
                         | KStr s => PStr s
                         | KNum n _ => PInt n
                         | _ => PNone
                         end;
                "signal" := PInt (ob_signal ob) ]};
     Session := list (string * Z);
     User_first := λ session nickname, (list_to_map session : gmap string Z) !! nickname;
     User_add := λ session nickname,
       (session ++ [(nickname, 1 + Z.of_nat (length session))],
        1 + Z.of_nat (length session)) |}.

(** An http queue, an envelope, and a target that answers every POST with
    a status 500, which [raise_for_status] turns into an [HTTPError], a
    [RequestException]. *)
Definition http_queue : export_queue :=
  {| klass := HTTPSExportQueue; name := "queue_export_test";
     url := "http://127.0.0.1:9/"; batch := 1; skip_keys := [];
     uploader_type := Some GeosubmitUploader; compress := false |}.

Definition one_envelope : dict :=
  {[ "api_key" := PStr "test"; "nickname" := PNone;
     "report" := PDict report_at_epoch ]}.

Definition always_500 : BaseReportUploader.sink :=
  λ _ _ _, Some RequestException.

(** An object-store queue, and an ingress item without the key
    [api_key]. *)
Definition s3_queue : export_queue :=
  {| klass := S3ExportQueue; name := "queue_export_backup";
     url := "s3://bucket/{api_key}/"; batch := 1; skip_keys := [];
     uploader_type := Some S3Uploader; compress := false |}.

Definition item_without_api_key : dict :=
  {[ "nickname" := PNone; "report" := PDict report_at_epoch ]}.

Definition item_with_null_api_key : dict :=
  {[ "api_key" := PNone; "nickname" := PNone;
     "report" := PDict report_at_epoch; "extra" := PInt 1 ]}.

(** The first scenario of the dispatcher: three envelopes of the api key
    A and two of B; a plain queue without skip keys and an object-store
    queue that skips A. *)
Definition ingress_item (api_key : string) (n : Z) : dict :=
  {[ "api_key" := PStr api_key; "nickname" := PNone;
     "report" := PDict {[ "timestamp" := PInt n ]} ]}.

Definition scenario_data : list dict :=
  [ ingress_item "A" 1; ingress_item "B" 2; ingress_item "A" 3;
    ingress_item "A" 4; ingress_item "B" 5 ].

Definition queue_Q1 : export_queue :=
  {| klass := DummyExportQueue; name := "queue_export_Q1"; url := "";
     batch := 0; skip_keys := []; uploader_type := Some DummyUploader;
     compress := false |}.

Definition queue_Q2 : export_queue :=
  {| klass := S3ExportQueue; name := "queue_export_Q2";
     url := "s3://bucket/{api_key}/"; batch := 0; skip_keys := [KStr "A"];
     uploader_type := Some S3Uploader; compress := false |}.

(** Envelopes for the internal uploader: a position, and one wifi entry
    per pair of mac and signal. *)
Definition wifi_report (lat lon : Z) (wifis : list (string * Z)) : dict :=
  {[ "position" := PDict {[ "latitude" := PInt lat; "longitude" := PInt lon ]};
     "wifiAccessPoints" := PList ((λ w, wifi_entry w.1 w.2) <$> wifis) ]}.

Definition internal_envelope (nickname : value) (report : dict) : value :=
  PDict {[ "api_key" := PStr "test"; "nickname" := nickname;
           "report" := PDict report ]}.


(** One report that lists the same wifi network twice. *)
Definition batch_one_report : value :=
  PList [ internal_envelope PNone
            (wifi_report 1 2 [("aa:bb", -60); ("aa:bb", -50)]) ].


(** Four reports of alice at four positions. *)
Definition batch_alice : value :=
  PList [ internal_envelope (PStr "alice") (wifi_report 1 2 [("aa:bb", -60)]);
          internal_envelope (PStr "alice") (wifi_report 3 4 [("cc:dd", -50)]);
          internal_envelope (PStr "alice") (wifi_report 5 6 [("aa:bb", -40)]);
          internal_envelope (PStr "alice") (wifi_report 7 8 [("ee:ff", -50)]) ].

(** A report in the internal form, as the transform leaves it. *)
Definition internal_wifi_report (lat lon : Z) (wifis : list (string * Z))
    : dict :=
  {[ "lat" := PInt lat; "lon" := PInt lon;
     "wifi" := PList ((λ w : string * Z,
                         PDict {[ "mac" := PStr w.1; "signal" := PInt w.2 ]})
                      <$> wifis) ]}.

(** The example observation of a wifi network seen at the position 1, 2. *)
Definition wifi_observation (mac : string) (signal : Z) : example_observation :=
  {| ob_key := KStr mac; ob_signal := signal;
     ob_position := (KNum 1 1, KNum 2 1) |}.

(** The example observation as the shard queue holds it. *)
Definition queued_wifi (mac : string) (signal : Z) : value :=
  PDict {[ "key" := PStr mac; "signal" := PInt signal ]}.

(** ** More notions for the properties *)

(** The value a field map writes under the target of one of its entries:
    the source field, unless it is absent or null. *)
Definition mapped_field (item_source : dict) (s : InternalTransform.spec)
    : option value :=
  if is_not_None (dict_get item_source (InternalTransform.spec_source s))
  then Some (dict_get item_source (InternalTransform.spec_source s))
  else None.

(** An entry of a list as the transform writes it, if it survives. *)
Definition mapped_entry (field_map : list InternalTransform.spec)
    (entry : value) : option dict :=
  value ← InternalTransform._map_dict entry field_map;
  if dict_truthy value then Some value else None.

(** The envelopes of the items of an api key, in the order of arrival. *)
Definition envelopes_of (k : key) (data : list dict) : list dict :=
  omap (λ item, if decide (api_key_of item = Some k)
                then IncomingQueue.envelope item else None) data.

(** The list the transform writes for a section of the report: the
    entries that survive, as they are mapped, in the order of the input. *)
Definition mapped_list (field_map : list InternalTransform.spec)
    (item : dict) (source : string) : option value :=
  match omap (mapped_entry field_map) (entries item source) with
  | [] => None
  | values => Some (PList (PDict <$> values))
  end.

(** The keys the transform can write. *)
Definition output_keys : list string :=
  (InternalTransform.spec_target <$> InternalTransform.position_map)
  ++ ["timestamp"; "blue"; "cell"; "wifi"].

(** [DummyUploader.send]: [pass]. *)
Definition DummyUploader_send : BaseReportUploader.sink := λ _ _ _, None.

(** The sleeps of the first [k] attempts. *)
Definition sleeps (k : nat) : list event :=
  (λ i, Sleep (BaseReportUploader.retry_sleep i)) <$> seq 0 k.

(** A sink that fails with [IOError] once and then answers. *)
Definition fails_once : BaseReportUploader.sink :=
  λ i _ _, match i with O => Some IOError | _ => None end.

(** A sink that fails with [IOError] once and then with a [KeyError]. *)
Definition fails_then_breaks : BaseReportUploader.sink :=
  λ i _ _, match i with O => Some IOError | _ => Some KeyError end.

(** A report that lists one wifi network twice, and one without any
    entry. *)
Definition two_internal_reports : list dict :=
  [ internal_wifi_report 1 2 [("aa:bb", -60); ("aa:bb", -50)];
    internal_wifi_report 3 4 [] ].

(** ** S3Uploader *)

Module S3Uploader.

(** [s.split(':')[-1]]: the text after the last colon, [piece] being the
    text since the last colon seen. *)
Fixpoint split_last_from (s piece : string) : string :=
  match s with
  | EmptyString => piece
  | String c s' =>
      if String.eqb (String c "") ":" then split_last_from s' ""
      else split_last_from s' (piece +:+ String c "")
  end.

(** [api_key = self.queue_key.split(':')[-1]] in [send]. *)
Definition api_key (queue_key : string) : string :=
  split_last_from queue_key "".

(** [path.lstrip('/')]. *)
Fixpoint lstrip_slash (path : string) : string :=
  match path with
  | EmptyString => EmptyString
  | String c path' =>
      if String.eqb (String c "") "/" then lstrip_slash path' else path
  end.

(** [path.endswith('/')]. *)
Fixpoint endswith_slash (path : string) : bool :=
  match path with
  | EmptyString => false
  | String c EmptyString => String.eqb (String c "") "/"
  | String _ path' => endswith_slash path'
  end.

(** The path [send] formats the key name from: the path of the URL
    without its leading slashes and with a slash at its end. *)
Definition path_template (path : string) : string :=
  let path := lstrip_slash path in
  if endswith_slash path then path else path +:+ "/".

End S3Uploader.

(** The text holds no colon. *)
Definition no_colon (s : string) : Prop :=
  Forall (λ c, String.eqb (String c "") ":" = false) (String.list_ascii_of_string s).

(** The text holds no character that is white space. *)
Definition no_whitespace `{Library} (s : string) : Prop :=
  Forall (λ character, WHITESPACE character = false) (characters s).

(** The text does not start inside a character, as no text of Python
    does. *)
Definition whole (s : string) : Prop := continues s = false.

(** The text an api key stands for in a partition key. *)
Definition partition_suffix (api_key : key) : string :=
  match api_key with
  | KStr s => if String.eqb s "" then "no_key" else s
  | _ => "no_key"
  end.

(** ** InternalUploader: the datamap and the stats *)

(** What [process_datamap] takes from the models: [DataMap.scale], which
    raises on what it cannot scale, [DataMap.shard_id], and
    [encode_datamap_grid], whose bytes are held as text. *)
Class DataMaps : Type := {
  DataMap_scale : key → key → option (Z * Z);
  DataMap_shard_id : Z → Z → string;
  encode_datamap_grid : Z → Z → string
}.

(** What [emit_stats] takes from the models: [ApiKey.get], which returns
    [None] for a key that is not known, and the key's [should_log] and
    [valid_key]. *)
Class ApiKeys `{Models} : Type := {
  ApiKey : Type;
  ApiKey_get : Session → key → option ApiKey;
  should_log : ApiKey → string → bool;
  valid_key : ApiKey → string
}.

(** A call [stats_client.incr(stat, count, tags=tags)]. *)
Record stat : Type := Stat {
  stat_name : string;
  stat_count : nat;
  stat_tags : list string
}.

Section with_datamaps.
Context `{DataMaps}.

(** The first loop of [process_datamap]: [grids] as it is filled. *)
Fixpoint scale_positions (positions : list (key * key)) (grids : gset (Z * Z))
    : option (gset (Z * Z)) :=
  match positions with
  | [] => Some grids
  | (lat, lon) :: positions' =>
      if decide (lat ≠ KNone ∧ lon ≠ KNone)
      then grid ← DataMap_scale lat lon;
           scale_positions positions' (grids ∪ {[ grid ]})
      else scale_positions positions' grids
  end.

(** The second loop of [process_datamap]: [shards] as it is filled. *)
Definition shard_grids (grids : list (Z * Z)) : gmap string (gset string) :=
  foldl (λ (shards : gmap string (gset string)) '(lat, lon),
           <[DataMap_shard_id lat lon :=
               default ∅ (shards !! DataMap_shard_id lat lon)
               ∪ {[ encode_datamap_grid lat lon ]}]> shards)
        ∅ grids.

(** [process_datamap]: the queue names and the lists enqueued to them.
    The sets are walked in the order of [elements]; the queues named are
    taken to exist. *)
Definition process_datamap (positions : list (key * key))
    : option (list (string * list string)) :=
  grids ← scale_positions positions ∅;
  Some ((λ '(shard_id, values),
           ("update_datamap_" +:+ shard_id, elements (values : gset string)))
          <$> map_to_list (shard_grids (elements grids))).

End with_datamaps.

Section with_api_keys.
Context `{Library} `{ApiKeys}.

(** [api_tag] as [emit_stats] sets it. *)
Definition api_tag (session : Session) (api_key : key) : list string :=
  let api_key :=
    if decide (api_key = KNone) then None else ApiKey_get session api_key in
  match api_key with
  | Some api_key =>
      if should_log api_key "submit"
      then ["key:" +:+ valid_key api_key] else []
  | None => []
  end.

(** [emit_stats]: the calls of [stats_client.incr], in the order they are
    made when the dicts are walked in the order they were written. *)
Definition emit_stats (session : Session) (reports malformed_reports : nat)
    (obs_count : datatype → nat * nat) (api_key : key) : list stat :=
  let api_tag := api_tag session api_key in
  (if (0 <? reports)%nat
   then [Stat "data.report.upload" reports api_tag] else []) ++
  (if (0 <? malformed_reports)%nat
   then [Stat "data.report.drop" malformed_reports
           ("reason:malformed" :: api_tag)]
   else []) ++
  ([blue; cell; wifi] ≫= λ name,
     [("upload", (obs_count name).1); ("drop", (obs_count name).2)]
       ≫= λ '(action, count),
         if (0 <? count)%nat
         then let tags := ["type:" +:+ datatype_name name] in
              let tags := if String.eqb action "drop"
                          then tags ++ ["reason:malformed"] else tags in
              [Stat ("data.observation." +:+ action) count (tags ++ api_tag)]
         else []).






End with_api_keys.

(** The counts of the calls made for a stat, added up. *)
Definition emitted (name : string) (stats : list stat) : nat :=
  sum_list_with stat_count (filter (λ s, stat_name s = name) stats).

(** Both coordinates of the position are not null. *)
Definition located (position : key * key) : Prop :=
  position.1 ≠ KNone ∧ position.2 ≠ KNone.

#[global] Instance located_dec position : Decision (located position).
Proof. unfold located. apply _. Defined.


(** Modelled from the spec: [DataMap] and [encode_datamap_grid] of
    [ichnaea.models], which the module imports and which are not among
    the sources.  A position is scaled to thousandths of a degree, the
    shard of a grid is its quadrant, and a grid is encoded as the text of
    its two numbers; a position that is not numeric cannot be scaled. *)
Definition example_datamaps : DataMaps :=
  {| DataMap_scale := λ lat lon,
       match lat, lon with
       | KNum n d, KNum n' d' =>
           Some (n * 1000 / Z.pos d, n' * 1000 / Z.pos d')
       | _, _ => None
       end;
     DataMap_shard_id := λ lat lon,
       (if lat <? 0 then "s" else "n") +:+ (if lon <? 0 then "w" else "e");
     encode_datamap_grid := λ lat lon,
       pretty.pretty lat +:+ "," +:+ pretty.pretty lon |}.


(** A position listed twice, and one without a latitude. *)
Definition example_positions : list (key * key) :=
  [ (KNum 1 1, KNum 2 1); (KNone, KNum 2 1); (KNum 1 1, KNum 2 1) ].

(** * Properties *)

(** ** The transform *)

Section transform_facts.
Import InternalTransform.

Lemma dict_truthy_non_empty (d : dict) : dict_truthy d = true ↔ d ≠ ∅.
Proof.
  unfold dict_truthy. rewrite negb_true_iff, bool_decide_eq_false.
  by rewrite map_size_empty_iff.
Qed.

Lemma dict_truthy_empty (d : dict) : dict_truthy d = false ↔ d = ∅.
Proof.
  unfold dict_truthy. rewrite negb_false_iff, bool_decide_eq_true.
  apply map_size_empty_iff.
Qed.

Lemma is_not_None_spec (v : value) : is_not_None v = true ↔ v ≠ PNone.
Proof. by destruct v. Qed.

Lemma no_null_empty : no_null ∅.
Proof. intros k v. by rewrite lookup_empty. Qed.

Lemma no_null_insert (d : dict) k v :
  v ≠ PNone → no_null d → no_null (<[k := v]> d).
Proof.
  intros Hv Hd k' v'. rewrite lookup_insert.
  case_decide; [by intros [= <-] | apply Hd].
Qed.

(** [_map_dict] needs a dict as soon as there is a field to map. *)
Lemma map_dict_from_source src fm acc r :
  _map_dict_from src fm acc = Some r → fm ≠ [] → is_dict src = true.
Proof.
  destruct fm as [|s fm]; [done|]. intros Hr _.
  by destruct src.
Qed.

Lemma map_dict_from_total (d : dict) fm acc :
  is_Some (_map_dict_from (PDict d) fm acc).
Proof.
  revert acc. induction fm as [|s fm IH]; intros acc; simpl; [by eexists|].
  apply IH.
Qed.

Lemma map_dict_from_no_null src fm acc r :
  _map_dict_from src fm acc = Some r → no_null acc → no_null r.
Proof.
  revert acc. induction fm as [|s fm IH]; intros acc; simpl.
  - by intros [= <-].
  - destruct (value_get src (spec_source s)) as [v|] eqn:Hv; [simpl|done].
    intros Hr Hacc. apply (IH _ Hr).
    destruct (is_not_None v) eqn:Hn; [|done].
    apply no_null_insert; [by apply is_not_None_spec | done].
Qed.

Lemma map_dict_from_empty src fm acc r :
  _map_dict_from src fm acc = Some r →
  r = ∅ ↔ acc = ∅ ∧ survives fm src = false.
Proof.
  revert acc. induction fm as [|s fm IH]; intros acc; simpl.
  - intros [= <-]. destruct src; naive_solver.
  - destruct src as [| | | | | |d|]; try done. simpl.
    intros Hr. rewrite (IH _ Hr). simpl.
    destruct (is_not_None (dict_get d (spec_source s))); simpl.
    + split; [intros [Hi _]; by apply insert_non_empty in Hi | by intros [_ ?]].
    + done.
Qed.

Lemma map_dict_empty src fm r :
  _map_dict src fm = Some r → r = ∅ ↔ survives fm src = false.
Proof.
  intros Hr. rewrite (map_dict_from_empty _ _ _ _ Hr). naive_solver.
Qed.

(** What [_parse_list_from] adds to the values it is given. *)
Lemma parse_list_from_spec items fm acc values :
  _parse_list_from items fm acc = Some values →
  (values = [] ↔ acc = [] ∧ existsb (survives fm) items = false) ∧
  (Forall (λ d, d ≠ ∅ ∧ no_null d) acc →
   Forall (λ d, d ≠ ∅ ∧ no_null d) values).
Proof.
  revert acc. induction items as [|item items IH]; intros acc; simpl.
  - intros [= <-]. naive_solver.
  - destruct (_map_dict item fm) as [d|] eqn:Hd; [simpl|done].
    intros Hv. destruct (IH _ Hv) as [IH1 IH2].
    pose proof (map_dict_empty _ _ _ Hd) as He.
    pose proof (map_dict_from_no_null _ _ _ _ Hd no_null_empty) as Hn.
    destruct (dict_truthy d) eqn:Ht.
    + apply dict_truthy_non_empty in Ht.
      assert (survives fm item = true) as ->
        by (destruct (survives fm item); naive_solver).
      split.
      * rewrite IH1. split; [intros [Ha _]; by destruct acc | by intros [_ ?]].
      * intros Hacc. apply IH2, Forall_app. split; [done|].
        by apply Forall_singleton.
    + apply dict_truthy_empty in Ht.
      assert (survives fm item = false) as -> by naive_solver.
      done.
Qed.

Lemma parse_list_from_total items fm acc :
  forallb is_dict items = true → is_Some (_parse_list_from items fm acc).
Proof.
  revert acc. induction items as [|item items IH]; intros acc; simpl.
  - by eexists.
  - rewrite andb_true_iff. intros [Hi Hitems].
    destruct item as [| | | | | |d|]; try done.
    destruct (map_dict_from_total d fm ∅) as [r Hr].
    unfold _map_dict. rewrite Hr. simpl. by apply IH.
Qed.

(** The elements a loop visits hold the same survivors as the entries of
    the list: the keys of a dict and the characters of text are no
    dicts. *)
Lemma py_iter_survivors fm v l :
  py_iter v = Some l →
  existsb (survives fm) l =
  existsb (survives fm) (match v with PList l => l | _ => [] end).
Proof.
  destruct v as [| | | |s|l'|d|]; simpl; try done.
  - intros [= <-]. by induction (String.list_ascii_of_string s).
  - by intros [= <-].
  - intros [= <-]. by induction ((map_to_list d).*1).
Qed.

Lemma parse_list_spec item report km fm report' values :
  _parse_list item report km fm = Some (report', values) →
  (values = [] ↔ existsb (survives fm) (entries item km.1) = false) ∧
  Forall (λ d, d ≠ ∅ ∧ no_null d) values ∧
  report' = match values with
            | [] => report
            | _ => <[km.2 := PList (PDict <$> values)]> report
            end.
Proof.
  unfold _parse_list, entries. intros Hp.
  destruct (item !! km.1) as [v|] eqn:Hv; simpl in Hp.
  - destruct (py_iter v) as [l|] eqn:Hl; [simpl in Hp|done].
    destruct (_parse_list_from l fm []) as [vs|] eqn:Hvs; [simpl in Hp|done].
    injection Hp as <- <-.
    destruct (parse_list_from_spec _ _ _ _ Hvs) as [H1 H2].
    split_and!; [|by apply H2|done].
    rewrite H1, (py_iter_survivors _ _ _ Hl).
    destruct v; naive_solver.
  - injection Hp as <- <-. done.
Qed.

Lemma parse_list_total item report km fm :
  array_of_objects item km.1 → is_Some (_parse_list item report km fm).
Proof.
  unfold _parse_list. intros [-> | (l & -> & Hl)]; simpl; [by eexists|].
  destruct (parse_list_from_total l fm [] Hl) as [vs ->]. by eexists.
Qed.

Lemma parse_dict_spec item report km fm report' :
  _parse_dict item report km fm = Some report' →
  km.2 = None → no_null report → no_null report'.
Proof.
  unfold _parse_dict. intros Hp Hkm Hreport.
  destruct (truthy (dict_get item km.1)).
  - destruct (_map_dict (dict_get item km.1) fm) as [v|] eqn:Hv; [|done].
    simpl in Hp. injection Hp as <-.
    pose proof (map_dict_from_no_null _ _ _ _ Hv no_null_empty) as Hn.
    destruct (dict_truthy v); [|done]. rewrite Hkm.
    intros k x [Hx | [_ Hx]]%lookup_union_Some_raw; [by eapply Hn | by eapply Hreport].
  - simpl in Hp. injection Hp as <-.
    by assert (dict_truthy (∅ : dict) = false) as -> by by apply dict_truthy_empty.
Qed.

Lemma map_dict_from_lookup src fm acc r k :
  _map_dict_from src fm acc = Some r → is_Some (r !! k) →
  is_Some (acc !! k) ∨ k ∈ spec_target <$> fm.
Proof.
  revert acc. induction fm as [|s fm IH]; intros acc; simpl.
  - intros [= <-]. by left.
  - destruct (value_get src (spec_source s)) as [v|]; [simpl|done].
    intros Hr Hk. destruct (IH _ Hr Hk) as [Hacc | Hin].
    + destruct (is_not_None v); [|by left].
      rewrite lookup_insert in Hacc. case_decide; [subst|by left].
      right. apply list_elem_of_here.
    + right. by apply list_elem_of_further.
Qed.

(** The steps of [__call__], named. *)
Lemma call_inv item out :
  __call__ item = Some out →
  ∃ r1 r3 r4 r5 blues cells wifis,
    _parse_dict item ∅ position_id position_map = Some r1 ∧
    _parse_list item
      (if truthy (dict_get item "timestamp")
       then <["timestamp" := dict_get item "timestamp"]> r1 else r1)
      blue_id blue_map = Some (r3, blues) ∧
    _parse_list item r3 cell_id cell_map = Some (r4, cells) ∧
    _parse_list item r4 wifi_id wifi_map = Some (r5, wifis) ∧
    out = match blues, cells, wifis with
          | [], [], [] => ∅
          | _, _, _ => r5
          end.
Proof.
  unfold __call__. intros Hc.
  destruct (_parse_dict item ∅ position_id position_map) as [r1|]; [|done].
  simpl in Hc.
  destruct (_parse_list item _ blue_id blue_map)
    as [[r3 blues]|] eqn:Hb; [|done].
  simpl in Hc.
  destruct (_parse_list item r3 cell_id cell_map)
    as [[r4 cells]|] eqn:Hcl; [|done].
  simpl in Hc.
  destruct (_parse_list item r4 wifi_id wifi_map)
    as [[r5 wifis]|] eqn:Hw; [|done].
  simpl in Hc. exists r1, r3, r4, r5, blues, cells, wifis.
  split_and!; try done.
  destruct blues, cells, wifis; simpl in Hc; congruence.
Qed.

(** The report before the lists are parsed holds none of their keys. *)
Lemma position_keys item r1 k :
  _parse_dict item ∅ position_id position_map = Some r1 →
  k ∈ ["blue"; "cell"; "wifi"; "timestamp"] → r1 !! k = None.
Proof.
  unfold _parse_dict. intros Hp Hk.
  destruct (truthy (dict_get item position_id.1)).
  - destruct (_map_dict (dict_get item position_id.1) position_map)
      as [v|] eqn:Hv; [|done].
    simpl in Hp. injection Hp as <-.
    assert (v !! k = None) as Hvk.
    { apply eq_None_not_Some. intros Hs.
      destruct (map_dict_from_lookup _ _ _ _ _ Hv Hs) as [He | Hin].
      - rewrite lookup_empty in He. by destruct He.
      - revert Hk Hin. rewrite !list_elem_of_In. simpl. clear.
        intros Hk Hin.
        repeat (destruct Hk as [<- | Hk]; [by intuition discriminate|]).
        done. }
    destruct (dict_truthy v); [|apply lookup_empty].
    simpl. apply lookup_union_None. split; [done | apply lookup_empty].
  - simpl in Hp. injection Hp as <-.
    assert (dict_truthy (∅ : dict) = false) as -> by by apply dict_truthy_empty.
    apply lookup_empty.
Qed.

Lemma survivors_of_values fm (l : list value) (values : list dict) :
  (values = [] ↔ existsb (survives fm) l = false) →
  existsb (survives fm) l = match values with [] => false | _ => true end.
Proof.
  intros Hiff. destruct values.
  - by apply Hiff.
  - destruct (existsb (survives fm) l); [done|]. by destruct Hiff as [_ ?%eq_sym].
Qed.

(** What [__call__] returns, when it returns. *)
Lemma call_spec item out :
  __call__ item = Some out →
  (out = ∅ ↔ has_survivor item = false) ∧
  no_null_report out ∧
  out !! "timestamp" =
    if truthy (dict_get item "timestamp") && has_survivor item
    then Some (dict_get item "timestamp") else None.
Proof.
  intros (r1 & r3 & r4 & r5 & blues & cells & wifis
          & H1 & Hb & Hc & Hw & ->)%call_inv.
  destruct (parse_list_spec _ _ _ _ _ _ Hb) as (Ib%survivors_of_values & Fb & ->).
  destruct (parse_list_spec _ _ _ _ _ _ Hc) as (Ic%survivors_of_values & Fc & ->).
  destruct (parse_list_spec _ _ _ _ _ _ Hw) as (Iw%survivors_of_values & Fw & ->).
  unfold has_survivor. simpl in Ib, Ic, Iw. rewrite Ib, Ic, Iw.
  pose proof (parse_dict_spec _ _ _ _ _ H1 eq_refl no_null_empty) as N1.
  pose proof (position_keys _ _ "blue" H1 ltac:(set_solver)) as Kb.
  pose proof (position_keys _ _ "cell" H1 ltac:(set_solver)) as Kc.
  pose proof (position_keys _ _ "wifi" H1 ltac:(set_solver)) as Kw.
  pose proof (position_keys _ _ "timestamp" H1 ltac:(set_solver)) as Kt.
  set (ts := dict_get item "timestamp") in *.
  assert (no_null (if truthy ts then <["timestamp" := ts]> r1 else r1)) as N2.
  { destruct (truthy ts) eqn:Hts; [|done].
    apply no_null_insert; [|done]. by destruct ts. }
  assert (∀ k, k ∈ ["blue"; "cell"; "wifi"] →
            (if truthy ts then <["timestamp" := ts]> r1 else r1) !! k = None)
    as K2.
  { intros k Hk. destruct (truthy ts).
    - rewrite lookup_insert_ne; [|set_solver].
      apply (position_keys _ _ _ H1). set_solver.
    - apply (position_keys _ _ _ H1). set_solver. }
  assert ((if truthy ts then <["timestamp" := ts]> r1 else r1) !! "timestamp"
          = if truthy ts then Some ts else None) as T2.
  { destruct (truthy ts); [apply lookup_insert_eq | done]. }
  revert N2 K2 T2.
  generalize (if truthy ts then <["timestamp" := ts]> r1 else r1).
  intros r2 N2 K2 T2.
  assert (∀ (r : dict) k (values : list dict),
            no_null r → no_null (<[k := PList (PDict <$> values)]> r)) as Nins.
  { intros. by apply no_null_insert. }
  pose proof (K2 "blue" ltac:(set_solver)) as K2b.
  pose proof (K2 "cell" ltac:(set_solver)) as K2c.
  pose proof (K2 "wifi" ltac:(set_solver)) as K2w.
  assert (∀ k v (r : dict) (values : list dict),
            Forall (λ d, d ≠ ∅ ∧ no_null d) values →
            (<[k := PList (PDict <$> values)]> r) !! k = Some v →
            ∃ es : list dict, v = PList (PDict <$> es) ∧
              Forall (λ d, d ≠ ∅ ∧ no_null d) es) as Deep.
  { intros k v r values Hv. rewrite lookup_insert_eq. intros [= <-]. eauto. }
  split_and!.
  - destruct blues, cells, wifis; simpl; split; try done;
      intros He; exfalso; revert He; apply insert_non_empty.
  - destruct blues as [|b blues], cells as [|c cells], wifis as [|w wifis];
      (split;
       [ repeat apply Nins; first [done | apply no_null_empty]
       | intros k v Hk;
         repeat (apply elem_of_cons in Hk as [-> | Hk]);
         try (by apply elem_of_nil in Hk);
         rewrite ?lookup_empty, ?lookup_insert_eq, ?lookup_insert_ne by done;
         rewrite ?lookup_insert_eq, ?K2b, ?K2c, ?K2w;
         try done; intros [= <-];
         match goal with
         | |- ∃ _, PList (PDict ?x :: list_fmap _ _ _ ?l) = _ ∧ _ =>
             by exists (x :: l)
         end ]).
  - rewrite andb_comm.
    destruct blues, cells, wifis; simpl;
      rewrite ?lookup_empty, ?lookup_insert_ne by done; by rewrite ?T2.
Qed.

(** On a report of the external schema [__call__] returns. *)
Lemma call_total item : well_formed item → is_Some (__call__ item).
Proof.
  intros (Hpos & Hb & Hc & Hw). unfold __call__.
  assert (is_Some (_parse_dict item ∅ position_id position_map)) as [r1 ->].
  { unfold _parse_dict. simpl.
    destruct (truthy (dict_get item "position")) eqn:Ht; [|by eexists].
    specialize (Hpos eq_refl).
    by destruct (dict_get item "position"). }
  simpl.
  edestruct (parse_list_total item) as [[r3 blues] ->]; [exact Hb|]. simpl.
  edestruct (parse_list_total item) as [[r4 cells] ->]; [exact Hc|]. simpl.
  edestruct (parse_list_total item) as [[r5 wifis] ->]; [exact Hw|]. simpl.
  destruct blues, cells, wifis; by eexists.
Qed.

End transform_facts.

Example transform_scenario :
  InternalTransform.__call__ scenario_report =
  Some {[ "lat" := PFloat (3 # 2); "lon" := PFloat (5 # 2);
          "accuracy" := PInt 10; "altitude_accuracy" := PInt 3;
          "wifi" := PList [PDict {[ "mac" := PStr "aa:bb";
                                    "signal" := PInt (-50) ]}];
          "timestamp" := PInt 1500000000000 ]}.
Proof. vm_compute. reflexivity. Qed.

Lemma scenario_report_well_formed : well_formed scenario_report.
Proof.
  split_and!; [done | by left | by left |].
  right. eexists. split; [by vm_compute | done].
Qed.

(** C6: on every report of the external schema the transform returns; the
    mapping it returns is empty if and only if no blue, cell or wifi entry
    of the report survives field mapping (an entry survives when one of
    its mapped fields is present and not null); and no field of the
    output, nor of an entry of its blue, cell and wifi lists, is null. *)
Theorem transform_empty_iff_no_survivor (item : dict) :
  well_formed item →
  ∃ report,
    InternalTransform.__call__ item = Some report ∧
    (report = ∅ ↔ has_survivor item = false) ∧
    no_null_report report.
Proof.
  intros [report Hr]%call_total. exists report.
  by destruct (call_spec _ _ Hr) as (? & ? & _).
Qed.

Lemma transform_empty_iff_no_survivor_witness :
  ∃ report,
    InternalTransform.__call__ scenario_report = Some report ∧
    (report = ∅ ↔ has_survivor scenario_report = false) ∧
    no_null_report report.
Proof.
  apply (transform_empty_iff_no_survivor scenario_report).
  split_and!; [done | by left | by left |].
  right. eexists. split; [by vm_compute | done].
Defined.

(** C5, as the code has it: when the transform returns, its output holds
    the input's [timestamp] value under [timestamp] exactly when that
    value is truthy (present, not null, and not zero, false or empty) and
    some blue, cell or wifi entry survives; otherwise the output has no
    [timestamp] key. *)
Theorem timestamp_passed_when_truthy (item report : dict) :
  InternalTransform.__call__ item = Some report →
  report !! "timestamp" =
    if truthy (dict_get item "timestamp") && has_survivor item
    then Some (dict_get item "timestamp") else None.
Proof. intros Hr. by destruct (call_spec _ _ Hr) as (_ & _ & ?). Qed.

Lemma timestamp_passed_when_truthy_witness :
  InternalTransform.__call__ scenario_report =
    Some {[ "lat" := PFloat (3 # 2); "lon" := PFloat (5 # 2);
            "accuracy" := PInt 10; "altitude_accuracy" := PInt 3;
            "wifi" := PList [PDict {[ "mac" := PStr "aa:bb";
                                      "signal" := PInt (-50) ]}];
            "timestamp" := PInt 1500000000000 ]} ∧
  ({[ "lat" := PFloat (3 # 2); "lon" := PFloat (5 # 2);
      "accuracy" := PInt 10; "altitude_accuracy" := PInt 3;
      "wifi" := PList [PDict {[ "mac" := PStr "aa:bb";
                                "signal" := PInt (-50) ]}];
      "timestamp" := PInt 1500000000000 ]} : dict) !! "timestamp" =
    if truthy (dict_get scenario_report "timestamp")
       && has_survivor scenario_report
    then Some (dict_get scenario_report "timestamp") else None.
Proof.
  split; [vm_compute; reflexivity|].
  apply (timestamp_passed_when_truthy scenario_report).
  vm_compute; reflexivity.
Defined.

(** C5 fails at the timestamp 0: the report holds the key [timestamp] with
    the integer 0 and a wifi entry that survives, and the output, which
    is not empty, has no [timestamp] key. *)
Lemma timestamp_zero_not_passed :
  report_at_epoch !! "timestamp" = Some (PInt 0) ∧
  InternalTransform.__call__ report_at_epoch =
    Some {[ "wifi" := PList [PDict {[ "mac" := PStr "aa:bb";
                                      "signal" := PInt (-50) ]}] ]} ∧
  ¬ ∃ report,
      InternalTransform.__call__ report_at_epoch = Some report ∧
      report !! "timestamp" = report_at_epoch !! "timestamp".
Proof.
  split_and!; [by vm_compute | by vm_compute |].
  intros (report & Hr & Ht).
  destruct (call_spec _ _ Hr) as (_ & _ & Hts). rewrite Hts in Ht.
  vm_compute in Ht. discriminate.
Qed.

(** ** The incoming dispatcher *)

Section dispatcher_facts.
Import IncomingQueue.

Lemma envelope_lookup item e :
  envelope item = Some e →
  e !! "api_key" = item !! "api_key" ∧
  e !! "nickname" = item !! "nickname" ∧
  e !! "report" = item !! "report" ∧
  dom e = ({[ "api_key"; "nickname"; "report" ]} : gset string).
Proof.
  unfold envelope. intros He.
  destruct (item !! "api_key") as [a|]; [simpl in He|done].
  destruct (item !! "nickname") as [n|]; [simpl in He|done].
  destruct (item !! "report") as [r|]; [simpl in He|done].
  injection He as <-. split_and!; by simplify_map_eq.
Qed.

Lemma envelope_api_key item e :
  envelope item = Some e → api_key_of e = api_key_of item.
Proof.
  intros (Ha & _)%envelope_lookup. unfold api_key_of. by rewrite Ha.
Qed.

(** Every envelope sits in the group of its own api key. *)
Lemma group_keys data grouped grouped' :
  group data grouped = Some grouped' →
  (∀ k items, grouped !! k = Some items →
     Forall (λ e, api_key_of e = Some k) items) →
  ∀ k items, grouped' !! k = Some items →
    Forall (λ e, api_key_of e = Some k) items.
Proof.
  revert grouped. induction data as [|item data IH]; intros grouped; simpl.
  - by intros [= <-].
  - destruct (item !! "api_key") as [a|] eqn:Ha; [simpl|done].
    destruct (hashable a) as [ka|] eqn:Hka; [simpl|done].
    destruct (envelope item) as [e|] eqn:He; [simpl|done].
    intros Hg Hinv. apply (IH _ Hg). intros k items.
    rewrite lookup_insert. case_decide as Hk.
    + subst k. intros [= <-]. apply Forall_app. split.
      * destruct (grouped !! ka) as [old|] eqn:Hold; [by eapply Hinv | done].
      * apply Forall_singleton. rewrite (envelope_api_key _ _ He).
        unfold api_key_of. by rewrite Ha.
    + apply Hinv.
Qed.

(** The envelopes of the items of [data] whose api key is [k], in the
    order of arrival. *)
Lemma group_members data grouped grouped' item e k :
  group data grouped = Some grouped' →
  item ∈ data → envelope item = Some e → api_key_of item = Some k →
  ∃ items, grouped' !! k = Some items ∧ e ∈ items.
Proof.
  assert (∀ data grouped grouped' k items,
            group data grouped = Some grouped' →
            grouped !! k = Some items →
            ∃ items', grouped' !! k = Some (items ++ items')) as Hkeep.
  { clear. induction data as [|item data IH]; intros grouped grouped' k items;
      simpl.
    - intros [= <-] Hk. exists []. by rewrite app_nil_r.
    - destruct (item !! "api_key") as [a|]; [simpl|done].
      destruct (hashable a) as [ka|]; [simpl|done].
      destruct (envelope item) as [e|]; [simpl|done].
      intros Hg Hk. destruct (decide (ka = k)) as [->|Hne].
      + destruct (IH _ _ k (items ++ [e]) Hg) as [items' Hi].
        { rewrite lookup_insert_eq. by rewrite Hk. }
        exists ([e] ++ items'). by rewrite Hi, app_assoc.
      + apply (IH _ _ _ _ Hg). by rewrite lookup_insert_ne. }
  revert grouped. induction data as [|item' data IH]; intros grouped; simpl.
  - intros _ Hin. by apply elem_of_nil in Hin.
  - intros Hg [<- | Hin]%elem_of_cons He Hk.
    + unfold api_key_of in Hk.
      destruct (item !! "api_key") as [a|]; [simpl in *|done].
      rewrite Hk, He in Hg. simpl in Hg.
      destruct (Hkeep _ _ _ k _ Hg (lookup_insert_eq _ _ _)) as [items' Hi].
      eexists. split; [exact Hi|]. set_solver.
    + destruct (item' !! "api_key") as [a|]; [simpl in Hg|done].
      destruct (hashable a) as [ka|]; [simpl in Hg|done].
      destruct (envelope item') as [e'|]; [simpl in Hg|done].
      by apply (IH _ Hg).
Qed.

Lemma distribute_calls k items export_queues :
  (∀ c, c ∈ (distribute k items export_queues).1 →
     call_items c = items ∧ call_queue c ∈ export_queues ∧
     export_allowed (call_queue c) k = true ∧
     queue_key (call_queue c) k = Some (call_key c)) ∧
  ((distribute k items export_queues).2 = true →
   ∀ queue, queue ∈ export_queues → export_allowed queue k = true →
     ∃ qk, queue_key queue k = Some qk ∧
           Enqueue queue qk items ∈ (distribute k items export_queues).1).
Proof.
  induction export_queues as [|queue queues [IH1 IH2]]; simpl.
  - split; [intros ? Hin | intros _ ? Hin]; by apply elem_of_nil in Hin.
  - destruct (export_allowed queue k) eqn:Hallowed.
    + destruct (queue_key queue k) as [qk|] eqn:Hqk; simpl.
      * destruct (distribute k items queues) as [calls ended]. simpl in *.
        split.
        -- intros c [-> | Hc]%elem_of_cons; simpl.
           ++ split_and!; try done. set_solver.
           ++ destruct (IH1 _ Hc) as (? & ? & ? & ?). split_and!; try done.
              set_solver.
        -- intros Hended q [-> | Hq]%elem_of_cons Hq'.
           ++ exists qk. split; [done | set_solver].
           ++ destruct (IH2 Hended _ Hq Hq') as (qk' & ? & ?). exists qk'.
              split; [done | set_solver].
      * split; [|done]. intros c Hc. by apply elem_of_nil in Hc.
    + split.
      * intros c Hc. destruct (IH1 _ Hc) as (? & ? & ? & ?).
        split_and!; try done. set_solver.
      * intros Hended q [-> | Hq]%elem_of_cons Hq'; [congruence|].
        by apply IH2.
Qed.

Lemma distribute_all_calls groups export_queues :
  (∀ c, c ∈ (distribute_all groups export_queues).1 →
     ∃ k, (k, call_items c) ∈ groups ∧ call_queue c ∈ export_queues ∧
          export_allowed (call_queue c) k = true ∧
          queue_key (call_queue c) k = Some (call_key c)) ∧
  ((distribute_all groups export_queues).2 = true →
   ∀ k items queue, (k, items) ∈ groups → queue ∈ export_queues →
     export_allowed queue k = true →
     ∃ qk, queue_key queue k = Some qk ∧
           Enqueue queue qk items ∈ (distribute_all groups export_queues).1).
Proof.
  induction groups as [|[k items] groups [IH1 IH2]]; simpl.
  - split; [intros ? Hin | intros _ ? ? ? Hin]; by apply elem_of_nil in Hin.
  - destruct (distribute_calls k items export_queues) as [D1 D2].
    destruct (distribute k items export_queues) as [calls1 ended1].
    simpl in *. destruct ended1.
    + destruct (distribute_all groups export_queues) as [calls2 ended2].
      simpl in *. split.
      * intros c [Hc | Hc]%elem_of_app.
        -- destruct (D1 _ Hc) as (<- & ? & ? & ?). exists k.
           split_and!; try done. set_solver.
        -- destruct (IH1 _ Hc) as (k' & ? & ? & ? & ?). exists k'.
           split_and!; try done. set_solver.
      * intros Hended k' items' q [[= -> ->] | Hg]%elem_of_cons Hq Hq'.
        -- destruct (D2 eq_refl _ Hq Hq') as (qk & ? & ?). exists qk.
           split; [done | set_solver].
        -- destruct (IH2 Hended _ _ _ Hg Hq Hq') as (qk & ? & ?). exists qk.
           split; [done | set_solver].
    + split; [|done].
      intros c Hc. destruct (D1 _ Hc) as (<- & ? & ? & ?). exists k.
      split_and!; try done. set_solver.
Qed.

(** Every entry the dispatcher enqueues carries an api key the queue does
    not skip. *)
Lemma enqueued_allowed data export_queues c e :
  c ∈ (__call__ data export_queues).1 → e ∈ call_items c →
  ∃ k, api_key_of e = Some k ∧ k ∉ skip_keys (call_queue c).
Proof.
  unfold __call__. intros Hc He.
  destruct (group data ∅) as [grouped|] eqn:Hg;
    [|by apply elem_of_nil in Hc].
  destruct (distribute_all_calls (map_to_list grouped) export_queues)
    as [D1 _].
  destruct (D1 _ Hc) as (k & Hk%elem_of_map_to_list & _ & Hallowed & _).
  exists k. split.
  - eapply (group_keys _ _ _ Hg) in Hk.
    + rewrite Forall_forall in Hk. by apply Hk.
    + intros ? ?. by rewrite lookup_empty.
  - unfold export_allowed in Hallowed. by apply bool_decide_eq_true in Hallowed.
Qed.

Lemma hashable_None v : hashable v = Some KNone → v = PNone.
Proof. by destruct v. Qed.

(** When the grouping loop ends, every item had its three keys and a
    hashable api key. *)
Lemma group_items data grouped grouped' item :
  group data grouped = Some grouped' → item ∈ data →
  is_Some (envelope item) ∧ is_Some (api_key_of item).
Proof.
  revert grouped. induction data as [|item' data IH]; intros grouped; simpl.
  - intros _ Hin. by apply elem_of_nil in Hin.
  - unfold api_key_of.
    destruct (item' !! "api_key") as [a|] eqn:Ha; [simpl|done].
    destruct (hashable a) as [ka|] eqn:Hka; [simpl|done].
    destruct (envelope item') as [e'|] eqn:He; [simpl|done].
    intros Hg [-> | Hin]%elem_of_cons.
    + rewrite He, Ha. simpl. by rewrite Hka.
    + by apply (IH _ Hg).
Qed.

End dispatcher_facts.

(** ** The uploader *)

Section uploader_facts.
Import BaseReportUploader.

(** While the attempts fail with a retriable exception, each one is
    followed by its sleep. *)
Lemma attempts_sleep uploader send url data stats_tags n start i :
  (i < n)%nat →
  (∀ j, (j ≤ i)%nat →
     ∃ e, send (start + j)%nat url data = Some e ∧ retriable uploader e = true) →
  (attempts uploader send url data stats_tags (seq start n)).1 !! i =
    Some (Sleep (retry_sleep (start + i))).
Proof.
  revert start i. induction n as [|n IH]; intros start i Hi Hfail; [lia|].
  simpl. destruct (Hfail 0%nat ltac:(lia)) as (e & He & Hr).
  rewrite Nat.add_0_r in He. rewrite He, Hr.
  destruct (attempts uploader send url data stats_tags (seq (S start) n))
    as [events final] eqn:Ha.
  destruct i as [|i]; simpl.
  - by rewrite Nat.add_0_r.
  - specialize (IH (S start) i ltac:(lia)). rewrite Ha in IH. simpl in IH.
    rewrite IH.
    + by rewrite Nat.add_succ_r.
    + intros j Hj. destruct (Hfail (S j) ltac:(lia)) as (e' & He' & Hr').
      exists e'. by rewrite Nat.add_succ_r in He'.
Qed.

(** When every attempt fails with a retriable exception the loop ends
    with [success] false and one sleep per attempt. *)
Lemma attempts_exhausted uploader send url data stats_tags n start :
  (∀ j, (j < n)%nat →
     ∃ e, send (start + j)%nat url data = Some e ∧ retriable uploader e = true) →
  attempts uploader send url data stats_tags (seq start n) =
    ((λ i, Sleep (retry_sleep i)) <$> seq start n, inl false).
Proof.
  revert start. induction n as [|n IH]; intros start Hfail; [done|].
  simpl. destruct (Hfail 0%nat ltac:(lia)) as (e & He & Hr).
  rewrite Nat.add_0_r in He. rewrite He, Hr, IH; [done|].
  intros j Hj. destruct (Hfail (S j) ltac:(lia)) as (e' & He' & Hr').
  exists e'. by rewrite Nat.add_succ_r in He'.
Qed.

Lemma attempts_length uploader send url data stats_tags range :
  (length (attempts uploader send url data stats_tags range).1
   ≤ length range)%nat.
Proof.
  induction range as [|i range IH]; simpl; [done|].
  destruct (send i url data) as [e|]; simpl; [|lia].
  destruct (retriable uploader e); simpl; [|lia].
  destruct (attempts uploader send url data stats_tags range). simpl in *. lia.
Qed.

End uploader_facts.

(** C9: in a job whose attempts 0 to [i] all fail with a retriable
    exception, the sleep after attempt [i] lasts [_retry_wait * (i^2 + 1)]
    seconds, with [_retry_wait] equal to 1: 1, 2 and 5 seconds after the
    attempts 0, 1 and 2. *)
Theorem retry_backoff uploader export_queue queue_key send items ready data i :
  items ≠ [] →
  BaseReportUploader.payload export_queue items = Some data →
  (i < BaseReportUploader._retries)%nat →
  (∀ j, (j ≤ i)%nat →
     ∃ e, send j (url export_queue) data = Some e ∧
          BaseReportUploader.retriable uploader e = true) →
  (BaseReportUploader.__call__ uploader export_queue queue_key send items
     ready).2 !! i =
    Some (Sleep (BaseReportUploader._retry_wait
                 * inject_Z (Z.of_nat i ^ 2 + 1))) ∧
  BaseReportUploader._retry_wait = 1%Q ∧
  BaseReportUploader.retry_sleep 0 = 1%Q ∧
  BaseReportUploader.retry_sleep 1 = 2%Q ∧
  BaseReportUploader.retry_sleep 2 = 5%Q.
Proof.
  intros Hitems Hdata Hi Hfail. split; [|done].
  unfold BaseReportUploader.__call__. destruct items as [|item items]; [done|].
  rewrite Hdata.
  pose proof (attempts_sleep uploader send (url export_queue) data
                ["key:" +:+ metric_tag export_queue]
                BaseReportUploader._retries 0 i Hi Hfail) as Hsleep.
  destruct (BaseReportUploader.attempts uploader send (url export_queue) data
              ["key:" +:+ metric_tag export_queue]
              (seq 0 BaseReportUploader._retries))
    as [events [success|e]]; simpl in *; [|done].
  destruct (success && ready); [|done].
  apply lookup_app_l_Some, Hsleep.
Qed.

Lemma retry_backoff_witness :
  (BaseReportUploader.__call__ GeosubmitUploader http_queue
     "queue_export_test" always_500 [one_envelope] true).2 !! 2%nat =
    Some (Sleep (BaseReportUploader._retry_wait
                 * inject_Z (Z.of_nat 2 ^ 2 + 1))) ∧
  BaseReportUploader._retry_wait = 1%Q ∧
  BaseReportUploader.retry_sleep 0 = 1%Q ∧
  BaseReportUploader.retry_sleep 1 = 2%Q ∧
  BaseReportUploader.retry_sleep 2 = 5%Q.
Proof.
  apply (retry_backoff GeosubmitUploader http_queue "queue_export_test"
           always_500 [one_envelope] true
           (PDict {[ "items" := PList [PDict report_at_epoch] ]}) 2).
  - discriminate.
  - vm_compute; reflexivity.
  - unfold BaseReportUploader._retries; lia.
  - intros j _. exists RequestException. split; reflexivity.
Defined.

(** C3, as the code has it: when the sink raises a retriable exception on
    each of the 3 attempts, the job sleeps after each of them (1, 2 and 5
    seconds) and then returns normally: nothing is raised to the
    supervisor, no batch is counted and the job is not re-armed; the
    batch, dequeued before the first attempt, is not put back. *)
Theorem retries_exhausted_returns uploader export_queue queue_key send items
    ready data :
  items ≠ [] →
  BaseReportUploader.payload export_queue items = Some data →
  (∀ j, (j < BaseReportUploader._retries)%nat →
     ∃ e, send j (url export_queue) data = Some e ∧
          BaseReportUploader.retriable uploader e = true) →
  BaseReportUploader.__call__ uploader export_queue queue_key send items ready
  = (Returned, [Sleep 1; Sleep 2; Sleep 5]).
Proof.
  intros Hitems Hdata Hfail.
  unfold BaseReportUploader.__call__. destruct items as [|item items]; [done|].
  rewrite Hdata. by rewrite (attempts_exhausted _ _ _ _ _ _ 0 Hfail).
Qed.

Lemma retries_exhausted_returns_witness :
  BaseReportUploader.__call__ GeosubmitUploader http_queue
    "queue_export_test" always_500 [one_envelope] true
  = (Returned, [Sleep 1; Sleep 2; Sleep 5]).
Proof.
  apply (retries_exhausted_returns GeosubmitUploader http_queue
           "queue_export_test" always_500 [one_envelope] true
           (PDict {[ "items" := PList [PDict report_at_epoch] ]})).
  - discriminate.
  - vm_compute; reflexivity.
  - intros j _. exists RequestException. split; reflexivity.
Defined.

(** C3 fails on the http uploader with a target that always answers 500:
    every attempt raises a retriable exception, and the job returns
    instead of raising. *)
Lemma retries_exhausted_not_raised :
  (∀ j, (j < 3)%nat →
     always_500 j (url http_queue)
       (PDict {[ "items" := PList [PDict report_at_epoch] ]})
     = Some RequestException ∧
     BaseReportUploader.retriable GeosubmitUploader RequestException = true) ∧
  (BaseReportUploader.__call__ GeosubmitUploader http_queue
     "queue_export_test" always_500 [one_envelope] true).1 = Returned ∧
  ∀ e, (BaseReportUploader.__call__ GeosubmitUploader http_queue
          "queue_export_test" always_500 [one_envelope] true).1 ≠ Raised e.
Proof. split_and!; [done | by vm_compute | by vm_compute]. Qed.

(** ** Queue configuration *)

Lemma queue_types_None scheme :
  scheme ∉ ["dummy"; "http"; "https"; "s3"; "internal"] →
  queue_types scheme = None.
Proof.
  intros Hs. unfold queue_types.
  repeat match goal with
         | |- context [String.eqb scheme ?known] =>
             destruct (String.eqb_spec scheme known) as [-> | _];
             [exfalso; apply Hs; set_solver|]
         end.
  done.
Qed.

(** C4, as the code has it: for settings whose URL has an empty scheme or
    a scheme outside dummy, http, https, s3 and internal, the queue that
    [configure_queue] builds is an instance of the class the method was
    called on, with no uploader type. *)
Theorem unknown_scheme_queue `{Library} cls key settings compress queue :
  configure_queue cls key settings compress = Some queue →
  urlparse_scheme (url queue) ∉ ["dummy"; "http"; "https"; "s3"; "internal"] →
  klass queue = cls ∧ uploader_type queue = None.
Proof.
  unfold configure_queue. intros Hq Hscheme.
  apply bind_Some in Hq as (u & _ & Hq).
  apply bind_Some in Hq as (b & _ & Hq).
  apply bind_Some in Hq as (sk & _ & Hq).
  destruct (queue_types (urlparse_scheme u)) as [[k up]|] eqn:Hqt.
  - injection Hq as <-. simpl in Hscheme.
    by rewrite (queue_types_None _ Hscheme) in Hqt.
  - by injection Hq as <-.
Qed.

Lemma unknown_scheme_queue_witness :
  klass {| klass := ExportQueue; name := "queue_export_test"; url := "";
           batch := 0; skip_keys := []; uploader_type := None;
           compress := false |} = ExportQueue ∧
  uploader_type {| klass := ExportQueue; name := "queue_export_test";
                   url := ""; batch := 0; skip_keys := [];
                   uploader_type := None; compress := false |} = None.
Proof.
  apply (@unknown_scheme_queue example_library ExportQueue
           "queue_export_test" ∅ false).
  - vm_compute; reflexivity.
  - rewrite !not_elem_of_cons.
    split_and!; [discriminate.. | apply not_elem_of_nil].
Defined.

(** C4 fails on settings without a URL: the scheme is empty, and the queue
    is a plain [ExportQueue] without uploader, where the scheme [dummy]
    gives a [DummyExportQueue] with the [DummyUploader]. *)
Lemma empty_scheme_not_dummy :
  @configure_queue example_library ExportQueue "queue_export_test" ∅ false =
    Some {| klass := ExportQueue; name := "queue_export_test"; url := "";
            batch := 0; skip_keys := []; uploader_type := None;
            compress := false |} ∧
  @configure_queue example_library ExportQueue "queue_export_test"
    {[ "url" := PStr "dummy://" ]} false =
    Some {| klass := DummyExportQueue; name := "queue_export_test";
            url := "dummy://"; batch := 0; skip_keys := [];
            uploader_type := Some DummyUploader; compress := false |} ∧
  ¬ ∃ queue dummy,
      @configure_queue example_library ExportQueue "queue_export_test" ∅ false
        = Some queue ∧
      @configure_queue example_library ExportQueue "queue_export_test"
        {[ "url" := PStr "dummy://" ]} false = Some dummy ∧
      klass queue = klass dummy ∧ uploader_type queue = uploader_type dummy.
Proof.
  split_and!; [by vm_compute | by vm_compute |].
  intros (queue & dummy & Hq & Hd & Hk & _).
  vm_compute in Hq, Hd. injection Hq as <-. injection Hd as <-.
  discriminate.
Qed.

(** ** What the dispatcher enqueues *)

(** C8: no enqueue call the dispatcher makes on a queue [Q] holds the
    envelope of an ingress item whose api key is in [Q]'s skip keys,
    whatever the partition and whether or not the run ends with an
    exception. *)
Theorem skip_keys_honoured data export_queues x e k Q :
  x ∈ data →
  IncomingQueue.envelope x = Some e →
  api_key_of x = Some k →
  k ∈ skip_keys Q →
  ∀ c, c ∈ (IncomingQueue.__call__ data export_queues).1 →
    call_queue c = Q → e ∉ call_items c.
Proof.
  intros Hx He Hk Hskip c Hc HQ Hin.
  destruct (enqueued_allowed _ _ _ _ Hc Hin) as (k' & Hk' & Hnot).
  rewrite (envelope_api_key _ _ He), Hk in Hk'. injection Hk' as <-.
  by rewrite HQ in Hnot.
Qed.

Lemma skip_keys_honoured_witness :
  ingress_item "A" 3 ∉
  call_items (Enqueue queue_Q2 "queue_export_Q2:B"
                ((λ n, ingress_item "B" n) <$> [2; 5])).
Proof.
  apply (skip_keys_honoured scenario_data [queue_Q1; queue_Q2]
           (ingress_item "A" 3) (ingress_item "A" 3) (KStr "A") queue_Q2).
  - unfold scenario_data. set_solver.
  - vm_compute; reflexivity.
  - reflexivity.
  - simpl. set_solver.
  - assert ((IncomingQueue.__call__ scenario_data [queue_Q1; queue_Q2]).1 =
            [Enqueue queue_Q1 "queue_export_Q1"
               ((λ n, ingress_item "A" n) <$> [1; 3; 4]);
             Enqueue queue_Q1 "queue_export_Q1"
               ((λ n, ingress_item "B" n) <$> [2; 5]);
             Enqueue queue_Q2 "queue_export_Q2:B"
               ((λ n, ingress_item "B" n) <$> [2; 5])]) as ->
      by (vm_compute; reflexivity).
    set_solver.
  - reflexivity.
Defined.

(** The first scenario: Q1 receives all five envelopes, Q2 the two of B,
    in the partition of B. *)
Example dispatch_scenario :
  IncomingQueue.__call__ scenario_data [queue_Q1; queue_Q2] =
  ([Enqueue queue_Q1 "queue_export_Q1"
      ((λ n, ingress_item "A" n) <$> [1; 3; 4]);
    Enqueue queue_Q1 "queue_export_Q1"
      ((λ n, ingress_item "B" n) <$> [2; 5]);
    Enqueue queue_Q2 "queue_export_Q2:B"
      ((λ n, ingress_item "B" n) <$> [2; 5])], true).
Proof. vm_compute; reflexivity. Qed.

(** C10, as the code has it: when the dispatcher returns, an ingress item
    whose [api_key] is null is rebuilt as an envelope of exactly the keys
    [api_key], [nickname] and [report] with the item's values; the
    envelope sits in a group of envelopes whose api key is null; and every
    queue whose skip keys do not hold null allows the group and is called
    with it, under its name, or under the name followed by [:no_key] for
    an object-store queue. *)
Theorem null_api_key_distributed data export_queues calls x :
  IncomingQueue.__call__ data export_queues = (calls, true) →
  x ∈ data →
  x !! "api_key" = Some PNone →
  ∃ e items,
    IncomingQueue.envelope x = Some e ∧
    dom e = ({[ "api_key"; "nickname"; "report" ]} : gset string) ∧
    e !! "api_key" = Some PNone ∧
    e !! "nickname" = x !! "nickname" ∧
    e !! "report" = x !! "report" ∧
    e ∈ items ∧
    Forall (λ e' : dict, e' !! "api_key" = Some PNone) items ∧
    ∀ queue, queue ∈ export_queues → KNone ∉ skip_keys queue →
      export_allowed queue KNone = true ∧
      Enqueue queue
        (if decide (klass queue = S3ExportQueue)
         then name queue +:+ ":no_key" else name queue) items ∈ calls.
Proof.
  unfold IncomingQueue.__call__. intros Hcall Hx Hnull.
  destruct (IncomingQueue.group data ∅) as [grouped|] eqn:Hg; [|done].
  destruct (group_items _ _ _ _ Hg Hx) as [[e He] _].
  assert (api_key_of x = Some KNone) as Hk
    by (unfold api_key_of; by rewrite Hnull).
  destruct (group_members _ _ _ _ _ _ Hg Hx He Hk) as (items & Hitems & Hin).
  destruct (envelope_lookup _ _ He) as (Ha & Hn & Hr & Hdom).
  exists e, items. split_and!; try done.
  - by rewrite Ha.
  - eapply Forall_impl.
    + eapply (group_keys _ _ _ Hg); [|exact Hitems].
      intros ? ?. by rewrite lookup_empty.
    + intros e'. unfold api_key_of.
      destruct (e' !! "api_key") as [v|]; [simpl|done].
      by intros ->%hashable_None.
  - intros queue Hq Hskip.
    assert (export_allowed queue KNone = true) as Hallowed
      by by apply bool_decide_eq_true.
    split; [done|].
    destruct (distribute_all_calls (map_to_list grouped) export_queues)
      as [_ D2].
    rewrite Hcall in D2. simpl in D2.
    destruct (D2 eq_refl KNone items queue) as (qk & Hqk & Hc); try done.
    { by apply elem_of_map_to_list. }
    unfold queue_key in Hqk. simpl in Hqk.
    case_decide as Hs3.
    + rewrite Hs3 in Hqk. by injection Hqk as <-.
    + destruct (klass queue); try done; by injection Hqk as <-.
Qed.

Lemma null_api_key_distributed_witness :
  ∃ e items,
    IncomingQueue.envelope item_with_null_api_key = Some e ∧
    dom e = ({[ "api_key"; "nickname"; "report" ]} : gset string) ∧
    e !! "api_key" = Some PNone ∧
    e !! "nickname" = item_with_null_api_key !! "nickname" ∧
    e !! "report" = item_with_null_api_key !! "report" ∧
    e ∈ items ∧
    Forall (λ e' : dict, e' !! "api_key" = Some PNone) items ∧
    ∀ queue, queue ∈ [queue_Q1; s3_queue] → KNone ∉ skip_keys queue →
      export_allowed queue KNone = true ∧
      Enqueue queue
        (if decide (klass queue = S3ExportQueue)
         then name queue +:+ ":no_key" else name queue) items
      ∈ [Enqueue queue_Q1 "queue_export_Q1" [ingress_item "A" 1];
         Enqueue s3_queue "queue_export_backup:A" [ingress_item "A" 1];
         Enqueue queue_Q1 "queue_export_Q1"
           [delete "extra" item_with_null_api_key];
         Enqueue s3_queue "queue_export_backup:no_key"
           [delete "extra" item_with_null_api_key]].
Proof.
  apply (null_api_key_distributed
           [item_with_null_api_key; ingress_item "A" 1]
           [queue_Q1; s3_queue]).
  - vm_compute; reflexivity.
  - set_solver.
  - vm_compute; reflexivity.
Defined.

(** C10 fails for an item on which the key [api_key] is missing: the
    lookup raises, and the dispatcher enqueues nothing, not even the
    other items of the batch. *)
Lemma missing_api_key_not_distributed :
  item_without_api_key !! "api_key" = None ∧
  IncomingQueue.__call__ [item_without_api_key; ingress_item "A" 1]
    [queue_Q1; s3_queue] = ([], false).
Proof. split; by vm_compute. Qed.

(** ** The internal uploader: observations of a report *)

Section report_facts.
Context `{Library} `{Models}.
Import InternalUploader.






End report_facts.

(** ** Deduplication *)

(** C7: while the list of a report is processed, when the key of a new
    candidate is the key of an observation already held, the dict is left
    as it is if [existing.better(new)] holds, and the new observation
    takes the place of the held one otherwise. *)
Theorem held_kept_iff_better `{Models} name report malformed
    (observations : gmap unique Observation) item item_dict item_report
    existing :
  as_dict item = Some item_dict →
  ItemReport_create name item_dict = Some item_report →
  observations !! unique_key (combine name report item_report)
    = Some existing →
  ∃ observations',
    InternalUploader.observe name report (malformed, observations) item
      = Some (malformed, observations') ∧
    observations' !! unique_key (combine name report item_report)
      = Some (if better existing (combine name report item_report)
              then existing else combine name report item_report) ∧
    observations' =
      if better existing (combine name report item_report)
      then observations
      else <[unique_key (combine name report item_report) :=
               combine name report item_report]> observations.
Proof.
  intros Hitem Hcreate Hheld. unfold InternalUploader.observe.
  rewrite Hitem. simpl. rewrite Hcreate, Hheld.
  destruct (better existing _); eexists; split_and!; try done.
  apply lookup_insert_eq.
Qed.

Lemma held_kept_iff_better_witness :
  ∃ observations',
    @InternalUploader.observe example_models wifi (KNum 1 1, KNum 2 1)
      (0%nat, {[ KStr "aa:bb" := wifi_observation "aa:bb" (-60) ]})
      (PDict {[ "mac" := PStr "aa:bb"; "signal" := PInt (-50) ]})
      = Some (0%nat, observations') ∧
    observations' !! KStr "aa:bb"
      = Some (if (-50 <? -60)
              then wifi_observation "aa:bb" (-60)
              else wifi_observation "aa:bb" (-50)) ∧
    observations' =
      if (-50 <? -60)
      then {[ KStr "aa:bb" := wifi_observation "aa:bb" (-60) ]}
      else <[ KStr "aa:bb" := wifi_observation "aa:bb" (-50) ]>
             {[ KStr "aa:bb" := wifi_observation "aa:bb" (-60) ]}.
Proof.
  apply (@held_kept_iff_better example_models wifi (KNum 1 1, KNum 2 1) 0%nat
           {[ KStr "aa:bb" := wifi_observation "aa:bb" (-60) ]}
           (PDict {[ "mac" := PStr "aa:bb"; "signal" := PInt (-50) ]})
           {[ "mac" := PStr "aa:bb"; "signal" := PInt (-50) ]}
           (KStr "aa:bb", -50)
           (wifi_observation "aa:bb" (-60))).
  - reflexivity.
  - vm_compute; reflexivity.
  - vm_compute; reflexivity.
Defined.


(** The third scenario: of two wifi entries of one report with the same
    mac, the one with the stronger signal alone is queued. *)
Example dedup_scenario :
  InternalUploader.sent_queued <$>
    @InternalUploader._send example_library example_models [] batch_one_report
  = Some [(wifi, "update_wifi_0", [queued_wifi "aa:bb" (-50)])].
Proof. vm_compute. reflexivity. Qed.

(** ** The internal uploader: scores *)

Section score_facts.

Lemma total_score_empty : total_score ∅ = 0%nat.
Proof. unfold total_score. by rewrite map_to_list_empty. Qed.







End score_facts.

Section send_facts.
Context `{Library} `{Models}.
Import InternalUploader.

Lemma process_user_resolves session nickname session' userid :
  process_user session nickname = Some (session', userid) →
  is_Some userid ↔ resolves nickname = true.
Proof.
  unfold process_user, resolves.
  destruct nickname as [|n d|text|t]; cbn [key_truthy].
  - intros [= <- <-]. split; [by intros [? [=]] | done].
  - destruct (negb (n =? 0)); [done|].
    intros [= <- <-]. split; [by intros [? [=]] | done].
  - destruct (negb (text =? "")%string) eqn:Hne.
    + destruct ((2 <=? len text)%nat
                && (len text <=? 128)%nat).
      * destruct (User_first session text) as [userid'|].
        -- intros [= <- <-]. by split.
        -- destruct (User_add session text). intros [= <- <-]. by split.
      * intros [= <- <-]. split; [by intros [? [=]] | done].
    + intros [= <- <-]. apply negb_false_iff, String.eqb_eq in Hne as ->.
      split; [by intros [? [=]] | done].
  - done.
Qed.

(** After the loop over the nicknames every score is zero, and a nickname
    of the list is mapped to a userid exactly when it resolves. *)
Lemma resolve_users_spec nicks session users scores session' users' scores' :
  resolve_users nicks session users scores = Some (session', users', scores') →
  (∀ k v, scores !! k = Some v → v = 0%nat) →
  (∀ n u, users !! n = Some u → is_Some u ↔ resolves n = true) →
  (∀ k v, scores' !! k = Some v → v = 0%nat) ∧
  (∀ n u, users' !! n = Some u → is_Some u ↔ resolves n = true) ∧
  (∀ n, n ∈ nicks → is_Some (users' !! n)) ∧
  (∀ n, is_Some (users !! n) → is_Some (users' !! n)).
Proof.
  revert session users scores.
  induction nicks as [|nickname nicks IH]; intros session users scores.
  - intros [= <- <- <-] Hz Hu. split_and!; try done.
    intros n Hn. by apply elem_of_nil in Hn.
  - cbn [resolve_users].
    intros ([session1 userid] & Hp & Hr)%bind_Some Hz Hu.
    destruct (IH _ _ _ Hr) as (Hz' & Hu' & Hin & Hmono).
    + intros k v. rewrite lookup_insert. case_decide; [by intros [= <-] | apply Hz].
    + intros n u. rewrite lookup_insert. case_decide as Hn; [|apply Hu].
      subst n. intros [= <-]. by eapply process_user_resolves.
    + split_and!; try done.
      * intros n [-> | Hn]%elem_of_cons; [|by apply Hin].
        apply Hmono. rewrite lookup_insert_eq. by eexists.
      * intros n Hn. apply Hmono. rewrite lookup_insert.
        case_decide; [by eexists | done].
Qed.


Lemma produces_observation_any_data report obs malformed_obs :
  process_report report = Some (obs, malformed_obs) →
  produces_observation report =
  existsb (λ name, nonempty (obs name)) [blue; cell; wifi].
Proof. unfold produces_observation. by intros ->. Qed.







End send_facts.

Section score_sum_facts.
Context `{Library} `{Models}.
Import InternalUploader.





End score_sum_facts.



(** The fifth scenario: four reports of alice, each with a transmitter and
    a position of its own; one user row is created, and one score entry
    of value 4 is enqueued. *)
Example user_credit_scenario :
  (λ result, (InternalUploader.sent_session result,
              InternalUploader.sent_score_entries result)) <$>
    @InternalUploader._send example_library example_models [] batch_alice
  = Some ([("alice", 1)], [(1, 4%nat)]).
Proof. vm_compute. reflexivity. Qed.


(** A nickname of one character is outside the window, whatever the
    number of its bytes: the batch adds no user and credits no score. *)
Example one_character_not_credited :
  len one_character = 1%nat ∧
  (λ result, (InternalUploader.sent_session result,
              InternalUploader.sent_score_entries result)) <$>
    @InternalUploader._send example_library example_models []
      (PList [ internal_envelope (PStr one_character)
                 (wifi_report 1 2 [("aa:bb", -60)]) ])
  = Some ([], []).
Proof. split; vm_compute; reflexivity. Qed.

(** ** The internal uploader: what is enqueued *)

Section queue_facts.
Context `{Library} `{Models}.
Import InternalUploader.

(** Extending the list under a key adds its values to those of the dict. *)
Lemma values_of_extend {A} (queues : gmap string (list A)) k values :
  values_of (<[k := default [] (queues !! k) ++ values]> queues)
  ≡ₚ values_of queues ++ values.
Proof.
  unfold values_of. destruct (queues !! k) as [old|] eqn:Hk; simpl.
  - rewrite <-(map_to_list_delete _ _ _ Hk), <-insert_delete_eq.
    rewrite map_to_list_insert by apply lookup_delete_eq.
    simpl. rewrite <-!(assoc_L (++)). apply Permutation_app_head.
    apply Permutation_app_comm.
  - rewrite (map_to_list_insert _ _ _ Hk). simpl.
    apply Permutation_app_comm.
Qed.

Lemma values_of_empty {A} : values_of (∅ : gmap string (list A)) = [].
Proof. unfold values_of. by rewrite map_to_list_empty. Qed.

Lemma shard_values name obs :
  values_of (shard name obs) ≡ₚ obs.
Proof.
  unfold shard.
  assert (∀ sharded_obs,
            values_of
              (foldl (λ sharded_obs ob,
                        <[shard_id name ob :=
                            default [] (sharded_obs !! shard_id name ob)
                            ++ [ob]]> sharded_obs) sharded_obs obs)
            ≡ₚ values_of sharded_obs ++ obs) as Hfold.
  { induction obs as [|ob obs IH]; intros sharded_obs; simpl.
    - by rewrite app_nil_r.
    - rewrite IH, values_of_extend. by rewrite <-(assoc_L (++)). }
  by rewrite Hfold, values_of_empty.
Qed.

Lemma join_fmap {A B} (f : A → B) (ls : list (list A)) :
  mjoin (fmap f <$> ls) = f <$> mjoin ls.
Proof.
  induction ls as [|l ls IH]; csimpl; [done|]. by rewrite IH, fmap_app.
Qed.

Lemma queue_shards_values name sharded_obs :
  values_of (queue_shards name sharded_obs)
  ≡ₚ to_json <$> values_of sharded_obs.
Proof.
  unfold queue_shards, values_of at 2.
  generalize (map_to_list sharded_obs). intros l.
  assert (∀ obs_queue : gmap string (list value),
            values_of
              (foldl (λ (obs_queue : gmap string (list value)) '(shard_id, values),
                        <[queue_prefix name +:+ shard_id :=
                            default []
                              (obs_queue !! (queue_prefix name +:+ shard_id))
                            ++ (to_json <$> values)]> obs_queue) obs_queue l)
            ≡ₚ values_of obs_queue ++ (to_json <$> mjoin l.*2)) as Hfold.
  { induction l as [|[sid values] l IH]; intros obs_queue; simpl.
    - by rewrite app_nil_r.
    - rewrite IH, values_of_extend, fmap_app. by rewrite <-(assoc_L (++)). }
  by rewrite Hfold, values_of_empty.
Qed.


(** The observations the loop over the reports gathers, and the fact that
    [process_report] returned for each report. *)
Lemma count_reports_observations reports state state' name :
  count_reports reports state = Some state' →
  observations state' name
    = observations state name ++ (reports ≫= report_observations name) ∧
  Forall (λ report, is_Some (process_report report)) reports.
Proof.
  revert state. induction reports as [|report reports IH]; intros state.
  - intros [= <-]. simpl. by rewrite app_nil_r.
  - cbn [count_reports]. intros (state1 & Hc & Hr)%bind_Some.
    destruct (IH _ Hr) as [-> Hall]. clear IH Hr.
    unfold count_report in Hc.
    apply bind_Some in Hc as ([obs malformed_obs] & Hp & Hc).
    split; [|constructor; [by eexists | done]].
    rewrite bind_cons. unfold report_observations at 2. rewrite Hp.
    rewrite (assoc_L (++)). f_equal.
    destruct (existsb _ _).
    + apply bind_Some in Hc as (position & _ & Hc). by injection Hc as <-.
    + by injection Hc as <-.
Qed.

Lemma process_reports_values reports userid result name :
  process_reports reports userid = Some result →
  values_of (obs_queue result name)
    ≡ₚ to_json <$> (reports ≫= report_observations name) ∧
  Forall (λ report, is_Some (process_report report)) reports.
Proof.
  unfold process_reports. intros (state & Hc & Hr)%bind_Some.
  injection Hr as <-. simpl.
  destruct (count_reports_observations _ _ _ name Hc) as [Hobs Hall].
  split; [|done]. simpl in Hobs. rewrite <-Hobs.
  destruct (observations state name) as [|ob obs] eqn:Hstate; simpl.
  - by rewrite values_of_empty.
  - by rewrite queue_shards_values, shard_values.
Qed.



End queue_facts.




(** * Further properties *)

(** ** The transform, field by field *)

Section transform_fields.
Import InternalTransform.

Lemma map_dict_from_fields (d : dict) fm acc r :
  _map_dict_from (PDict d) fm acc = Some r →
  (∀ k, k ∉ spec_target <$> fm → r !! k = acc !! k) ∧
  (NoDup (spec_target <$> fm) →
   ∀ s, s ∈ fm →
     r !! spec_target s =
       match mapped_field d s with
       | Some v => Some v
       | None => acc !! spec_target s
       end).
Proof.
  revert acc. induction fm as [|s0 fm IH]; intros acc; simpl.
  - intros [= <-]. split; [done|]. intros _ s Hs. by apply elem_of_nil in Hs.
  - intros Hr. destruct (IH _ Hr) as [IH1 IH2]. split.
    + intros k [Hk0 Hk]%not_elem_of_cons. rewrite (IH1 _ Hk).
      destruct (is_not_None _); [by rewrite lookup_insert_ne | done].
    + intros [Hs0 Hnd]%NoDup_cons s [-> | Hs]%elem_of_cons.
      * rewrite (IH1 _ Hs0). unfold mapped_field.
        destruct (is_not_None _); [by rewrite lookup_insert_eq | done].
      * rewrite (IH2 Hnd _ Hs). destruct (mapped_field d s); [done|].
        destruct (is_not_None _); [|done].
        rewrite lookup_insert_ne; [done|].
        intros Heq. apply Hs0. rewrite Heq. by apply list_elem_of_fmap_2.
Qed.

End transform_fields.

(** X1: on an object, a field map with distinct targets writes under each
    target exactly the value of its source field when that is present
    and not null, leaves the target out otherwise, and writes no other
    key. *)
Theorem map_dict_fields (item_source : dict) field_map :
  NoDup (InternalTransform.spec_target <$> field_map) →
  ∃ value,
    InternalTransform._map_dict (PDict item_source) field_map = Some value ∧
    (∀ s, s ∈ field_map →
       value !! InternalTransform.spec_target s = mapped_field item_source s) ∧
    (∀ k, is_Some (value !! k) →
       k ∈ InternalTransform.spec_target <$> field_map).
Proof.
  intros Hnd. unfold InternalTransform._map_dict.
  destruct (map_dict_from_total item_source field_map ∅) as [value Hvalue].
  exists value. destruct (map_dict_from_fields _ _ _ _ Hvalue) as [H1 H2].
  split_and!; [done | |].
  - intros s Hs. rewrite (H2 Hnd s Hs), lookup_empty.
    by destruct (mapped_field item_source s).
  - intros k Hk.
    destruct (decide (k ∈ InternalTransform.spec_target <$> field_map))
      as [|Hnot]; [done|].
    rewrite (H1 _ Hnot), lookup_empty in Hk. by destruct Hk.
Qed.

Lemma map_dict_fields_witness :
  ∃ value,
    InternalTransform._map_dict
      (PDict {[ "macAddress" := PStr "aa:bb"; "signalStrength" := PInt (-50);
                "age" := PNone; "ssid" := PStr "home" ]})
      InternalTransform.wifi_map = Some value ∧
    (∀ s, s ∈ InternalTransform.wifi_map →
       value !! InternalTransform.spec_target s =
       mapped_field {[ "macAddress" := PStr "aa:bb";
                       "signalStrength" := PInt (-50);
                       "age" := PNone; "ssid" := PStr "home" ]} s) ∧
    (∀ k, is_Some (value !! k) →
       k ∈ InternalTransform.spec_target <$> InternalTransform.wifi_map).
Proof.
  apply (map_dict_fields
           {[ "macAddress" := PStr "aa:bb"; "signalStrength" := PInt (-50);
              "age" := PNone; "ssid" := PStr "home" ]}
           InternalTransform.wifi_map).
  apply (bool_decide_unpack _). vm_compute. reflexivity.
Defined.

Section transform_output.
Import InternalTransform.

Lemma mapped_entry_not_dict fm entry :
  is_dict entry = false → mapped_entry fm entry = None.
Proof.
  unfold mapped_entry, _map_dict. intros Hd.
  destruct fm as [|s fm]; simpl.
  - by assert (dict_truthy (∅ : dict) = false) as ->
      by by apply dict_truthy_empty.
  - by destruct entry.
Qed.

Lemma parse_list_from_values items fm acc values :
  _parse_list_from items fm acc = Some values →
  values = acc ++ omap (mapped_entry fm) items.
Proof.
  revert acc. induction items as [|item items IH]; intros acc; simpl.
  - intros [= <-]. by rewrite app_nil_r.
  - unfold mapped_entry at 1.
    destruct (_map_dict item fm) as [d|]; [simpl|done].
    intros ->%IH. destruct (dict_truthy d); [|done].
    by rewrite <-(assoc_L (++)).
Qed.

Lemma py_iter_mapped fm v l :
  py_iter v = Some l →
  omap (mapped_entry fm) l =
  omap (mapped_entry fm) (match v with PList l => l | _ => [] end).
Proof.
  destruct v as [| | | |s|l'|d|]; simpl; try done.
  - intros [= <-]. induction (String.list_ascii_of_string s) as [|c cs IH];
      [done|]. csimpl. by rewrite mapped_entry_not_dict.
  - by intros [= <-].
  - intros [= <-]. induction ((map_to_list d).*1) as [|c cs IH];
      [done|]. csimpl. by rewrite mapped_entry_not_dict.
Qed.

Lemma parse_list_values item report km fm report' values :
  _parse_list item report km fm = Some (report', values) →
  values = omap (mapped_entry fm) (entries item km.1).
Proof.
  unfold _parse_list, entries. intros Hp.
  destruct (item !! km.1) as [v|] eqn:Hv; simpl in Hp.
  - destruct (py_iter v) as [l|] eqn:Hl; [simpl in Hp|done].
    destruct (_parse_list_from l fm []) as [vs|] eqn:Hvs; [simpl in Hp|done].
    injection Hp as <- <-.
    rewrite (parse_list_from_values _ _ _ _ Hvs). simpl.
    rewrite (py_iter_mapped _ _ _ Hl). by destruct v.
  - by injection Hp as <- <-.
Qed.

(** What a report that is not empty holds under each key. *)
Lemma call_lookup item out :
  __call__ item = Some out → out ≠ ∅ →
  out !! "blue" = mapped_list blue_map item "bluetoothBeacons" ∧
  out !! "cell" = mapped_list cell_map item "cellTowers" ∧
  out !! "wifi" = mapped_list wifi_map item "wifiAccessPoints" ∧
  out !! "timestamp" =
    (if truthy (dict_get item "timestamp")
     then Some (dict_get item "timestamp") else None) ∧
  ∃ r1, _parse_dict item ∅ position_id position_map = Some r1 ∧
    ∀ k, k ∉ ["timestamp"; "blue"; "cell"; "wifi"] → out !! k = r1 !! k.
Proof.
  intros (r1 & r3 & r4 & r5 & blues & cells & wifis
          & H1 & Hb & Hc & Hw & ->)%call_inv Hne.
  pose proof (parse_list_values _ _ _ _ _ _ Hb) as Vb.
  pose proof (parse_list_values _ _ _ _ _ _ Hc) as Vc.
  pose proof (parse_list_values _ _ _ _ _ _ Hw) as Vw.
  destruct (parse_list_spec _ _ _ _ _ _ Hb) as (_ & _ & ->).
  destruct (parse_list_spec _ _ _ _ _ _ Hc) as (_ & _ & ->).
  destruct (parse_list_spec _ _ _ _ _ _ Hw) as (_ & _ & ->).
  pose proof (position_keys _ _ "blue" H1 ltac:(set_solver)) as Kb.
  pose proof (position_keys _ _ "cell" H1 ltac:(set_solver)) as Kc.
  pose proof (position_keys _ _ "wifi" H1 ltac:(set_solver)) as Kw.
  pose proof (position_keys _ _ "timestamp" H1 ltac:(set_solver)) as Kt.
  unfold mapped_list. simpl in Vb, Vc, Vw. rewrite <-Vb, <-Vc, <-Vw.
  set (ts := dict_get item "timestamp") in *.
  assert (∀ k, k ≠ "timestamp" →
            (if truthy ts then <["timestamp" := ts]> r1 else r1) !! k
            = r1 !! k) as K2.
  { intros k Hk. destruct (truthy ts); [by rewrite lookup_insert_ne | done]. }
  assert ((if truthy ts then <["timestamp" := ts]> r1 else r1) !! "timestamp"
          = if truthy ts then Some ts else None) as T2.
  { destruct (truthy ts); [apply lookup_insert_eq | done]. }
  revert Hne K2 T2.
  generalize (if truthy ts then <["timestamp" := ts]> r1 else r1).
  intros r2 Hne K2 T2.
  pose proof (K2 "blue" ltac:(done)) as K2b.
  pose proof (K2 "cell" ltac:(done)) as K2c.
  pose proof (K2 "wifi" ltac:(done)) as K2w.
  assert (∀ k, k ∉ ["timestamp"; "blue"; "cell"; "wifi"] →
            k ≠ "timestamp" ∧ k ≠ "blue" ∧ k ≠ "cell" ∧ k ≠ "wifi") as Hnot.
  { intros k Hk. rewrite !not_elem_of_cons in Hk. tauto. }
  destruct blues as [|b blues], cells as [|c cells], wifis as [|w wifis];
    try done; simpl;
    (split_and!;
     [ rewrite ?lookup_insert_eq, ?lookup_insert_ne by done;
       rewrite ?lookup_insert_eq, ?K2b, ?Kb; done
     | rewrite ?lookup_insert_eq, ?lookup_insert_ne by done;
       rewrite ?lookup_insert_eq, ?K2c, ?Kc; done
     | rewrite ?lookup_insert_eq, ?lookup_insert_ne by done;
       rewrite ?lookup_insert_eq, ?K2w, ?Kw; done
     | rewrite ?lookup_insert_ne by done; done
     | exists r1; split; [done|];
       intros k (? & ? & ? & ?)%Hnot;
       rewrite ?lookup_insert_ne by done; by apply K2 ]).
Qed.

(** The fields [_parse_dict] inlines from the position. *)
Lemma parse_dict_position item r1 :
  _parse_dict item ∅ position_id position_map = Some r1 →
  (∀ s, s ∈ position_map →
     r1 !! spec_target s =
       match dict_get item "position" with
       | PDict p => mapped_field p s
       | _ => None
       end) ∧
  (∀ k, is_Some (r1 !! k) → k ∈ spec_target <$> position_map).
Proof.
  unfold _parse_dict. simpl. intros Hp.
  assert (NoDup (spec_target <$> position_map)) as Hnd
    by (apply (bool_decide_unpack _); by vm_compute).
  destruct (truthy (dict_get item "position")) eqn:Ht.
  - destruct (dict_get item "position") as [| | | | | |p|]; try done.
    destruct (map_dict_from_total p position_map ∅) as [v Hv].
    unfold _map_dict in Hp. rewrite Hv in Hp. simpl in Hp.
    destruct (map_dict_from_fields _ _ _ _ Hv) as [F1 F2].
    assert (r1 = v) as ->.
    { destruct (dict_truthy v) eqn:Hdt; injection Hp as <-.
      - by rewrite (right_id_L ∅ (∪)).
      - symmetry. by apply dict_truthy_empty. }
    split.
    + intros s Hs. rewrite (F2 Hnd s Hs), lookup_empty.
      by destruct (mapped_field p s).
    + intros k Hk.
      destruct (decide (k ∈ spec_target <$> position_map)) as [|Hnot];
        [done|].
      rewrite (F1 _ Hnot), lookup_empty in Hk. by destruct Hk.
  - simpl in Hp.
    assert (dict_truthy (∅ : dict) = false) as Hdt
      by by apply dict_truthy_empty.
    rewrite Hdt in Hp. injection Hp as <-. split.
    + intros s Hs. rewrite lookup_empty.
      destruct (dict_get item "position") as [| | | | | |p|]; try done.
      simpl in Ht. apply negb_false_iff, bool_decide_eq_true in Ht.
      apply map_size_empty_iff in Ht as ->. unfold mapped_field, dict_get.
      by rewrite lookup_empty.
    + intros k. rewrite lookup_empty. by intros [? [=]].
Qed.

End transform_output.

(** X2: in a report that is not empty, each of the lists [blue], [cell]
    and [wifi] holds the entries of its source list that survive, as they
    are mapped and in the order of the input; the key is absent when no
    entry survives. *)
Theorem transform_lists item out :
  InternalTransform.__call__ item = Some out → out ≠ ∅ →
  out !! "blue"
    = mapped_list InternalTransform.blue_map item "bluetoothBeacons" ∧
  out !! "cell" = mapped_list InternalTransform.cell_map item "cellTowers" ∧
  out !! "wifi"
    = mapped_list InternalTransform.wifi_map item "wifiAccessPoints".
Proof.
  intros Hcall Hne.
  by destruct (call_lookup _ _ Hcall Hne) as (? & ? & ? & _).
Qed.

Lemma transform_lists_witness :
  ({[ "wifi" := PList [PDict {[ "mac" := PStr "aa:bb";
                                "signal" := PInt (-50) ]}] ]} : dict)
    !! "blue"
    = mapped_list InternalTransform.blue_map report_at_epoch
        "bluetoothBeacons" ∧
  ({[ "wifi" := PList [PDict {[ "mac" := PStr "aa:bb";
                                "signal" := PInt (-50) ]}] ]} : dict)
    !! "cell"
    = mapped_list InternalTransform.cell_map report_at_epoch "cellTowers" ∧
  ({[ "wifi" := PList [PDict {[ "mac" := PStr "aa:bb";
                                "signal" := PInt (-50) ]}] ]} : dict)
    !! "wifi"
    = mapped_list InternalTransform.wifi_map report_at_epoch
        "wifiAccessPoints".
Proof.
  apply (transform_lists report_at_epoch).
  - vm_compute; reflexivity.
  - intros Hempty. apply (f_equal (λ m : dict, m !! "wifi")) in Hempty.
    vm_compute in Hempty. discriminate.
Defined.

(** X3: in a report that is not empty, the fields of the source
    [position] object are inlined at the top level under their target
    names, each present exactly when its source field is present and not
    null; without a [position] object no position field is written. *)
Theorem transform_position item out s :
  InternalTransform.__call__ item = Some out → out ≠ ∅ →
  s ∈ InternalTransform.position_map →
  out !! InternalTransform.spec_target s =
    match dict_get item "position" with
    | PDict position => mapped_field position s
    | _ => None
    end.
Proof.
  intros Hcall Hne Hs.
  destruct (call_lookup _ _ Hcall Hne) as (_ & _ & _ & _ & r1 & Hr1 & Hout).
  destruct (parse_dict_position _ _ Hr1) as [Hpos _].
  rewrite Hout; [by apply Hpos|].
  unfold InternalTransform.position_map in Hs.
  repeat (apply elem_of_cons in Hs as [-> | Hs]);
    [by apply (bool_decide_unpack _); vm_compute.. |].
  by apply elem_of_nil in Hs.
Qed.

Lemma transform_position_witness :
  ({[ "lat" := PFloat (3 # 2); "lon" := PFloat (5 # 2);
      "accuracy" := PInt 10; "altitude_accuracy" := PInt 3;
      "wifi" := PList [PDict {[ "mac" := PStr "aa:bb";
                                "signal" := PInt (-50) ]}];
      "timestamp" := PInt 1500000000000 ]} : dict)
    !! InternalTransform.spec_target
         (InternalTransform.Tuple "altitudeAccuracy" "altitude_accuracy") =
    match dict_get scenario_report "position" with
    | PDict position =>
        mapped_field position
          (InternalTransform.Tuple "altitudeAccuracy" "altitude_accuracy")
    | _ => None
    end.
Proof.
  apply (transform_position scenario_report).
  - vm_compute; reflexivity.
  - intros Hempty. apply (f_equal (λ m : dict, m !! "wifi")) in Hempty.
    vm_compute in Hempty. discriminate.
  - unfold InternalTransform.position_map. set_solver.
Defined.

(** The keys of what the transform returns. *)
Lemma call_keys item out k :
  InternalTransform.__call__ item = Some out →
  is_Some (out !! k) → k ∈ output_keys.
Proof.
  intros Hcall Hk. unfold output_keys.
  destruct (decide (out = ∅)) as [-> | Hne].
  { rewrite lookup_empty in Hk. by destruct Hk. }
  destruct (call_lookup _ _ Hcall Hne) as (_ & _ & _ & _ & r1 & Hr1 & Hout).
  destruct (parse_dict_position _ _ Hr1) as [_ Hkeys].
  apply elem_of_app.
  destruct (decide (k ∈ ["timestamp"; "blue"; "cell"; "wifi"])) as [|Hnot];
    [by right|].
  left. apply Hkeys. by rewrite <-Hout.
Qed.

(** X4: the transform writes no key but the position targets,
    [timestamp], [blue], [cell] and [wifi]: every other key of the
    external report is dropped. *)
Theorem transform_keys item out k :
  InternalTransform.__call__ item = Some out →
  is_Some (out !! k) → k ∈ output_keys.
Proof. apply call_keys. Qed.

Lemma transform_keys_witness : "wifi" ∈ output_keys.
Proof.
  apply (transform_keys report_at_epoch
           {[ "wifi" := PList [PDict {[ "mac" := PStr "aa:bb";
                                        "signal" := PInt (-50) ]}] ]}).
  - vm_compute; reflexivity.
  - rewrite lookup_singleton_eq. by eexists.
Defined.

(** ** The report as the uploader formats it *)

Section format_facts.
Context `{Library}.
Import InternalUploader.

Lemma format_report_spec item report :
  _format_report item = Some report →
  ∃ out,
    InternalTransform.__call__ item = Some out ∧
    report !! "timestamp" = None ∧
    report !! "time" =
      (if truthy (dict_get item "timestamp") && has_survivor item
       then PDatetime <$> utcfromtimestamp_ms (dict_get item "timestamp")
       else None) ∧
    ∀ k, k ∉ ["time"; "timestamp"] → report !! k = out !! k.
Proof.
  unfold _format_report. intros (out & Hout & Hr)%bind_Some.
  exists out. split; [done|].
  destruct (call_spec _ _ Hout) as (_ & _ & Hts).
  assert (out !! "time" = None) as Htime.
  { apply eq_None_not_Some. intros Hs%(call_keys _ _ _ Hout).
    revert Hs. apply (bool_decide_unpack _). by vm_compute. }
  unfold dict_get in Hr at 1 2. rewrite Hts in Hr.
  destruct (truthy (dict_get item "timestamp") && has_survivor item) eqn:Hc.
  - simpl in Hr. apply andb_true_iff in Hc as [Ht _]. rewrite Ht in Hr.
    apply bind_Some in Hr as (dt & Hdt & Hr). injection Hr as <-.
    rewrite Hdt. split_and!.
    + rewrite lookup_insert_ne by done. apply lookup_delete_eq.
    + apply lookup_insert_eq.
    + intros k [Hk1 [Hk2 _]%not_elem_of_cons]%not_elem_of_cons.
      by rewrite lookup_insert_ne, lookup_delete_ne.
  - simpl in Hr. injection Hr as <-. split_and!.
    + apply lookup_delete_eq.
    + by rewrite lookup_delete_ne.
    + intros k [Hk1 [Hk2 _]%not_elem_of_cons]%not_elem_of_cons.
      by rewrite lookup_delete_ne.
Qed.

Lemma format_report_not_a_number report :
  has_survivor report = true →
  truthy (dict_get report "timestamp") = true →
  utcfromtimestamp_ms (dict_get report "timestamp") = None →
  _format_report report = None.
Proof.
  intros Hs Ht Hn. unfold _format_report.
  destruct (InternalTransform.__call__ report) as [out|] eqn:Hout; [|done].
  simpl. destruct (call_spec _ _ Hout) as (_ & _ & Hts).
  rewrite Ht, Hs in Hts. simpl in Hts.
  unfold dict_get at 1 2. rewrite Hts. simpl. rewrite Ht. by rewrite Hn.
Qed.

(** [time] is present exactly under the guard, and is the second of a
    whole number of milliseconds inside the range of [datetime]. *)
Lemma format_report_present item report :
  _format_report item = Some report →
  (is_Some (report !! "time") ↔
   truthy (dict_get item "timestamp") && has_survivor item = true) ∧
  (∀ n, dict_get item "timestamp" = PInt n →
        0 < n < 253402300800000 →
        has_survivor item = true →
        report !! "time" = Some (PDatetime (n `div` 1000))).
Proof.
  intros Hformat. pose proof Hformat as Hraw.
  apply format_report_spec in Hformat as (out & Hout & _ & Htime & _).
  assert (truthy (dict_get item "timestamp") && has_survivor item = true →
          is_Some (utcfromtimestamp_ms (dict_get item "timestamp"))) as Hdt.
  { intros [Ht Hs]%andb_true_iff.
    destruct (utcfromtimestamp_ms (dict_get item "timestamp")) eqn:Hn;
      [by eexists|].
    by rewrite (format_report_not_a_number _ Hs Ht Hn) in Hraw. }
  split.
  - rewrite Htime.
    destruct (truthy (dict_get item "timestamp") && has_survivor item).
    + split; [done|]. intros _. destruct (Hdt eq_refl) as [dt ->].
      by eexists.
    + split; [by intros [? [=]] | done].
  - intros n Hn Hrange Hs. rewrite Htime, Hn, Hs. simpl.
    replace (negb (n =? 0)) with true
      by (symmetry; apply negb_true_iff, Z.eqb_neq; lia).
    unfold utcfromtimestamp_ms.
    rewrite datetime_utcfromtimestamp_whole by lia. done.
Qed.


End format_facts.

(** X5: the report the internal uploader formats never holds the key
    [timestamp]; it holds [time] exactly when the timestamp of the
    external report is truthy and some entry survives, and [time] is then
    the [datetime] the library makes of the timestamp, its microseconds
    cleared; for a whole number of milliseconds from the epoch to the end
    of the year 9999 that is the second the timestamp falls into; every
    other key is as the transform wrote it. *)
Theorem format_report_time `{Library} item report :
  InternalUploader._format_report item = Some report →
  report !! "timestamp" = None ∧
  (is_Some (report !! "time") ↔
   truthy (dict_get item "timestamp") && has_survivor item = true) ∧
  report !! "time" =
    (if truthy (dict_get item "timestamp") && has_survivor item
     then PDatetime
            <$> InternalUploader.utcfromtimestamp_ms (dict_get item "timestamp")
     else None) ∧
  (∀ n, dict_get item "timestamp" = PInt n →
        0 < n < 253402300800000 →
        has_survivor item = true →
        report !! "time" = Some (PDatetime (n `div` 1000))) ∧
  ∃ out,
    InternalTransform.__call__ item = Some out ∧
    ∀ k, k ∉ ["time"; "timestamp"] → report !! k = out !! k.
Proof.
  intros Hformat.
  destruct (format_report_present _ _ Hformat) as [Hpresent Hwhole].
  apply format_report_spec in Hformat
    as (out & Hout & Hts & Htime & Hother).
  split_and!; [done | done | done | done |]. by exists out.
Qed.

Lemma format_report_time_witness :
  ∃ report,
    @InternalUploader._format_report example_library scenario_report
      = Some report ∧
    report !! "timestamp" = None ∧
    (is_Some (report !! "time") ↔
     truthy (dict_get scenario_report "timestamp")
       && has_survivor scenario_report = true) ∧
    report !! "time" =
      (if truthy (dict_get scenario_report "timestamp")
          && has_survivor scenario_report
       then PDatetime
              <$> @InternalUploader.utcfromtimestamp_ms example_library
                    (dict_get scenario_report "timestamp")
       else None) ∧
    (∀ n, dict_get scenario_report "timestamp" = PInt n →
          0 < n < 253402300800000 →
          has_survivor scenario_report = true →
          report !! "time" = Some (PDatetime (n `div` 1000))) ∧
    ∃ out,
      InternalTransform.__call__ scenario_report = Some out ∧
      ∀ k, k ∉ ["time"; "timestamp"] → report !! k = out !! k.
Proof.
  assert (is_Some (@InternalUploader._format_report example_library
                     scenario_report))
    as [report Hreport] by (apply (bool_decide_unpack _); vm_compute; exact I).
  exists report. split; [exact Hreport|].
  apply (@format_report_time example_library scenario_report report Hreport).
Defined.



(** ** The dispatcher, group by group *)

Section dispatcher_groups.
Import IncomingQueue.

Lemma envelopes_of_cons k item data :
  envelopes_of k (item :: data) =
  match (if decide (api_key_of item = Some k) then envelope item else None) with
  | Some e => e :: envelopes_of k data
  | None => envelopes_of k data
  end.
Proof. done. Qed.

(** The groups the first loop builds. *)
Lemma group_lookup data grouped grouped' k :
  group data grouped = Some grouped' →
  grouped' !! k =
    match envelopes_of k data with
    | [] => grouped !! k
    | l => Some (default [] (grouped !! k) ++ l)
    end.
Proof.
  revert grouped. induction data as [|item data IH]; intros grouped.
  - by intros [= <-].
  - cbn [group]. intros (a & Ha & Hg)%bind_Some.
    apply bind_Some in Hg as (ka & Hka & Hg).
    apply bind_Some in Hg as (e & He & Hg).
    assert (api_key_of item = Some ka) as Hak
      by (unfold api_key_of; by rewrite Ha).
    rewrite (IH _ Hg), envelopes_of_cons.
    destruct (decide (api_key_of item = Some k)) as [Heq | Hne].
    + rewrite Hak in Heq. injection Heq as ->. rewrite He.
      rewrite lookup_insert_eq. simpl.
      destruct (envelopes_of k data); [done|].
      by rewrite <-(assoc_L (++)).
    + rewrite lookup_insert_ne by congruence. done.
Qed.

Lemma group_lookup_empty data grouped k :
  group data ∅ = Some grouped →
  grouped !! k =
    match envelopes_of k data with [] => None | l => Some l end.
Proof.
  intros Hg. rewrite (group_lookup _ _ _ k Hg), lookup_empty.
  by destruct (envelopes_of k data).
Qed.

Lemma call_groups data export_queues c :
  c ∈ (__call__ data export_queues).1 →
  ∃ k,
    call_items c = envelopes_of k data ∧
    call_items c ≠ [] ∧
    (call_queue c ∈ export_queues) ∧
    export_allowed (call_queue c) k = true ∧
    queue_key (call_queue c) k = Some (call_key c).
Proof.
  unfold __call__. intros Hc.
  destruct (group data ∅) as [grouped|] eqn:Hg;
    [|by apply elem_of_nil in Hc].
  destruct (distribute_all_calls (map_to_list grouped) export_queues)
    as [D1 _].
  destruct (D1 _ Hc) as (k & Hk%elem_of_map_to_list & Hq & Hallowed & Hkey).
  exists k. rewrite (group_lookup_empty _ _ k Hg) in Hk.
  destruct (envelopes_of k data) as [|e l] eqn:He; [done|].
  injection Hk as Hk. by rewrite <-Hk.
Qed.

Lemma delivered data export_queues calls x k queue :
  __call__ data export_queues = (calls, true) →
  x ∈ data → api_key_of x = Some k →
  queue ∈ export_queues → k ∉ skip_keys queue →
  ∃ qk e,
    queue_key queue k = Some qk ∧
    Enqueue queue qk (envelopes_of k data) ∈ calls ∧
    envelope x = Some e ∧ e ∈ envelopes_of k data.
Proof.
  unfold __call__. intros Hcall Hx Hk Hq Hskip.
  destruct (group data ∅) as [grouped|] eqn:Hg; [|done].
  destruct (group_items _ _ _ _ Hg Hx) as [[e He] _].
  destruct (group_members _ _ _ _ _ _ Hg Hx He Hk) as (items & Hitems & Hin).
  pose proof (group_lookup_empty _ _ k Hg) as Hl. rewrite Hitems in Hl.
  destruct (envelopes_of k data) as [|e' l] eqn:Hen; [done|].
  injection Hl as ->.
  destruct (distribute_all_calls (map_to_list grouped) export_queues)
    as [_ D2].
  rewrite Hcall in D2. simpl in D2.
  destruct (D2 eq_refl k (e' :: l) queue) as (qk & Hqk & Hc); try done.
  { by apply elem_of_map_to_list. }
  { by apply bool_decide_eq_true. }
  by exists qk, e.
Qed.

End dispatcher_groups.

(** X7: every enqueue call of the dispatcher carries the rebuilt
    envelopes of all the ingress items of one api key, in the order of
    their arrival and none of another key, to a queue that allows the
    key, under the partition key the queue gives the key. *)
Theorem dispatch_groups_in_order data export_queues c :
  c ∈ (IncomingQueue.__call__ data export_queues).1 →
  ∃ k,
    call_items c = envelopes_of k data ∧
    call_items c ≠ [] ∧
    (call_queue c ∈ export_queues) ∧
    (k ∉ skip_keys (call_queue c)) ∧
    queue_key (call_queue c) k = Some (call_key c).
Proof.
  intros (k & ? & ? & ? & Hallowed & ?)%call_groups. exists k.
  split_and!; try done. by apply bool_decide_eq_true in Hallowed.
Qed.

Lemma dispatch_groups_in_order_witness :
  ∃ k,
    call_items (Enqueue queue_Q1 "queue_export_Q1"
                  ((λ n, ingress_item "A" n) <$> [1; 3; 4]))
    = envelopes_of k scenario_data ∧
    call_items (Enqueue queue_Q1 "queue_export_Q1"
                  ((λ n, ingress_item "A" n) <$> [1; 3; 4])) ≠ [] ∧
    (call_queue (Enqueue queue_Q1 "queue_export_Q1"
                   ((λ n, ingress_item "A" n) <$> [1; 3; 4]))
     ∈ [queue_Q1; queue_Q2]) ∧
    (k ∉ skip_keys (call_queue (Enqueue queue_Q1 "queue_export_Q1"
                      ((λ n, ingress_item "A" n) <$> [1; 3; 4])))) ∧
    queue_key (call_queue (Enqueue queue_Q1 "queue_export_Q1"
                 ((λ n, ingress_item "A" n) <$> [1; 3; 4]))) k
    = Some (call_key (Enqueue queue_Q1 "queue_export_Q1"
              ((λ n, ingress_item "A" n) <$> [1; 3; 4]))).
Proof.
  apply (dispatch_groups_in_order scenario_data [queue_Q1; queue_Q2]).
  assert ((IncomingQueue.__call__ scenario_data [queue_Q1; queue_Q2]).1 =
          [Enqueue queue_Q1 "queue_export_Q1"
             ((λ n, ingress_item "A" n) <$> [1; 3; 4]);
           Enqueue queue_Q1 "queue_export_Q1"
             ((λ n, ingress_item "B" n) <$> [2; 5]);
           Enqueue queue_Q2 "queue_export_Q2:B"
             ((λ n, ingress_item "B" n) <$> [2; 5])]) as ->
    by (vm_compute; reflexivity).
  set_solver.
Defined.

(** X8: when the dispatcher returns, every ingress item reaches every
    export queue that does not skip its api key: the queue is called,
    under the partition key of the api key, with the whole group of that
    key, which holds the item's envelope. *)
Theorem dispatch_delivers data export_queues calls x k queue :
  IncomingQueue.__call__ data export_queues = (calls, true) →
  x ∈ data → api_key_of x = Some k →
  queue ∈ export_queues → k ∉ skip_keys queue →
  ∃ qk e,
    queue_key queue k = Some qk ∧
    Enqueue queue qk (envelopes_of k data) ∈ calls ∧
    IncomingQueue.envelope x = Some e ∧ e ∈ envelopes_of k data.
Proof. apply delivered. Qed.

Lemma dispatch_delivers_witness :
  ∃ qk e,
    queue_key queue_Q2 (KStr "B") = Some qk ∧
    Enqueue queue_Q2 qk (envelopes_of (KStr "B") scenario_data)
    ∈ [Enqueue queue_Q1 "queue_export_Q1"
         ((λ n, ingress_item "A" n) <$> [1; 3; 4]);
       Enqueue queue_Q1 "queue_export_Q1"
         ((λ n, ingress_item "B" n) <$> [2; 5]);
       Enqueue queue_Q2 "queue_export_Q2:B"
         ((λ n, ingress_item "B" n) <$> [2; 5])] ∧
    IncomingQueue.envelope (ingress_item "B" 5) = Some e ∧
    e ∈ envelopes_of (KStr "B") scenario_data.
Proof.
  apply (dispatch_delivers scenario_data [queue_Q1; queue_Q2] _
           (ingress_item "B" 5) (KStr "B") queue_Q2).
  - vm_compute; reflexivity.
  - unfold scenario_data. set_solver.
  - reflexivity.
  - set_solver.
  - simpl. set_solver.
Defined.

(** ** The uploader, outcome by outcome *)

Section uploader_outcomes.
Import BaseReportUploader.

Lemma attempts_until_success uploader send url data stats_tags n start k :
  (k < n)%nat →
  (∀ j, (j < k)%nat →
     ∃ e, send (start + j)%nat url data = Some e ∧ retriable uploader e = true) →
  send (start + k)%nat url data = None →
  attempts uploader send url data stats_tags (seq start n) =
    (((λ i, Sleep (retry_sleep i)) <$> seq start k)
     ++ [Incr "data.export.batch" stats_tags], inl true).
Proof.
  revert start k. induction n as [|n IH]; intros start k Hk Hfail Hok; [lia|].
  simpl. destruct k as [|k].
  - rewrite Nat.add_0_r in Hok. by rewrite Hok.
  - destruct (Hfail 0%nat ltac:(lia)) as (e & He & Hr).
    rewrite Nat.add_0_r in He. rewrite He, Hr.
    rewrite (IH (S start) k); [done | lia | |].
    + intros j Hj. destruct (Hfail (S j) ltac:(lia)) as (e' & He' & Hr').
      exists e'. by rewrite Nat.add_succ_r in He'.
    + by rewrite Nat.add_succ_r in Hok.
Qed.

Lemma attempts_until_raise uploader send url data stats_tags n start k e :
  (k < n)%nat →
  (∀ j, (j < k)%nat →
     ∃ e, send (start + j)%nat url data = Some e ∧ retriable uploader e = true) →
  send (start + k)%nat url data = Some e → retriable uploader e = false →
  attempts uploader send url data stats_tags (seq start n) =
    ((λ i, Sleep (retry_sleep i)) <$> seq start k, inr e).
Proof.
  revert start k. induction n as [|n IH]; intros start k Hk Hfail He Hr; [lia|].
  simpl. destruct k as [|k].
  - rewrite Nat.add_0_r in He. by rewrite He, Hr.
  - destruct (Hfail 0%nat ltac:(lia)) as (e0 & He0 & Hr0).
    rewrite Nat.add_0_r in He0. rewrite He0, Hr0.
    rewrite (IH (S start) k); [done | lia | | |done].
    + intros j Hj. destruct (Hfail (S j) ltac:(lia)) as (e' & He' & Hr').
      exists e'. by rewrite Nat.add_succ_r in He'.
    + by rewrite Nat.add_succ_r in He.
Qed.

(** What the loop can leave: only sleeps, unless it ends on a success,
    and no retriable exception. *)
Lemma attempts_shape uploader send url data stats_tags range :
  match attempts uploader send url data stats_tags range with
  | (events, inl true) =>
      ∃ slept, events = slept ++ [Incr "data.export.batch" stats_tags] ∧
               Forall (λ ev, ∃ t, ev = Sleep t) slept
  | (events, inl false) => Forall (λ ev, ∃ t, ev = Sleep t) events
  | (events, inr e) =>
      retriable uploader e = false ∧ Forall (λ ev, ∃ t, ev = Sleep t) events
  end.
Proof.
  induction range as [|i range IH]; simpl; [done|].
  destruct (send i url data) as [e|].
  - destruct (retriable uploader e) eqn:Hr; [|done].
    destruct (attempts uploader send url data stats_tags range)
      as [events [[]|e']].
    + destruct IH as (slept & -> & Hslept).
      exists (Sleep (retry_sleep i) :: slept). split; [done|].
      constructor; [by eexists | done].
    + constructor; [by eexists | done].
    + destruct IH as [? ?]. split; [done|].
      constructor; [by eexists | done].
  - by exists [].
Qed.

Lemma item_reports_missing items item :
  item ∈ items → item !! "report" = None → item_reports items = None.
Proof.
  unfold item_reports. intros Hin Hnone.
  apply mapM_None, Exists_exists. by exists item.
Qed.

End uploader_outcomes.

(** X9: when the attempts before attempt [k] fail with retriable
    exceptions and attempt [k] returns, the job sleeps after each of the
    failures, counts one uploaded batch, re-arms itself exactly when the
    partition is ready again, and returns. *)
Theorem upload_succeeds uploader export_queue queue_key send items ready
    data k :
  items ≠ [] →
  BaseReportUploader.payload export_queue items = Some data →
  (k < BaseReportUploader._retries)%nat →
  (∀ j, (j < k)%nat →
     ∃ e, send j (url export_queue) data = Some e ∧
          BaseReportUploader.retriable uploader e = true) →
  send k (url export_queue) data = None →
  BaseReportUploader.__call__ uploader export_queue queue_key send items ready
  = (Returned,
     sleeps k
     ++ [Incr "data.export.batch" ["key:" +:+ metric_tag export_queue]]
     ++ (if ready then [Countdown (name export_queue) queue_key] else [])).
Proof.
  intros Hitems Hdata Hk Hfail Hok.
  unfold BaseReportUploader.__call__. destruct items as [|item items]; [done|].
  rewrite Hdata.
  rewrite (attempts_until_success _ _ _ _ _ _ 0 k Hk Hfail Hok).
  unfold sleeps. destruct ready; simpl; [|done].
  by rewrite <-(assoc_L (++)).
Qed.

Lemma upload_succeeds_witness :
  BaseReportUploader.__call__ GeosubmitUploader http_queue
    "queue_export_test" fails_once [one_envelope] true
  = (Returned,
     sleeps 1
     ++ [Incr "data.export.batch" ["key:" +:+ metric_tag http_queue]]
     ++ (if true then [Countdown (name http_queue) "queue_export_test"]
         else [])).
Proof.
  apply (upload_succeeds GeosubmitUploader http_queue "queue_export_test"
           fails_once [one_envelope] true
           (PDict {[ "items" := PList [PDict report_at_epoch] ]}) 1).
  - discriminate.
  - vm_compute; reflexivity.
  - unfold BaseReportUploader._retries; lia.
  - intros j Hj. exists IOError. assert (j = 0%nat) as -> by lia.
    split; reflexivity.
  - reflexivity.
Defined.

(** X10: when the attempts before attempt [k] fail with retriable
    exceptions and attempt [k] raises an exception that is not retriable,
    the job raises that exception at once: it sleeps only for the earlier
    failures, counts no batch, makes no further attempt and does not
    re-arm. *)
Theorem upload_raises uploader export_queue queue_key send items ready
    data k e :
  items ≠ [] →
  BaseReportUploader.payload export_queue items = Some data →
  (k < BaseReportUploader._retries)%nat →
  (∀ j, (j < k)%nat →
     ∃ e, send j (url export_queue) data = Some e ∧
          BaseReportUploader.retriable uploader e = true) →
  send k (url export_queue) data = Some e →
  BaseReportUploader.retriable uploader e = false →
  BaseReportUploader.__call__ uploader export_queue queue_key send items ready
  = (Raised e, sleeps k).
Proof.
  intros Hitems Hdata Hk Hfail He Hr.
  unfold BaseReportUploader.__call__. destruct items as [|item items]; [done|].
  rewrite Hdata.
  by rewrite (attempts_until_raise _ _ _ _ _ _ 0 k e Hk Hfail He Hr).
Qed.

Lemma upload_raises_witness :
  BaseReportUploader.__call__ GeosubmitUploader http_queue
    "queue_export_test" fails_then_breaks [one_envelope] true
  = (Raised KeyError, sleeps 1).
Proof.
  apply (upload_raises GeosubmitUploader http_queue "queue_export_test"
           fails_then_breaks [one_envelope] true
           (PDict {[ "items" := PList [PDict report_at_epoch] ]}) 1).
  - discriminate.
  - vm_compute; reflexivity.
  - unfold BaseReportUploader._retries; lia.
  - intros j Hj. exists IOError. assert (j = 0%nat) as -> by lia.
    split; reflexivity.
  - reflexivity.
  - reflexivity.
Defined.

(** X11: whatever the sink does, an exception that leaves the job is not
    retriable for its uploader, and the job re-arms itself only when it
    returned, counted an uploaded batch and found the partition ready. *)
Theorem upload_safety uploader export_queue queue_key send items ready :
  (∀ e, (BaseReportUploader.__call__ uploader export_queue queue_key send
           items ready).1 = Raised e →
        BaseReportUploader.retriable uploader e = false) ∧
  (∀ n k, Countdown n k ∈
            (BaseReportUploader.__call__ uploader export_queue queue_key send
               items ready).2 →
          ready = true ∧
          (BaseReportUploader.__call__ uploader export_queue queue_key send
             items ready).1 = Returned ∧
          Incr "data.export.batch" ["key:" +:+ metric_tag export_queue] ∈
            (BaseReportUploader.__call__ uploader export_queue queue_key send
               items ready).2).
Proof.
  unfold BaseReportUploader.__call__.
  destruct items as [|item items].
  { split; [done|]. intros n k Hin. by apply elem_of_nil in Hin. }
  destruct (BaseReportUploader.payload export_queue (item :: items))
    as [data|].
  2: { split.
       - intros e [= <-]. by destruct uploader.
       - intros n k Hin. by apply elem_of_nil in Hin. }
  pose proof (attempts_shape uploader send (url export_queue) data
                ["key:" +:+ metric_tag export_queue]
                (seq 0 BaseReportUploader._retries)) as Hshape.
  destruct (BaseReportUploader.attempts uploader send (url export_queue) data
              ["key:" +:+ metric_tag export_queue]
              (seq 0 BaseReportUploader._retries))
    as [events [[]|e]]; simpl.
  - destruct Hshape as (slept & -> & Hslept). split; [done|].
    assert (∀ n k, Countdown n k ∉ slept) as Hno.
    { intros n k Hin. rewrite Forall_forall in Hslept.
      by destruct (Hslept _ Hin) as [t ?]. }
    destruct ready; simpl.
    + intros n k _. split_and!; [done..|]. set_solver.
    + intros n k [Hin | Hin]%elem_of_app; [by apply Hno in Hin|].
      by apply list_elem_of_singleton in Hin.
  - split; [done|]. intros n k Hin. rewrite Forall_forall in Hshape.
    by destruct (Hshape _ Hin) as [t ?].
  - destruct Hshape as [Hr Hslept]. split; [by intros ? [= <-]|].
    intros n k Hin. rewrite Forall_forall in Hslept.
    by destruct (Hslept _ Hin) as [t ?].
Qed.

(** X12: for a queue without metadata, an envelope without the key
    [report] makes the job raise [KeyError] before the sink is called:
    nothing is uploaded, slept or counted. *)
Theorem upload_missing_report uploader export_queue queue_key send items
    item ready :
  metadata export_queue = false →
  item ∈ items → item !! "report" = None →
  BaseReportUploader.__call__ uploader export_queue queue_key send items ready
  = (Raised KeyError, []).
Proof.
  intros Hmeta Hin Hnone. unfold BaseReportUploader.__call__.
  destruct items as [|item' items]; [by apply elem_of_nil in Hin|].
  unfold BaseReportUploader.payload. rewrite Hmeta.
  by rewrite (item_reports_missing _ _ Hin Hnone).
Qed.

Lemma upload_missing_report_witness :
  BaseReportUploader.__call__ GeosubmitUploader http_queue
    "queue_export_test" DummyUploader_send
    [one_envelope; delete "report" one_envelope] true
  = (Raised KeyError, []).
Proof.
  apply (upload_missing_report GeosubmitUploader http_queue
           "queue_export_test" DummyUploader_send
           [one_envelope; delete "report" one_envelope]
           (delete "report" one_envelope) true).
  - reflexivity.
  - set_solver.
  - vm_compute; reflexivity.
Defined.

(** ** The internal uploader: users, scores and counters *)

Section uploader_users.
Context `{Library} `{Models}.
Import InternalUploader.

Lemma process_user_session session nickname session' userid :
  process_user session nickname = Some (session', userid) →
  (resolves nickname = false → session' = session ∧ userid = None) ∧
  (∀ text, nickname = KStr text → resolves nickname = true →
     match User_first session text with
     | Some found => session' = session ∧ userid = Some found
     | None => (session', userid)
               = ((User_add session text).1, Some (User_add session text).2)
     end).
Proof.
  unfold process_user, resolves.
  destruct nickname as [|n d|text|t]; cbn [key_truthy].
  - intros [= <- <-]. by split.
  - destruct (negb (n =? 0)); [done|]. intros [= <- <-]. by split.
  - destruct (negb (text =? "")%string) eqn:Hne.
    + destruct ((2 <=? len text)%nat
                && (len text <=? 128)%nat).
      * intros Hp. split; [done|]. intros ? [= <-] _.
        destruct (User_first session text) as [found|].
        -- by injection Hp as <- <-.
        -- destruct (User_add session text). by injection Hp as <- <-.
      * intros [= <- <-]. by split.
    + intros [= <- <-]. split; [done|]. intros ? [= <-].
      apply negb_false_iff, String.eqb_eq in Hne as ->. done.
  - done.
Qed.

(** The loop over nicknames that are each met once: the nicknames it
    does not meet keep their entry of [users], those it meets get the
    userid of [process_user], which is a key of [scores], and [scores]
    gains no other key. *)
Lemma resolve_users_maps nicks session users scores session' users' scores' :
  NoDup nicks →
  resolve_users nicks session users scores = Some (session', users', scores') →
  (∀ n, n ∉ nicks → users' !! n = users !! n) ∧
  (∀ n, n ∈ nicks →
     ∃ u, users' !! n = Some u ∧ is_Some (scores' !! u) ∧
          (is_Some u ↔ resolves n = true)) ∧
  (∀ u, is_Some (scores' !! u) ↔
     is_Some (scores !! u) ∨ ∃ n, n ∈ nicks ∧ users' !! n = Some u) ∧
  ((∀ n, n ∈ nicks → resolves n = false) → session' = session).
Proof.
  intros Hnodup. revert session users scores.
  induction Hnodup as [|nickname nicks Hfresh Hnodup IH];
    intros session users scores.
  - intros [= <- <- <-]. split_and!; [done | | | done].
    + by intros n []%elem_of_nil.
    + intros u. split; [by left|].
      intros [?|(? & []%elem_of_nil & _)]; done.
  - cbn [resolve_users].
    intros ([session1 userid] & Huser & Hrest)%bind_Some.
    destruct (IH _ _ _ Hrest) as (Hframe & Hin & Hscores & Hsession).
    clear IH.
    assert (users' !! nickname = Some userid) as Hnick.
    { rewrite Hframe by done. apply lookup_insert_eq. }
    split_and!.
    + intros n [Hne Hn]%not_elem_of_cons.
      by rewrite Hframe, lookup_insert_ne.
    + intros n [-> | Hn]%elem_of_cons; [|by apply Hin].
      exists userid. split_and!; [done | |].
      * apply Hscores. left. rewrite lookup_insert_eq. by eexists.
      * by eapply process_user_resolves.
    + intros u. rewrite Hscores. split.
      * intros [Hu|(n & Hn & Hu)].
        -- destruct (decide (userid = u)) as [<-|Hne].
           ++ right. exists nickname. split; [left | done].
           ++ left. by rewrite lookup_insert_ne in Hu.
        -- right. exists n. split; [by right | done].
      * intros [Hu|(n & [-> | Hn]%elem_of_cons & Hu)].
        -- left. destruct (decide (userid = u)) as [<-|Hne].
           ++ rewrite lookup_insert_eq. by eexists.
           ++ by rewrite lookup_insert_ne.
        -- left. rewrite Hnick in Hu. injection Hu as <-.
           rewrite lookup_insert_eq. by eexists.
        -- right. by exists n.
    + intros Hnone.
      destruct (process_user_session _ _ _ _ Huser) as [Hout _].
      destruct Hout as [-> _]; [apply Hnone; left|].
      apply Hsession. intros n Hn. apply Hnone. by right.
Qed.

(** The entries [process_score] leaves for a dict of scores. *)
Lemma score_entries_spec (scores : gmap (option Z) nat) :
  let entries := map_to_list scores ≫= (λ '(userid, score_value),
                   process_score userid score_value) in
  NoDup entries.*1 ∧
  ∀ userid value, (userid, value) ∈ entries ↔
    scores !! Some userid = Some value ∧ (0 < value)%nat.
Proof.
  simpl.
  assert (∀ k userid (v value : nat),
            (userid, value) ∈ process_score k v ↔
            k = Some userid ∧ v = value ∧ (0 < value)%nat) as Hscore.
  { intros k userid v value. unfold process_score.
    destruct k as [u|]; [|rewrite elem_of_nil; naive_solver].
    destruct (Nat.leb_spec v 0).
    - rewrite elem_of_nil. split; [done|]. intros (_ & -> & ?). lia.
    - rewrite list_elem_of_singleton. split.
      + by intros [= -> ->].
      + by intros ([= ->] & -> & _). }
  assert (∀ l : list (option Z * nat),
            (∀ userid value,
               (userid, value) ∈ l ≫= (λ '(userid, score_value),
                   process_score userid score_value) ↔
               (Some userid, value) ∈ l ∧ (0 < value)%nat)) as Hin.
  { intros l userid value. rewrite list_elem_of_bind. split.
    - intros ([k v] & (-> & -> & ?)%Hscore & Hl). by split.
    - intros [Hl ?]. exists (Some userid, value). split; [|done].
      by apply Hscore. }
  split.
  - pose proof (NoDup_fst_map_to_list scores) as Hnd.
    revert Hnd. generalize (map_to_list scores). intros l.
    induction l as [|[k v] l IH]; [by constructor|].
    rewrite fmap_cons, NoDup_cons. intros [Hk Hnd].
    change ((k, v) :: l) with ([(k, v)] ++ l).
    rewrite bind_app, fmap_app. apply NoDup_app. split_and!.
    + csimpl. rewrite app_nil_r. destruct k as [u|]; simpl; [|constructor].
      destruct (v <=? 0)%nat; simpl; [constructor|].
      apply NoDup_singleton.
    + intros u ([u0 v0] & -> & Hu)%list_elem_of_fmap
               ([u' v'] & Heq & Hin')%list_elem_of_fmap.
      simpl in Heq. subst u'.
      apply Hin in Hin' as [Hin' _].
      apply list_elem_of_bind in Hu as ([k' v''] & Hu & Hk').
      apply list_elem_of_singleton in Hk'. injection Hk' as -> ->.
      apply Hscore in Hu as (-> & _).
      apply Hk. apply list_elem_of_fmap. by exists (Some u0, v').
    + by apply IH.
  - intros userid value. rewrite Hin. by rewrite elem_of_map_to_list.
Qed.

(** The counters of the loop over the reports. *)
Lemma count_reports_counters reports state state' :
  count_reports reports state = Some state' →
  (malformed_reports state'
   + length (filter (λ report, produces_observation report = true) reports)
   = malformed_reports state + length reports)%nat ∧
  ∀ name,
    (obs_count state' name).1 =
    ((obs_count state name).1
     + length (reports ≫= report_observations name))%nat.
Proof.
  revert state. induction reports as [|report reports IH]; intros state.
  - intros [= <-]. simpl. split; [lia|]. intros name. lia.
  - cbn [count_reports]. intros (state1 & Hc & Hr)%bind_Some.
    destruct (IH _ Hr) as [IH1 IH2]. clear IH Hr.
    unfold count_report in Hc.
    apply bind_Some in Hc as ([obs malformed_obs] & Hp & Hc).
    pose proof (produces_observation_any_data _ _ _ Hp) as Hany.
    assert (∀ name, report_observations name report = obs name) as Hobs.
    { intros name. unfold report_observations. by rewrite Hp. }
    split.
    + destruct (existsb _ _) eqn:Hex.
      * apply bind_Some in Hc as (position & _ & Hc). injection Hc as <-.
        rewrite filter_cons_True by done. simpl in *. lia.
      * injection Hc as <-.
        rewrite filter_cons_False by (by rewrite Hany). simpl in *. lia.
    + intros name. rewrite IH2, bind_cons, length_app, Hobs.
      destruct (existsb _ _).
      * apply bind_Some in Hc as (position & _ & Hc). injection Hc as <-.
        simpl. lia.
      * injection Hc as <-. simpl. lia.
Qed.

Lemma format_report_empty item report :
  _format_report item = Some report → has_survivor item = false →
  report = ∅.
Proof.
  unfold _format_report. intros (out & Hout & Hr)%bind_Some Hs.
  destruct (call_spec _ _ Hout) as (Hempty & _).
  apply Hempty in Hs as ->. unfold dict_get in Hr.
  rewrite lookup_empty in Hr. simpl in Hr. injection Hr as <-.
  apply delete_empty.
Qed.

Lemma collect_nothing items state state' :
  collect items state = Some state' →
  (∀ item report, item ∈ items →
     getitem item "report" = Some (PDict report) →
     has_survivor report = false) →
  state' = state.
Proof.
  revert state. induction items as [|item items IH]; intros state.
  - by intros [= <-].
  - cbn [collect]. intros (state1 & Hc & Hr)%bind_Some Hnone.
    rewrite (IH _ Hr) by (intros ? ? ?; apply Hnone; by right).
    unfold collect_item in Hc.
    apply bind_Some in Hc as (r0 & Hr0 & Hc).
    apply bind_Some in Hc as (r1 & Hr1 & Hc).
    apply bind_Some in Hc as (report & Hreport & Hc).
    destruct r0; try done. injection Hr1 as ->.
    apply format_report_empty in Hreport as ->.
    + assert (dict_truthy (∅ : dict) = false) as Hdt
        by by apply dict_truthy_empty.
      rewrite Hdt in Hc. by injection Hc as <-.
    + eapply Hnone; [by left | done].
Qed.

End uploader_users.

(** X13: the loop of [_send] over the nicknames of a batch, each met
    once: [users] holds exactly the nicknames of the batch; a nickname is
    mapped to a userid exactly when it is text of 2 to 128 characters,
    and to [None] otherwise; [scores] holds exactly the values of
    [users], the [None] of the nicknames without a userid among them,
    each with the score 0; and the session is left alone when no
    nickname is inside the window. *)
Theorem nicknames_resolved `{Models} nicknames session session' users scores :
  NoDup nicknames →
  InternalUploader.resolve_users nicknames session ∅ ∅
    = Some (session', users, scores) →
  (∀ nickname, is_Some (users !! nickname) ↔ nickname ∈ nicknames) ∧
  (∀ nickname userid, users !! nickname = Some userid →
     (is_Some userid ↔ resolves nickname = true)) ∧
  (∀ userid, is_Some (scores !! userid) ↔
     ∃ nickname, users !! nickname = Some userid) ∧
  (∀ userid value, scores !! userid = Some value → value = 0%nat) ∧
  ((∀ nickname, nickname ∈ nicknames → resolves nickname = false) →
   session' = session).
Proof.
  intros Hnodup Hloop.
  destruct (resolve_users_maps _ _ _ _ _ _ _ Hnodup Hloop)
    as (Hframe & Hin & Hscores & Hsession).
  destruct (resolve_users_spec _ _ _ _ _ _ _ Hloop) as (Hzero & _).
  { intros k v. by rewrite lookup_empty. }
  { intros n u. by rewrite lookup_empty. }
  split_and!; [| | |done|done].
  - intros nickname. split.
    + intros Hsome. destruct (decide (nickname ∈ nicknames)); [done|].
      rewrite Hframe, lookup_empty in Hsome by done. by destruct Hsome.
    + intros (userid & -> & _)%Hin. by eexists.
  - intros nickname userid Hu.
    destruct (decide (nickname ∈ nicknames)) as [Hn|Hn].
    + destruct (Hin _ Hn) as (userid' & Hu' & _ & Hres). congruence.
    + by rewrite Hframe, lookup_empty in Hu by done.
  - intros userid. rewrite Hscores, lookup_empty. split.
    + intros [[? [=]]|(nickname & _ & ?)]. by exists nickname.
    + intros (nickname & Hu). right. exists nickname. split; [|done].
      destruct (decide (nickname ∈ nicknames)); [done|].
      by rewrite Hframe, lookup_empty in Hu by done.
Qed.

Lemma nicknames_resolved_witness :
  ∃ session' users scores,
    @InternalUploader.resolve_users example_models
      [KStr "alice"; KNone; KStr one_character] [] ∅ ∅
      = Some (session', users, scores) ∧
    (∀ nickname,
       is_Some (users !! nickname) ↔
       nickname ∈ [KStr "alice"; KNone; KStr one_character]) ∧
    (∀ nickname userid, users !! nickname = Some userid →
       (is_Some userid ↔ resolves nickname = true)) ∧
    (∀ userid, is_Some (scores !! userid) ↔
       ∃ nickname, users !! nickname = Some userid) ∧
    (∀ userid value, scores !! userid = Some value → value = 0%nat) ∧
    ((∀ nickname,
        nickname ∈ [KStr "alice"; KNone; KStr one_character] →
        resolves nickname = false) →
     session' = []).
Proof.
  assert (is_Some (@InternalUploader.resolve_users example_models
            [KStr "alice"; KNone; KStr one_character] [] ∅ ∅))
    as [[[session' users] scores] Hloop]
    by (apply (bool_decide_unpack _); vm_compute; exact I).
  exists session', users, scores. split; [exact Hloop|].
  apply (@nicknames_resolved example_models
           [KStr "alice"; KNone; KStr one_character] []
           session' users scores); [|exact Hloop].
  apply (bool_decide_unpack _). vm_compute. exact I.
Defined.

(** X14: the score entries [_send] enqueues name each userid at most
    once, and hold exactly the users whose score in the batch is
    positive, with that score. *)
Theorem score_entries_positive `{Library} `{Models} session data result :
  InternalUploader._send session data = Some result →
  NoDup (InternalUploader.sent_score_entries result).*1 ∧
  ∀ userid value,
    (userid, value) ∈ InternalUploader.sent_score_entries result ↔
    InternalUploader.sent_scores result !! Some userid = Some value ∧
    (0 < value)%nat.
Proof.
  unfold InternalUploader._send. intros (items & Hitems & Hs)%bind_Some.
  apply bind_Some in Hs as (found & Hfound & Hs).
  apply bind_Some in Hs as ([[session' users] scores0] & Husers & Hs).
  apply bind_Some in Hs as (state & Hgroups & Hs).
  injection Hs as <-. simpl. apply score_entries_spec.
Qed.

Lemma score_entries_positive_witness :
  ∃ result,
    @InternalUploader._send example_library example_models [] batch_alice = Some result ∧
    NoDup (InternalUploader.sent_score_entries result).*1 ∧
    ∀ userid value,
      (userid, value) ∈ InternalUploader.sent_score_entries result ↔
      InternalUploader.sent_scores result !! Some userid = Some value ∧
      (0 < value)%nat.
Proof.
  assert (is_Some (@InternalUploader._send example_library example_models [] batch_alice))
    as [result Hsend] by (apply (bool_decide_unpack _); vm_compute; exact I).
  exists result. split; [exact Hsend|].
  apply (@score_entries_positive example_library example_models [] batch_alice result Hsend).
Defined.

(** X15: of the reports [process_reports] is given, those that produce no
    observation are exactly the ones counted as malformed, and the
    [upload] counter of a type is the number of observations the reports
    contribute, which is the number of values queued for the type. *)
Theorem process_reports_counters `{Models} reports userid result :
  InternalUploader.process_reports reports userid = Some result →
  (InternalUploader.result_malformed_reports result
   + length (filter (λ report, produces_observation report = true) reports)
   = length reports)%nat ∧
  ∀ name,
    (InternalUploader.result_obs_count result name).1
      = length (reports ≫= report_observations name) ∧
    length (values_of (InternalUploader.obs_queue result name))
      = (InternalUploader.result_obs_count result name).1.
Proof.
  intros Hp. pose proof Hp as Hp'.
  unfold InternalUploader.process_reports in Hp.
  apply bind_Some in Hp as (state & Hc & Hr). injection Hr as <-. simpl.
  destruct (count_reports_counters _ _ _ Hc) as [Hm Ho]. simpl in Hm, Ho.
  split; [lia|]. intros name. rewrite Ho. split; [done|].
  destruct (process_reports_values _ _ _ name Hp') as [Hv _]. simpl in Hv.
  by rewrite Hv, length_fmap.
Qed.

Lemma process_reports_counters_witness :
  ∃ result,
    @InternalUploader.process_reports example_models two_internal_reports
      None = Some result ∧
    (InternalUploader.result_malformed_reports result
     + length (filter (λ report,
                         @produces_observation example_models report = true)
                 two_internal_reports)
     = length two_internal_reports)%nat ∧
    ∀ name,
      (InternalUploader.result_obs_count result name).1
        = length (two_internal_reports
                  ≫= @report_observations example_models name) ∧
      length (values_of (InternalUploader.obs_queue result name))
        = (InternalUploader.result_obs_count result name).1.
Proof.
  assert (is_Some (@InternalUploader.process_reports example_models
            two_internal_reports None))
    as [result Hresult] by (apply (bool_decide_unpack _); vm_compute; exact I).
  exists result. split; [exact Hresult|].
  apply (@process_reports_counters example_models _ None result Hresult).
Defined.

(** X16: a batch in which no report holds a surviving entry has no
    effect: [_send] adds no user, credits no score, queues no observation
    and hands no position to the datamap. *)
Theorem send_nothing `{Library} `{Models} session items result :
  InternalUploader._send session (PList items) = Some result →
  (∀ item report, item ∈ items →
     getitem item "report" = Some (PDict report) →
     has_survivor report = false) →
  InternalUploader.sent_session result = session ∧
  InternalUploader.sent_score_entries result = [] ∧
  InternalUploader.sent_queued result = [] ∧
  InternalUploader.sent_positions result = [].
Proof.
  unfold InternalUploader._send. simpl.
  intros (found & Hfound & Hs)%bind_Some Hnone.
  apply (collect_nothing _ _ _ Hfound) in Hnone as ->. simpl in Hs.
  rewrite elements_empty, map_to_list_empty in Hs. simpl in Hs.
  injection Hs as <-. simpl. by rewrite !map_to_list_empty.
Qed.

Lemma send_nothing_witness :
  ∃ result,
    @InternalUploader._send example_library example_models [("bob", 7)]
      (PList [internal_envelope (PStr "alice") (wifi_report 1 2 [])])
    = Some result ∧
    InternalUploader.sent_session result = [("bob", 7)] ∧
    InternalUploader.sent_score_entries result = [] ∧
    InternalUploader.sent_queued result = [] ∧
    InternalUploader.sent_positions result = [].
Proof.
  assert (is_Some (@InternalUploader._send example_library example_models [("bob", 7)]
            (PList [internal_envelope (PStr "alice") (wifi_report 1 2 [])])))
    as [result Hsend] by (apply (bool_decide_unpack _); vm_compute; exact I).
  exists result. split; [exact Hsend|].
  apply (@send_nothing example_library example_models [("bob", 7)]
           [internal_envelope (PStr "alice") (wifi_report 1 2 [])]
           result Hsend).
  intros item report ->%list_elem_of_singleton [= <-]. vm_compute; reflexivity.
Defined.

(** ** The internal uploader: routing to the shard queues *)

Section shard_routing.
Context `{Library} `{Models}.
Import InternalUploader.

(** The dict of shards, shard by shard. *)
Lemma shard_fold_lookup name obs (sharded_obs : gmap string (list Observation))
    sid :
  foldl (λ sharded_obs ob,
           <[shard_id name ob :=
               default [] (sharded_obs !! shard_id name ob) ++ [ob]]>
             sharded_obs) sharded_obs obs !! sid =
  match filter (λ ob, shard_id name ob = sid) obs with
  | [] => sharded_obs !! sid
  | l => Some (default [] (sharded_obs !! sid) ++ l)
  end.
Proof.
  revert sharded_obs. induction obs as [|ob obs IH]; intros sharded_obs;
    [done|].
  simpl. rewrite IH, filter_cons.
  destruct (decide (shard_id name ob = sid)) as [<- | Hne].
  - rewrite lookup_insert_eq. simpl.
    destruct (filter _ obs); [done|]. by rewrite <-(assoc_L (++)).
  - by rewrite lookup_insert_ne.
Qed.

Lemma shard_lookup name obs sid :
  shard name obs !! sid =
  match filter (λ ob, shard_id name ob = sid) obs with
  | [] => None
  | l => Some l
  end.
Proof.
  unfold shard. rewrite shard_fold_lookup, lookup_empty.
  by destruct (filter _ obs).
Qed.

(** The queues of a type, key by key. *)
Lemma queue_fold_lookup name (l : list (string * list Observation))
    (obs_queue : gmap string (list value)) queue_id :
  foldl (λ (obs_queue : gmap string (list value)) '(shard_id, values),
           <[queue_prefix name +:+ shard_id :=
               default [] (obs_queue !! (queue_prefix name +:+ shard_id))
               ++ (to_json <$> values)]> obs_queue) obs_queue l !! queue_id =
  match filter (λ kv, queue_prefix name +:+ kv.1 = queue_id) l with
  | [] => obs_queue !! queue_id
  | l' => Some (default [] (obs_queue !! queue_id)
                ++ (to_json <$> mjoin l'.*2))
  end.
Proof.
  revert obs_queue. induction l as [|[sid values] l IH]; intros obs_queue;
    [done|].
  simpl. rewrite IH, filter_cons. simpl.
  destruct (decide (queue_prefix name +:+ sid = queue_id)) as [<- | Hne].
  - rewrite lookup_insert_eq. simpl.
    destruct (filter _ l); simpl.
    + by rewrite app_nil_r.
    + by rewrite <-(assoc_L (++)), !fmap_app.
  - by rewrite lookup_insert_ne.
Qed.

Lemma filter_key {A} (l : list (string * A)) (P : string → Prop)
    `{∀ k, Decision (P k)} k :
  NoDup l.*1 → (∀ k', P k' ↔ k' = k) →
  filter (λ kv, P kv.1) l =
  match list_to_map (M := gmap string A) l !! k with
  | Some v => [(k, v)]
  | None => []
  end.
Proof.
  intros Hnd HP. induction l as [|[k' v] l IH]; [done|].
  apply NoDup_cons in Hnd as [Hk' Hnd]. simpl in Hk'.
  rewrite filter_cons. simpl. rewrite (IH Hnd).
  destruct (decide (P k')) as [->%HP | Hne].
  - rewrite lookup_insert_eq.
    by rewrite (not_elem_of_list_to_map_1 _ _ Hk').
  - rewrite lookup_insert_ne; [done|]. intros <-. by apply Hne, HP.
Qed.

Lemma queue_shards_lookup name (sharded_obs : gmap string (list Observation))
    sid :
  queue_shards name sharded_obs !! (queue_prefix name +:+ sid)
  = fmap to_json <$> sharded_obs !! sid.
Proof.
  unfold queue_shards. rewrite queue_fold_lookup, lookup_empty.
  pose proof (filter_key (map_to_list sharded_obs)
                (λ k, queue_prefix name +:+ k = queue_prefix name +:+ sid)
                sid (NoDup_fst_map_to_list _)) as Hfilter.
  cbv beta in Hfilter. rewrite Hfilter.
  - rewrite list_to_map_to_list.
    destruct (sharded_obs !! sid); simpl; [|done]. by rewrite app_nil_r.
  - intros k'. split; [|by intros ->]. apply (inj _).
Qed.

Lemma queue_shards_keys name (sharded_obs : gmap string (list Observation))
    queue_id :
  is_Some (queue_shards name sharded_obs !! queue_id) →
  ∃ sid, queue_id = queue_prefix name +:+ sid.
Proof.
  unfold queue_shards. rewrite queue_fold_lookup, lookup_empty.
  destruct (filter _ _) as [|[sid values] l] eqn:Hf; [by intros [? [=]]|].
  intros _. exists sid.
  assert ((sid, values) ∈ filter (λ kv : string * list Observation,
            queue_prefix name +:+ kv.1 = queue_id)
            (map_to_list sharded_obs)) as Hin by (rewrite Hf; by left).
  by apply list_elem_of_filter in Hin as [<- _].
Qed.

Lemma process_reports_queue reports userid result name :
  process_reports reports userid = Some result →
  (∀ sid,
     obs_queue result name !! (queue_prefix name +:+ sid) =
     match filter (λ ob, shard_id name ob = sid)
             (reports ≫= report_observations name) with
     | [] => None
     | l => Some (to_json <$> l)
     end) ∧
  (∀ queue_id, is_Some (obs_queue result name !! queue_id) →
     ∃ sid, queue_id = queue_prefix name +:+ sid).
Proof.
  unfold process_reports. intros (state & Hc & Hr)%bind_Some.
  injection Hr as <-. simpl.
  destruct (count_reports_observations _ _ _ name Hc) as [Hobs _].
  simpl in Hobs. rewrite <-Hobs.
  destruct (observations state name) as [|ob obs] eqn:Hstate.
  - cbn [nonempty]. split; [intros sid; by rewrite lookup_empty|].
    intros queue_id. rewrite lookup_empty. by intros [? [=]].
  - cbn [nonempty]. split.
    + intros sid. rewrite queue_shards_lookup, shard_lookup.
      by destruct (filter _ _).
    + apply queue_shards_keys.
Qed.

End shard_routing.

(** X17: the queue [update_<type>_<shard>] that [process_reports] fills
    holds exactly the observations of the type whose shard id is that
    shard, encoded and in the order the reports produced them; a shard
    without observation has no entry, and no other key is written. *)
Theorem shard_queues `{Models} reports userid result name :
  InternalUploader.process_reports reports userid = Some result →
  (∀ sid,
     InternalUploader.obs_queue result name !! (queue_prefix name +:+ sid) =
     match filter (λ ob, shard_id name ob = sid)
             (reports ≫= report_observations name) with
     | [] => None
     | l => Some (to_json <$> l)
     end) ∧
  (∀ queue_id,
     is_Some (InternalUploader.obs_queue result name !! queue_id) →
     ∃ sid, queue_id = queue_prefix name +:+ sid).
Proof. apply process_reports_queue. Qed.

Lemma shard_queues_witness :
  ∃ result,
    @InternalUploader.process_reports example_models two_internal_reports
      None = Some result ∧
    (∀ sid,
       InternalUploader.obs_queue result wifi !! (queue_prefix wifi +:+ sid) =
       match filter (λ ob, @shard_id example_models wifi ob = sid)
               (two_internal_reports
                ≫= @report_observations example_models wifi) with
       | [] => None
       | l => Some (@to_json example_models <$> l)
       end) ∧
    (∀ queue_id,
       is_Some (InternalUploader.obs_queue result wifi !! queue_id) →
       ∃ sid, queue_id = queue_prefix wifi +:+ sid).
Proof.
  assert (is_Some (@InternalUploader.process_reports example_models
            two_internal_reports None))
    as [result Hresult] by (apply (bool_decide_unpack _); vm_compute; exact I).
  exists result. split; [exact Hresult|].
  apply (@shard_queues example_models _ None result wifi Hresult).
Defined.

(** ** Partition keys and the object-store uploader *)

Section text_facts.

Lemma string_app_cons x (a b : string) : String x a +:+ b = String x (a +:+ b).
Proof. reflexivity. Qed.

Lemma string_app_assoc (a b c : string) : (a +:+ b) +:+ c = a +:+ (b +:+ c).
Proof.
  induction a as [|x a IH]; [done|]. by rewrite !string_app_cons, IH.
Qed.

Lemma string_app_nil_r (a : string) : a +:+ "" = a.
Proof.
  induction a as [|x a IH]; [done|]. by rewrite string_app_cons, IH.
Qed.

Lemma list_ascii_of_string_app a b :
  String.list_ascii_of_string (a +:+ b)
  = String.list_ascii_of_string a ++ String.list_ascii_of_string b.
Proof.
  induction a as [|c a IH]; [done|].
  rewrite string_app_cons. simpl. by rewrite IH.
Qed.

End text_facts.

Section partition_facts.
Import S3Uploader.

Lemma split_last_from_app a b piece :
  split_last_from (a +:+ ":" +:+ b) piece = split_last_from b "".
Proof.
  revert piece. induction a as [|c a IH]; intros piece; [done|].
  rewrite string_app_cons. cbn [split_last_from].
  destruct (String.eqb (String c "") ":"); apply IH.
Qed.

Lemma split_last_from_no_colon s piece :
  no_colon s → split_last_from s piece = piece +:+ s.
Proof.
  unfold no_colon. revert piece.
  induction s as [|c s IH]; intros piece;
    cbn [split_last_from String.list_ascii_of_string].
  - intros _. by rewrite string_app_nil_r.
  - intros [Hc Hs]%Forall_cons. rewrite Hc, (IH _ Hs).
    by rewrite string_app_assoc.
Qed.

Lemma lstrip_slash_head path :
  String.prefix "/" (lstrip_slash path) = false.
Proof.
  induction path as [|c path IH]; [done|].
  cbn [lstrip_slash]. destruct (String.eqb (String c "") "/") eqn:Hc; [done|].
  cbn [String.prefix]. cbn [String.eqb] in Hc.
  destruct (Ascii.ascii_dec _ c) as [<-|Hne]; [|done].
  by rewrite Ascii.eqb_refl in Hc.
Qed.

Lemma endswith_slash_true path :
  endswith_slash path = true → ∃ body, path = body +:+ "/".
Proof.
  induction path as [|c path IH]; [done|].
  destruct path as [|c' path].
  - cbn [endswith_slash]. intros Hc%String.eqb_eq. exists "". by rewrite Hc.
  - intros Hend. change (endswith_slash (String c' path) = true) in Hend.
    destruct (IH Hend) as [body Hbody]. exists (String c body).
    by rewrite string_app_cons, <-Hbody.
Qed.

End partition_facts.

(** X18: the api key the object-store uploader reads off its partition
    key (the text after the last colon) is the text after the last colon
    of what the queue appended for the api key: the api key itself, or
    [no_key] for a null or empty one, whenever that holds no colon. *)
Theorem s3_api_key_round_trip queue api_key queue_key' :
  klass queue = S3ExportQueue →
  queue_key queue api_key = Some queue_key' →
  S3Uploader.api_key queue_key'
    = S3Uploader.api_key (partition_suffix api_key) ∧
  (no_colon (partition_suffix api_key) →
   S3Uploader.api_key queue_key' = partition_suffix api_key).
Proof.
  intros Hklass Hkey. unfold queue_key in Hkey. rewrite Hklass in Hkey.
  assert (queue_key' = name queue +:+ ":" +:+ partition_suffix api_key)
    as ->.
  { destruct api_key as [|n d|s|t]; simpl in Hkey.
    - by injection Hkey as <-.
    - destruct (n =? 0); simpl in Hkey; [by injection Hkey as <- | done].
    - unfold partition_suffix. destruct (String.eqb s ""); simpl in Hkey;
        by injection Hkey as <-.
    - done. }
  unfold S3Uploader.api_key. rewrite split_last_from_app. split; [done|].
  intros Hno. by rewrite (split_last_from_no_colon _ _ Hno).
Qed.

Lemma s3_api_key_round_trip_witness :
  S3Uploader.api_key "queue_export_backup:no_key"
    = S3Uploader.api_key (partition_suffix KNone) ∧
  (no_colon (partition_suffix KNone) →
   S3Uploader.api_key "queue_export_backup:no_key" = partition_suffix KNone).
Proof.
  apply (s3_api_key_round_trip s3_queue KNone "queue_export_backup:no_key");
    reflexivity.
Defined.

(** X19: the path the object-store uploader builds its key names from
    always ends with a slash, and starts with one only when the path of
    the URL holds nothing but slashes, in which case it is the single
    slash. *)
Theorem s3_path_template path :
  (∃ body, S3Uploader.path_template path = body +:+ "/") ∧
  (String.prefix "/" (S3Uploader.path_template path) = true →
   S3Uploader.lstrip_slash path = "" ∧ S3Uploader.path_template path = "/").
Proof.
  unfold S3Uploader.path_template.
  pose proof (lstrip_slash_head path) as Hhead.
  destruct (S3Uploader.endswith_slash (S3Uploader.lstrip_slash path)) eqn:He.
  - split; [by apply endswith_slash_true|].
    intros Hprefix. by rewrite Hhead in Hprefix.
  - split; [eexists; reflexivity|].
    destruct (S3Uploader.lstrip_slash path) as [|c rest]; [done|].
    rewrite string_app_cons. cbn [String.prefix] in *.
    intros Hprefix. destruct (Ascii.ascii_dec _ c); [|discriminate Hprefix].
    by destruct rest.
Qed.

(** ** The metric tag and the skip keys *)

Section settings_facts.
Context `{Library}.



(** *** The characters of a text *)

Lemma characters_nil s : characters s = [] → s = "".
Proof.
  destruct s as [|c s]; [done|]. cbn [characters].
  destruct (characters s) as [|character rest]; [done|].
  by destruct (continues character).
Qed.

(** The first character starts where the text starts. *)
Lemma characters_head s character rest :
  characters s = character :: rest → continues character = continues s.
Proof.
  destruct s as [|c s]; [done|]. cbn [characters].
  destruct (characters s) as [|character' rest']; [by intros [= <- <-]|].
  destruct (continues character'); by intros [= <- <-].
Qed.

Lemma continues_app a b : a ≠ "" → continues (a +:+ b) = continues a.
Proof. by destruct a. Qed.

(** The characters of two texts, the second of which starts with a
    character. *)
Lemma characters_app a b :
  continues b = false →
  characters (a +:+ b) = characters a ++ characters b.
Proof.
  intros Hb. induction a as [|c a IH]; [done|].
  rewrite string_app_cons. cbn [characters]. rewrite IH.
  destruct (characters a) as [|character rest] eqn:Ha;
    [|cbn [app]; by destruct (continues character)].
  apply characters_nil in Ha as ->. cbn [app characters].
  destruct (characters b) as [|character rest] eqn:Hchars; [done|].
  by rewrite (characters_head _ _ _ Hchars), Hb.
Qed.

Lemma joined_app l1 l2 : joined (l1 ++ l2) = joined l1 +:+ joined l2.
Proof.
  induction l1 as [|x l1 IH]; [done|].
  cbn [app joined foldr]. fold (joined (l1 ++ l2)). fold (joined l1).
  by rewrite IH, string_app_assoc.
Qed.

(** A text is its characters, one after the other. *)
Lemma joined_characters s : joined (characters s) = s.
Proof.
  induction s as [|c s IH]; [done|]. cbn [characters].
  destruct (characters s) as [|character rest]; [by rewrite <-IH|].
  destruct (continues character); by rewrite <-IH.
Qed.

(** The characters of a text are single characters, and all but the first
    start with a byte that is not a continuation byte. *)
Lemma characters_single s :
  Forall (λ character, characters character = [character]) (characters s) ∧
  Forall (λ character, continues character = false) (tail (characters s)).
Proof.
  induction s as [|c s [IH1 IH2]]; [by split|]. cbn [characters].
  destruct (characters s) as [|character rest]; [by split; repeat constructor|].
  apply Forall_cons in IH1 as [Hsingle IH1]. cbn [tail] in IH2.
  destruct (continues character) eqn:Hc.
  - split; [|done]. constructor; [|done].
    cbn [characters]. by rewrite Hsingle, Hc.
  - split; [by repeat constructor|]. cbn [tail]. by constructor.
Qed.

(** Single characters, all but the first starting with a byte that is not
    a continuation byte, are the characters of their text. *)
Lemma characters_joined l :
  Forall (λ character, characters character = [character]) l →
  Forall (λ character, continues character = false) (tail l) →
  characters (joined l) = l.
Proof.
  induction l as [|character l IH]; [done|].
  intros [Hsingle Hl]%Forall_cons Htail. cbn [tail] in Htail.
  cbn [joined foldr]. fold (joined l).
  destruct l as [|character' l].
  - cbn [joined foldr]. by rewrite string_app_nil_r.
  - apply Forall_cons in Htail as [Hc Htail].
    rewrite characters_app, Hsingle, IH; [done | done | done |].
    cbn [joined foldr]. rewrite continues_app; [done|].
    apply Forall_cons in Hl as [Hsingle' _]. by intros ->.
Qed.

(** *** The split at white space *)

(** Every piece of a split is free of white space: the piece the split
    starts from is made of the characters [held], which are free of it
    and are followed by the characters of [text]. *)
Lemma WHITESPACE_split_from_pieces held text :
  Forall (λ character, characters character = [character]) (held ++ text) →
  Forall (λ character, continues character = false) (tail (held ++ text)) →
  Forall (λ character, WHITESPACE character = false) held →
  Forall no_whitespace (WHITESPACE_split_from text (joined held)).
Proof.
  revert held. induction text as [|character text IH];
    intros held Hsingle Htail Hheld; cbn [WHITESPACE_split_from].
  - rewrite app_nil_r in Hsingle, Htail. apply Forall_singleton.
    unfold no_whitespace. by rewrite characters_joined.
  - assert (no_whitespace (joined held)) as Hpiece.
    { unfold no_whitespace. rewrite characters_joined; [done| |].
      - by apply Forall_app in Hsingle as [? _].
      - destruct held as [|first held]; [done|]. cbn [app tail] in *.
        by apply Forall_app in Htail as [? _]. }
    destruct (WHITESPACE character) eqn:Hc.
    + constructor; [done|]. apply (IH []); [| |done].
      * apply Forall_app in Hsingle as [_ Hsingle].
        by apply Forall_cons in Hsingle as [_ ?].
      * destruct held as [|first held]; cbn [app tail] in *.
        -- by apply Forall_tail.
        -- apply Forall_app in Htail as [_ Htail].
           apply Forall_cons in Htail as [_ Htail]. by apply Forall_tail.
    + replace (joined held +:+ character)
        with (joined (held ++ [character]))
        by (rewrite joined_app; cbn [joined foldr];
            by rewrite string_app_nil_r).
      apply IH.
      * by rewrite <-(assoc_L (++)).
      * by rewrite <-(assoc_L (++)).
      * apply Forall_app. split; [done|]. by apply Forall_singleton.
Qed.

(** Characters free of white space go to the piece. *)
Lemma WHITESPACE_split_from_word word text piece :
  Forall (λ character, WHITESPACE character = false) word →
  WHITESPACE_split_from (word ++ text) piece
  = WHITESPACE_split_from text (piece +:+ joined word).
Proof.
  revert piece. induction word as [|character word IH]; intros piece.
  - intros _. cbn [app joined foldr]. by rewrite string_app_nil_r.
  - intros [Hc Hword]%Forall_cons. cbn [app WHITESPACE_split_from].
    rewrite Hc, (IH _ Hword). cbn [joined foldr]. fold (joined word).
    by rewrite string_app_assoc.
Qed.

(** The space is white space for every library. *)
Lemma WHITESPACE_space : WHITESPACE " " = true.
Proof.
  unfold WHITESPACE.
  rewrite (isspace_ascii (Ascii.ascii_of_nat 32)); [done|].
  vm_compute. lia.
Qed.

(** Keys joined by single spaces are split into themselves. *)
Lemma WHITESPACE_split_concat (keys : list string) :
  Forall (λ k, k ≠ "" ∧ whole k ∧ no_whitespace k) keys →
  filter (λ skip_key, negb (String.eqb skip_key "") = true)
    (WHITESPACE_split (String.concat " " keys)) = keys.
Proof.
  unfold WHITESPACE_split.
  assert (∀ k, k ≠ "" → negb (String.eqb k "") = true) as Hne.
  { intros k Hk. apply negb_true_iff, String.eqb_neq. done. }
  induction 1 as [|k keys (Hk & Hwhole & Hws) Hkeys IH]; [done|].
  destruct keys as [|k' keys].
  - cbn [String.concat].
    rewrite <-(app_nil_r (characters k)).
    rewrite (WHITESPACE_split_from_word _ _ _ Hws).
    cbn [WHITESPACE_split_from]. change ("" +:+ joined (characters k))
      with (joined (characters k)). rewrite joined_characters.
    rewrite filter_cons_True by by apply Hne. done.
  - change (String.concat " " (k :: k' :: keys))
      with (k +:+ (" " +:+ String.concat " " (k' :: keys))).
    assert (continues (String.concat " " (k' :: keys)) = false) as Hrest.
    { apply Forall_cons in Hkeys as [(Hk' & Hwhole' & _) _].
      destruct keys as [|k'' keys]; [done|].
      change (String.concat " " (k' :: k'' :: keys))
        with (k' +:+ (" " +:+ String.concat " " (k'' :: keys))).
      by rewrite continues_app. }
    rewrite characters_app by done.
    rewrite (characters_app " ") by done.
    rewrite (WHITESPACE_split_from_word _ _ _ Hws).
    change ("" +:+ joined (characters k)) with (joined (characters k)).
    rewrite joined_characters.
    change (characters " ") with [" "]. cbn [app WHITESPACE_split_from].
    rewrite WHITESPACE_space.
    rewrite filter_cons_True by by apply Hne.
    by rewrite IH.
Qed.

End settings_facts.


(** X21: every skip key of a queue built by [configure_queue] is text
    that is not empty and holds no character that the library takes for
    white space; so the queue never skips a null api key. *)
Theorem configured_skip_keys `{Library} cls key settings compress queue :
  configure_queue cls key settings compress = Some queue →
  (∀ k, k ∈ skip_keys queue → ∃ s, k = KStr s ∧ s ≠ "" ∧ no_whitespace s) ∧
  export_allowed queue KNone = true.
Proof.
  unfold configure_queue. intros Hq.
  apply bind_Some in Hq as (u & _ & Hq).
  apply bind_Some in Hq as (b & _ & Hq).
  apply bind_Some in Hq as (sk & _ & Hq).
  assert (skip_keys queue =
          KStr <$> filter (λ skip_key, negb (String.eqb skip_key "") = true)
                     (WHITESPACE_split sk)) as Hkeys.
  { destruct (queue_types (urlparse_scheme u)) as [[k up]|];
      by injection Hq as <-. }
  rewrite Hkeys. split.
  - intros k (s & -> & [Hs Hin]%list_elem_of_filter)%list_elem_of_fmap.
    exists s. split_and!; [done | |].
    + intros ->. done.
    + destruct (characters_single sk) as [Hsingle Htail].
      pose proof (WHITESPACE_split_from_pieces [] (characters sk)
                    Hsingle Htail ltac:(constructor)) as Hall.
      rewrite Forall_forall in Hall. by apply Hall.
  - unfold export_allowed. apply bool_decide_eq_true. rewrite Hkeys.
    by intros (s & [=] & _)%list_elem_of_fmap.
Qed.

Lemma configured_skip_keys_witness :
  (∀ k, k ∈ skip_keys
          {| klass := ExportQueue; name := "queue_export_test"; url := "";
             batch := 0; skip_keys := [KStr "a"; KStr "b"];
             uploader_type := None; compress := false |} →
     ∃ s, k = KStr s ∧ s ≠ "" ∧ @no_whitespace example_library s) ∧
  export_allowed
    {| klass := ExportQueue; name := "queue_export_test"; url := "";
       batch := 0; skip_keys := [KStr "a"; KStr "b"];
       uploader_type := None; compress := false |} KNone = true.
Proof.
  apply (@configured_skip_keys example_library ExportQueue
           "queue_export_test" {[ "skip_keys" := PStr " a  b " ]} false).
  vm_compute; reflexivity.
Defined.

(** X22: when the setting [skip_keys] lists keys that are not empty,
    start with a character and hold no character that is white space,
    separated by single spaces, the queue skips exactly those keys, in
    that order. *)
Theorem configured_skip_keys_round_trip `{Library} cls key settings compress
    queue keys :
  configure_queue cls key settings compress = Some queue →
  settings !! "skip_keys" = Some (PStr (String.concat " " keys)) →
  Forall (λ k, k ≠ "" ∧ whole k ∧ no_whitespace k) keys →
  skip_keys queue = KStr <$> keys ∧
  ∀ k, export_allowed queue (KStr k) = false ↔ k ∈ keys.
Proof.
  unfold configure_queue. intros Hq Hsetting Hkeys.
  apply bind_Some in Hq as (u & _ & Hq).
  apply bind_Some in Hq as (b & _ & Hq).
  rewrite Hsetting in Hq. simpl in Hq.
  rewrite (WHITESPACE_split_concat _ Hkeys) in Hq.
  assert (skip_keys queue = KStr <$> keys) as Hskip.
  { destruct (queue_types (urlparse_scheme u)) as [[k up]|];
      by injection Hq as <-. }
  split; [done|]. intros k. unfold export_allowed.
  rewrite bool_decide_eq_false, Hskip. split.
  - intros Hin%dec_stable.
    by apply list_elem_of_fmap in Hin as (k' & [= ->] & ?).
  - intros Hin Hnot. apply Hnot. by apply list_elem_of_fmap_2.
Qed.

Lemma configured_skip_keys_round_trip_witness :
  skip_keys
    {| klass := ExportQueue; name := "queue_export_test"; url := "";
       batch := 0; skip_keys := [KStr "a"; KStr "b"];
       uploader_type := None; compress := false |}
  = KStr <$> ["a"; "b"] ∧
  ∀ k, export_allowed
         {| klass := ExportQueue; name := "queue_export_test"; url := "";
            batch := 0; skip_keys := [KStr "a"; KStr "b"];
            uploader_type := None; compress := false |} (KStr k) = false
       ↔ k ∈ ["a"; "b"].
Proof.
  apply (@configured_skip_keys_round_trip example_library ExportQueue
           "queue_export_test" {[ "skip_keys" := PStr "a b" ]} false).
  - vm_compute; reflexivity.
  - reflexivity.
  - repeat constructor; done.
Defined.

(** ** The datamap *)

Section datamap_facts.
Context `{DataMaps}.

(** The grids the first loop leaves: those it started from and the
    scaled positions that have both coordinates. *)
Lemma scale_positions_elem positions grids grids' :
  scale_positions positions grids = Some grids' →
  ∀ grid, grid ∈ grids' ↔
    grid ∈ grids ∨
    ∃ lat lon, (lat, lon) ∈ positions ∧ located (lat, lon) ∧
      DataMap_scale lat lon = Some grid.
Proof.
  revert grids. induction positions as [|[lat lon] positions IH];
    intros grids; cbn [scale_positions].
  - intros [= <-] grid. split; [by left|].
    intros [?|(? & ? & []%elem_of_nil & _)]; done.
  - destruct (decide _) as [Hloc|Hloc].
    + intros (scaled & Hscale & Hrest)%bind_Some grid.
      rewrite (IH _ Hrest grid), elem_of_union, elem_of_singleton. split.
      * intros [[?| ->]|(lat' & lon' & ? & ? & ?)]; [by left | |].
        -- right. exists lat, lon. split_and!; [left | done | done].
        -- right. exists lat', lon'. split_and!; [by right | done | done].
      * intros [?|(lat' & lon' & Hin & Hl & Hs)]; [by left; left|].
        apply elem_of_cons in Hin as [[= -> ->]|Hin].
        -- left; right. congruence.
        -- right. by exists lat', lon'.
    + intros Hrest grid. rewrite (IH _ Hrest grid). split.
      * intros [?|(lat' & lon' & ? & ? & ?)]; [by left|].
        right. exists lat', lon'. split_and!; [by right | done | done].
      * intros [?|(lat' & lon' & Hin & Hl & Hs)]; [by left|].
        apply elem_of_cons in Hin as [[= -> ->]|Hin]; [done|].
        right. by exists lat', lon'.
Qed.

(** The first loop raises exactly when a position that has both
    coordinates cannot be scaled. *)
Lemma scale_positions_None positions grids :
  scale_positions positions grids = None ↔
  ∃ lat lon, (lat, lon) ∈ positions ∧ located (lat, lon) ∧
    DataMap_scale lat lon = None.
Proof.
  revert grids. induction positions as [|[lat lon] positions IH];
    intros grids; cbn [scale_positions].
  - split; [done|]. by intros (? & ? & []%elem_of_nil & _).
  - destruct (decide _) as [Hloc|Hloc].
    + destruct (DataMap_scale lat lon) as [scaled|] eqn:Hscale; simpl.
      * rewrite IH. split.
        -- intros (lat' & lon' & ? & ? & ?).
           exists lat', lon'. split_and!; [by right | done | done].
        -- intros (lat' & lon' & Hin & Hl & Hs).
           apply elem_of_cons in Hin as [[= -> ->]|Hin]; [congruence|].
           by exists lat', lon'.
      * split; [|done]. intros _. exists lat, lon.
        split_and!; [left | done | done].
    + rewrite IH. split.
      * intros (lat' & lon' & ? & ? & ?).
        exists lat', lon'. split_and!; [by right | done | done].
      * intros (lat' & lon' & Hin & Hl & Hs).
        apply elem_of_cons in Hin as [[= -> ->]|Hin]; [done|].
        by exists lat', lon'.
Qed.

(** The values the second loop leaves for a shard. *)
Lemma shard_grids_from (grids : list (Z * Z))
    (shards : gmap string (gset string)) sid v :
  v ∈ default ∅
        (foldl (λ (shards : gmap string (gset string)) '(lat, lon),
                  <[DataMap_shard_id lat lon :=
                      default ∅ (shards !! DataMap_shard_id lat lon)
                      ∪ {[ encode_datamap_grid lat lon ]}]> shards)
           shards grids !! sid) ↔
  v ∈ default ∅ (shards !! sid) ∨
  ∃ lat lon, (lat, lon) ∈ grids ∧ DataMap_shard_id lat lon = sid ∧
    encode_datamap_grid lat lon = v.
Proof.
  revert shards. induction grids as [|[lat lon] grids IH]; intros shards;
    cbn [foldl].
  - split; [by left|]. intros [?|(? & ? & []%elem_of_nil & _)]; done.
  - rewrite IH. clear IH.
    destruct (decide (DataMap_shard_id lat lon = sid)) as [<-|Hne].
    + rewrite lookup_insert_eq. simpl (default _ (Some _)).
      rewrite elem_of_union, elem_of_singleton. split.
      * intros [[?| ->]|(lat' & lon' & ? & ? & ?)]; [by left | |].
        -- right. exists lat, lon. split_and!; [left | done | done].
        -- right. exists lat', lon'. split_and!; [by right | done | done].
      * intros [?|(lat' & lon' & Hin & Hs & He)]; [by left; left|].
        apply elem_of_cons in Hin as [[= -> ->]|Hin]; [by left; right|].
        right. by exists lat', lon'.
    + rewrite lookup_insert_ne by done. split.
      * intros [?|(lat' & lon' & ? & ? & ?)]; [by left|].
        right. exists lat', lon'. split_and!; [by right | done | done].
      * intros [?|(lat' & lon' & Hin & Hs & He)]; [by left|].
        apply elem_of_cons in Hin as [[= -> ->]|Hin]; [done|].
        right. by exists lat', lon'.
Qed.

(** No shard is left with an empty set. *)
Lemma shard_grids_inhabited (grids : list (Z * Z))
    (shards : gmap string (gset string)) :
  (∀ sid values, shards !! sid = Some values → values ≠ ∅) →
  ∀ sid values,
    foldl (λ (shards : gmap string (gset string)) '(lat, lon),
             <[DataMap_shard_id lat lon :=
                 default ∅ (shards !! DataMap_shard_id lat lon)
                 ∪ {[ encode_datamap_grid lat lon ]}]> shards)
      shards grids !! sid = Some values →
    values ≠ ∅.
Proof.
  revert shards. induction grids as [|[lat lon] grids IH]; intros shards Hinv;
    cbn [foldl]; [done|].
  apply IH. intros sid values.
  destruct (decide (DataMap_shard_id lat lon = sid)) as [<-|Hne].
  - rewrite lookup_insert_eq. intros [= <-]. set_solver.
  - rewrite lookup_insert_ne by done. apply Hinv.
Qed.

(** What [process_datamap] enqueues. *)
Lemma process_datamap_spec positions calls :
  process_datamap positions = Some calls →
  NoDup calls.*1 ∧
  (∀ queue values, (queue, values) ∈ calls →
     values ≠ [] ∧ NoDup values ∧ ∃ sid, queue = "update_datamap_" +:+ sid) ∧
  (∀ sid v,
     (∃ values, ("update_datamap_" +:+ sid, values) ∈ calls ∧ v ∈ values) ↔
     ∃ lat lon grid, (lat, lon) ∈ positions ∧ located (lat, lon) ∧
       DataMap_scale lat lon = Some grid ∧
       DataMap_shard_id grid.1 grid.2 = sid ∧
       encode_datamap_grid grid.1 grid.2 = v).
Proof.
  unfold process_datamap. intros (grids & Hgrids & [= <-])%bind_Some.
  pose proof (scale_positions_elem _ _ _ Hgrids) as Hscaled.
  assert (∀ queue values,
    (queue, values) ∈
      (λ '(shard_id, values),
         ("update_datamap_" +:+ shard_id, elements (values : gset string)))
        <$> map_to_list (shard_grids (elements grids)) ↔
    ∃ sid (set : gset string), shard_grids (elements grids) !! sid = Some set ∧
      queue = "update_datamap_" +:+ sid ∧ values = elements set) as Hcalls.
  { intros queue values. rewrite list_elem_of_fmap. split.
    - intros ([sid set] & [= -> ->] & Hin%elem_of_map_to_list).
      by exists sid, set.
    - intros (sid & set & Hin & -> & ->). exists (sid, set).
      split; [done|]. by apply elem_of_map_to_list. }
  split_and!.
  - assert (∀ l : list (string * gset string),
      ((λ '(shard_id, values),
          ("update_datamap_" +:+ shard_id, elements (values : gset string)))
         <$> l).*1 = String.app "update_datamap_" <$> l.*1) as ->.
    { intros l. induction l as [|[sid set] l IHl]; [done|].
      rewrite !fmap_cons, IHl. done. }
    apply NoDup_fmap_2; [apply _|]. apply NoDup_fst_map_to_list.
  - intros queue values (sid & set & Hin & -> & ->)%Hcalls. split_and!.
    + intros Hnil%elements_empty_inv%leibniz_equiv.
      by apply (shard_grids_inhabited (elements grids) ∅
                  ltac:(intros ? ?; by rewrite lookup_empty) sid set).
    + apply NoDup_elements.
    + by exists sid.
  - intros sid v. split.
    + intros (values & (sid' & set & Hin & Heq & ->)%Hcalls & Hv).
      apply (inj _) in Heq as <-. apply elem_of_elements in Hv.
      assert (v ∈ default ∅ (shard_grids (elements grids) !! sid)) as Hd
        by by rewrite Hin.
      apply shard_grids_from in Hd as [Hd|(lat & lon & Hg & Hs & He)].
      { by rewrite lookup_empty in Hd. }
      apply elem_of_elements, Hscaled in Hg
        as [[]%elem_of_empty|(lat' & lon' & ? & ? & ?)].
      by exists lat', lon', (lat, lon).
    + intros (lat & lon & [glat glon] & Hin & Hloc & Hs & Hsid & He).
      assert (v ∈ default ∅ (shard_grids (elements grids) !! sid)) as Hd.
      { apply shard_grids_from. right. exists glat, glon.
        split_and!; [|done|done].
        apply elem_of_elements, Hscaled. right. by exists lat, lon. }
      destruct (shard_grids (elements grids) !! sid) as [set|] eqn:Hset;
        [|by apply elem_of_empty in Hd].
      exists (elements set). split; [|by apply elem_of_elements].
      apply Hcalls. by exists sid, set.
Qed.

(** Lists with the same positions that have both coordinates are
    handled alike. *)
Lemma process_datamap_same positions positions' :
  (∀ position, located position →
     position ∈ positions ↔ position ∈ positions') →
  process_datamap positions = process_datamap positions'.
Proof.
  intros Hsame. unfold process_datamap.
  destruct (scale_positions positions ∅) as [grids|] eqn:Hg;
    destruct (scale_positions positions' ∅) as [grids'|] eqn:Hg'.
  - assert (grids = grids') as ->; [|done].
    apply set_eq. intros grid.
    rewrite (scale_positions_elem _ _ _ Hg grid),
      (scale_positions_elem _ _ _ Hg' grid).
    split; (intros [?|(lat & lon & Hin & Hloc & Hs)]; [by left|]; right;
      exists lat, lon; split_and!; [by apply (Hsame _ Hloc) | done | done]).
  - apply scale_positions_None in Hg' as (lat & lon & Hin & Hloc & Hs).
    apply (Hsame _ Hloc) in Hin.
    pose proof (proj2 (scale_positions_None positions ∅)
                  (ex_intro _ lat (ex_intro _ lon (conj Hin (conj Hloc Hs))))).
    congruence.
  - apply scale_positions_None in Hg as (lat & lon & Hin & Hloc & Hs).
    apply (Hsame _ Hloc) in Hin.
    pose proof (proj2 (scale_positions_None positions' ∅)
                  (ex_intro _ lat (ex_intro _ lon (conj Hin (conj Hloc Hs))))).
    congruence.
  - done.
Qed.

End datamap_facts.

(** X23: what [process_datamap] enqueues when it returns: every queue
    gets one list, which is not empty and holds no value twice, and a
    value is enqueued to the queue of a shard exactly when it encodes the
    grid of a position with both coordinates that scales into that
    shard. *)
Theorem datamap_queues `{DataMaps} positions calls :
  process_datamap positions = Some calls →
  NoDup calls.*1 ∧
  (∀ queue values, (queue, values) ∈ calls →
     values ≠ [] ∧ NoDup values ∧ ∃ sid, queue = "update_datamap_" +:+ sid) ∧
  (∀ sid v,
     (∃ values, ("update_datamap_" +:+ sid, values) ∈ calls ∧ v ∈ values) ↔
     ∃ lat lon grid, (lat, lon) ∈ positions ∧ located (lat, lon) ∧
       DataMap_scale lat lon = Some grid ∧
       DataMap_shard_id grid.1 grid.2 = sid ∧
       encode_datamap_grid grid.1 grid.2 = v).
Proof. apply process_datamap_spec. Qed.

(** X24: [process_datamap] looks only at the set of positions that have
    both coordinates: two lists that hold the same such positions, in any
    order and any number of times, lead to the same calls, or both
    raise. *)
Theorem datamap_set_of_positions `{DataMaps} positions positions' :
  (∀ position, located position →
     position ∈ positions ↔ position ∈ positions') →
  process_datamap positions = process_datamap positions'.
Proof. apply process_datamap_same. Qed.

(** X25: [process_datamap] raises exactly when [DataMap.scale] raises on
    a position that has both coordinates; a position with a null
    coordinate is never handed to it. *)
Theorem datamap_raises `{DataMaps} positions :
  process_datamap positions = None ↔
  ∃ lat lon, (lat, lon) ∈ positions ∧ located (lat, lon) ∧
    DataMap_scale lat lon = None.
Proof.
  rewrite <-(scale_positions_None positions ∅). unfold process_datamap.
  destruct (scale_positions positions ∅); naive_solver.
Qed.

(** ** The stats *)

Section stats_facts.
Context `{Library} `{ApiKeys}.

Lemma elem_of_if {A} (b : bool) (x y : A) :
  y ∈ (if b then [x] else []) ↔ b = true ∧ y = x.
Proof.
  destruct b.
  - rewrite list_elem_of_singleton. naive_solver.
  - split; [by intros []%elem_of_nil | by intros [? _]].
Qed.

Lemma if_nil {A} (b : bool) (x : A) :
  (if b then [x] else []) = [] ↔ b = false.
Proof. by destruct b. Qed.

(** The key tag never reads [reason:malformed]. *)
Lemma api_tag_not_malformed session api_key :
  "reason:malformed" ∉ api_tag session api_key.
Proof.
  unfold api_tag.
  destruct (if decide (api_key = KNone) then None
            else ApiKey_get session api_key) as [known|];
    [|by apply not_elem_of_nil].
  destruct (should_log known "submit"); [|by apply not_elem_of_nil].
  by intros [=]%list_elem_of_singleton.
Qed.

Lemma emitted_app name l1 l2 :
  emitted name (l1 ++ l2) = (emitted name l1 + emitted name l2)%nat.
Proof. unfold emitted. by rewrite filter_app, sum_list_with_app. Qed.

Lemma emitted_if name (b : bool) s :
  emitted name (if b then [s] else [])
  = if b then (if decide (stat_name s = name) then stat_count s else 0%nat)
    else 0%nat.
Proof.
  destruct b; [|done]. unfold emitted.
  destruct (decide (stat_name s = name)).
  - rewrite filter_cons_True by done. simpl. lia.
  - by rewrite filter_cons_False by done.
Qed.


Lemma positive_or_zero (n : nat) : (if (0 <? n)%nat then n else 0%nat) = n.
Proof. destruct (Nat.ltb_spec 0 n); lia. Qed.

Lemma zero_or_zero (b : bool) : (if b then 0%nat else 0%nat) = 0%nat.
Proof. by destruct b. Qed.

(** The counts handed to [emit_stats], read back from its calls. *)
Lemma emitted_emit_stats session reports malformed_reports obs_count api_key :
  let stats :=
    emit_stats session reports malformed_reports obs_count api_key in
  emitted "data.report.upload" stats = reports ∧
  emitted "data.report.drop" stats = malformed_reports ∧
  emitted "data.observation.upload" stats
    = ((obs_count blue).1 + (obs_count cell).1 + (obs_count wifi).1)%nat ∧
  emitted "data.observation.drop" stats
    = ((obs_count blue).2 + (obs_count cell).2 + (obs_count wifi).2)%nat.
Proof.
  unfold emit_stats. simpl.
  change ("data.observation." +:+ "upload") with "data.observation.upload".
  change ("data.observation." +:+ "drop") with "data.observation.drop".
  rewrite !app_nil_r.
  split_and!; rewrite !emitted_app, !emitted_if; cbn [stat_name stat_count];
    repeat (case_decide; [try done|try done]);
    rewrite ?positive_or_zero, ?zero_or_zero; lia.
Qed.

(** What every call of [emit_stats] looks like. *)
Lemma emit_stats_calls session reports malformed_reports obs_count api_key s :
  s ∈ emit_stats session reports malformed_reports obs_count api_key →
  (0 < stat_count s)%nat ∧
  ("reason:malformed" ∈ stat_tags s ↔
   stat_name s = "data.report.drop" ∨ stat_name s = "data.observation.drop") ∧
  (∀ tag, tag ∈ api_tag session api_key → tag ∈ stat_tags s).
Proof.
  pose proof (api_tag_not_malformed session api_key) as Hnot.
  unfold emit_stats. simpl.
  change ("data.observation." +:+ "upload") with "data.observation.upload".
  change ("data.observation." +:+ "drop") with "data.observation.drop".
  change ("type:" +:+ "blue") with "type:blue".
  change ("type:" +:+ "cell") with "type:cell".
  change ("type:" +:+ "wifi") with "type:wifi".
  rewrite !elem_of_app, !elem_of_if, elem_of_nil.
  intros Hs.
  repeat match goal with
  | H : _ ∨ _ |- _ => destruct H as [H|H]
  | H : _ ∧ _ |- _ => destruct H as [?%Nat.ltb_lt ->]
  | H : False |- _ => destruct H
  end; cbn [stat_name stat_count stat_tags];
  (split_and!; [done | | intros tag Htag; set_solver]);
  rewrite ?elem_of_cons; split;
    solve [ intros; simplify_eq; (by left) || (by right) || done
          | intros [?|?]; (done || (by left) || (by right; left))
          | intros [?|[?|?]]; (done || (by left) || (by right; left))
          | intros [?|?]; done ].
Qed.

(** [emit_stats] calls nothing exactly when every counter is zero. *)
Lemma emit_stats_nil session reports malformed_reports obs_count api_key :
  emit_stats session reports malformed_reports obs_count api_key = [] ↔
  reports = 0%nat ∧ malformed_reports = 0%nat ∧
  ∀ name, obs_count name = (0, 0)%nat.
Proof.
  unfold emit_stats. simpl.
  rewrite !app_nil, !if_nil, !Nat.ltb_ge. split.
  - intros (? & ? & (? & ? & _) & (? & ? & _) & (? & ? & _) & _).
    split_and!; [lia | lia |].
    intros name. destruct name; apply injective_projections; simpl; lia.
  - intros (-> & -> & Ho). rewrite !Ho. simpl. split_and!; done || lia.
Qed.

End stats_facts.

(** X26: every call that [emit_stats] makes has a positive count,
    carries the tag [reason:malformed] exactly when it is made for a
    [drop] stat, and carries the key tag when there is one; no call is
    made exactly when all the counters are zero. *)
Theorem emit_stats_sound `{ApiKeys} session reports malformed_reports
    obs_count api_key :
  (∀ s, s ∈ emit_stats session reports malformed_reports obs_count api_key →
     (0 < stat_count s)%nat ∧
     ("reason:malformed" ∈ stat_tags s ↔
      stat_name s = "data.report.drop" ∨
      stat_name s = "data.observation.drop") ∧
     (∀ tag, tag ∈ api_tag session api_key → tag ∈ stat_tags s)) ∧
  (emit_stats session reports malformed_reports obs_count api_key = [] ↔
   reports = 0%nat ∧ malformed_reports = 0%nat ∧
   ∀ name, obs_count name = (0, 0)%nat).
Proof.
  split; [intros s; apply emit_stats_calls | apply emit_stats_nil].
Qed.

(** X27: the counters handed to [emit_stats] can be read back from its
    calls: the counts of the calls for [data.report.upload] add up to the
    reports, those for [data.report.drop] to the malformed reports, and
    those for the two observation stats to the upload and the drop
    counters of the three types. *)
Theorem emit_stats_totals `{ApiKeys} session reports malformed_reports
    obs_count api_key :
  let stats :=
    emit_stats session reports malformed_reports obs_count api_key in
  emitted "data.report.upload" stats = reports ∧
  emitted "data.report.drop" stats = malformed_reports ∧
  emitted "data.observation.upload" stats
    = ((obs_count blue).1 + (obs_count cell).1 + (obs_count wifi).1)%nat ∧
  emitted "data.observation.drop" stats
    = ((obs_count blue).2 + (obs_count cell).2 + (obs_count wifi).2)%nat.
Proof. apply emitted_emit_stats. Qed.

(** ** The metrics of a batch *)

Section metrics_facts.
Context `{Library} `{ApiKeys}.








End metrics_facts.


(** ** The datamap and the metrics on concrete batches *)

Lemma datamap_queues_witness :
  ∃ calls,
    @process_datamap example_datamaps example_positions = Some calls ∧
    NoDup calls.*1 ∧
    (∀ queue values, (queue, values) ∈ calls →
       values ≠ [] ∧ NoDup values ∧
       ∃ sid, queue = "update_datamap_" +:+ sid) ∧
    (∀ sid v,
       (∃ values, ("update_datamap_" +:+ sid, values) ∈ calls ∧ v ∈ values) ↔
       ∃ lat lon grid, (lat, lon) ∈ example_positions ∧ located (lat, lon) ∧
         @DataMap_scale example_datamaps lat lon = Some grid ∧
         @DataMap_shard_id example_datamaps grid.1 grid.2 = sid ∧
         @encode_datamap_grid example_datamaps grid.1 grid.2 = v).
Proof.
  assert (is_Some (@process_datamap example_datamaps example_positions))
    as [calls Hcalls] by (apply (bool_decide_unpack _); vm_compute; exact I).
  exists calls. split; [exact Hcalls|].
  apply (@datamap_queues example_datamaps example_positions calls Hcalls).
Defined.

Lemma datamap_set_of_positions_witness :
  @process_datamap example_datamaps example_positions
  = @process_datamap example_datamaps [(KNum 1 1, KNum 2 1)].
Proof.
  apply (@datamap_set_of_positions example_datamaps example_positions
           [(KNum 1 1, KNum 2 1)]).
  intros [lat lon] [Hlat Hlon]. unfold example_positions.
  rewrite !elem_of_cons, elem_of_nil. simpl in Hlat. naive_solver.
Defined.

